(** * Validation core of the storefront test harness

    A shallow embedding of the pure logic of the repository:

    - [PriceHelper] (utils/priceHelper.js): [extractPrice], [formatPrice],
      [calculateTotal], [generateSortViolationReport],
      [validateAscendingOrder];
    - [CartPage] (pages/CartPage.js): [validateCartContents] and
      [validateTotal], with the page scrapes ([getCartItems],
      [getCartTotal]) passed in as explicit state; [getCartItems] and
      [calculateExpectedTotal] over the texts of the page elements;
    - [SearchResultsPage]: [getProductsWithPrices], [getPricesOnly],
      [areResultsDisplayed] over the texts of the page elements, and
      [collectProductsFromPages] over a browser state;
    - [ProductPage.getProductDetails] and the two pieces of logic of
      tests/addToCart.spec.js: the products it records and its total
      check.

    JavaScript strings are sequences of UTF-16 code units, and are modelled
    as lists of code units.  JavaScript numbers are the values of IEEE 754
    binary64: NaN, the two infinities and the finite values, which are
    carried as the rationals they denote; every operation that produces a
    number (reading a string, a sum, a difference, a product, a decimal
    literal) rounds its exact result to the nearest binary64 value, and
    the string form of a number is the shortest decimal that is read back
    as that number. *)

From Stdlib Require Import ZArith NArith Zpow_facts QArith Qabs Qround Qcanon Qpower.
From Stdlib Require Import Lia Lqa.
From Stdlib Require Import String Ascii.
From stdpp Require Import base list sorting.

Set Default Proof Using "Type".

(* ===================================================================== *)
(** ** JavaScript strings *)
(* ===================================================================== *)

Module JsString.

(** A string is the list of its UTF-16 code units. *)
Abbreviation jsstring := (list N).

(** The code units of an ASCII literal. *)
Definition lit (s : string) : jsstring :=
  map N_of_ascii (list_ascii_of_string s).

(** U+20B9 INDIAN RUPEE SIGN, one code unit. *)
Definition rupee : N := 8377%N.

(** The class [\d] of a regular expression without the [u] flag, and
    the DecimalDigit of the numeric grammar: '0'..'9'. *)
Definition isDigit (c : N) : bool := ((48 <=? c) && (c <=? 57))%N.

(** WhiteSpace and LineTerminator code points: the class [\s], and the
    characters [parseFloat] skips at the start of its argument. *)
Definition isWhiteSpace (c : N) : bool :=
  ((9 <=? c) && (c <=? 13) || (c =? 32) || (c =? 160) || (c =? 5760)
   || (8192 <=? c) && (c <=? 8202) || (c =? 8232) || (c =? 8233)
   || (c =? 8239) || (c =? 8287) || (c =? 12288) || (c =? 65279))%N.

(** [s.replace(/[...]/g, '')] for a class of single code units: every
    code unit of the class is deleted, the others keep their order. *)
Definition replaceClass (cls : N -> bool) (s : jsstring) : jsstring :=
  filter (fun c => negb (cls c) = true) s.

(** [s.substring(0, n)]. *)
Definition substring0 (n : nat) (s : jsstring) : jsstring := take n s.

(** [p] is a prefix of [s]. *)
Fixpoint startsWith (p s : jsstring) : bool :=
  match p, s with
  | [], _ => true
  | _ :: _, [] => false
  | a :: p', b :: s' => (a =? b)%N && startsWith p' s'
  end.

(** [s.includes(p)]: [p] occurs in [s] as a contiguous run of code
    units; the empty string occurs in every string. *)
Fixpoint includes (s p : jsstring) : bool :=
  startsWith p s ||
  match s with
  | [] => false
  | _ :: s' => includes s' p
  end.

(** The longest prefix of decimal digits, and what follows it. *)
Fixpoint spanDigits (s : jsstring) : jsstring * jsstring :=
  match s with
  | c :: s' =>
      if isDigit c
      then let '(ds, rest) := spanDigits s' in (c :: ds, rest)
      else ([], s)
  | [] => ([], [])
  end.

(** The mathematical value of a run of decimal digits, read from the
    left. *)
Definition digitStep (acc d : N) : N := (10 * acc + (d - 48))%N.

Definition digitsValue (ds : jsstring) : N := fold_left digitStep ds 0%N.

Fixpoint digitsFuel (fuel : nat) (n : N) (acc : jsstring) : jsstring :=
  match fuel with
  | O => acc
  | S fuel' =>
      let acc' := (48 + n mod 10)%N :: acc in
      if (n / 10 =? 0)%N then acc' else digitsFuel fuel' (n / 10)%N acc'
  end.

(** The decimal digits of [n], most significant first, without leading
    zeros ("0" for zero).  A number has no more decimal digits than
    bits, which bounds the recursion. *)
Definition decimalDigits (n : N) : jsstring :=
  digitsFuel (S (N.size_nat n)) n [].

Fixpoint dropWhileWs (s : jsstring) : jsstring :=
  match s with
  | c :: s' => if isWhiteSpace c then dropWhileWs s' else s
  | [] => []
  end.

End JsString.
Import JsString.

(* ===================================================================== *)
(** ** JavaScript numbers *)
(* ===================================================================== *)

Module Number.

(** A finite number is carried as the rational it denotes.  The Numbers
    of the language are NaN, the infinities and the finite numbers that
    are binary64 values (the predicate [binary64] below); the operations
    return such numbers only, whatever they are given. *)
Inductive number : Type :=
| NaN
| Infinity (negative : bool)
| Fin (q : Q).

(** The whole numbers as numbers: those up to [2^53] in absolute value
    are binary64 values, among them the integer literals of the source
    ([0], [100]); [nearest] below rounds the others. *)
Definition ofZ (z : Z) : number := Fin (inject_Z z).
Definition ofN (n : N) : number := Fin (inject_Z (Z.of_N n)).

Definition zero : number := ofZ 0.

Definition isNaN (x : number) : bool :=
  match x with NaN => true | _ => false end.

Definition Qltb (a b : Q) : bool :=
  match (a ?= b)%Q with Lt => true | _ => false end.

(** [x < y]; false as soon as an operand is NaN. *)
Definition lt (x y : number) : bool :=
  match x, y with
  | NaN, _ | _, NaN => false
  | Infinity nx, Infinity ny => nx && negb ny
  | Infinity nx, Fin _ => nx
  | Fin _, Infinity ny => negb ny
  | Fin a, Fin b => Qltb a b
  end.

(** [x <= y]; false as soon as an operand is NaN. *)
Definition le (x y : number) : bool :=
  match x, y with
  | NaN, _ | _, NaN => false
  | Infinity nx, Infinity ny => nx || negb ny
  | Infinity nx, Fin _ => nx
  | Fin _, Infinity ny => negb ny
  | Fin a, Fin b => Qle_bool a b
  end.

(** [x === y] on numbers; NaN is not equal to itself. *)
Definition strictEquals (x y : number) : bool :=
  match x, y with
  | Infinity nx, Infinity ny => Bool.eqb nx ny
  | Fin a, Fin b => Qeq_bool a b
  | _, _ => false
  end.

Definition neg (x : number) : number :=
  match x with
  | NaN => NaN
  | Infinity n => Infinity (negb n)
  | Fin a => Fin (Qred (- a))
  end.

(** *** binary64

    The finite values of the Number type are those of IEEE 754 binary64:
    [m * 2^e] with [|m| < 2^53] and [-1074 <= e <= 971].  [round64] is the
    function written 𝔽 in the language specification restricted to the
    rationals: the binary64 value nearest to [q], of two equally near
    values the one with even significand, and an infinity from
    [2^1024 - 2^970] on.  The two zeros are not told apart: they compare
    equal and have the same string form, and the program has no
    operation that separates them. *)

(** [num / den] rounded to the nearest integer, a tie to the even one;
    [0 <= num], [0 < den]. *)
Definition roundHalfEven (num den : Z) : Z :=
  let q := (num / den)%Z in
  let r := (num mod den)%Z in
  if (2 * r <? den)%Z then q
  else if (den <? 2 * r)%Z then (q + 1)%Z
  else if Z.even q then q else (q + 1)%Z.

(** [floor (log2 (p / d))]. *)
Definition floorLog2 (p d : positive) : Z :=
  let l := (Z.log2 (Z.pos p) - Z.log2 (Z.pos d))%Z in
  if (Z.pos d * 2 ^ Z.max l 0 <=? Z.pos p * 2 ^ Z.max (- l) 0)%Z
  then l else (l - 1)%Z.

(** [2^e] for an integer exponent. *)
Definition pow2 (e : Z) : Q := Qpower 2 e.

(** The rational [m * 2^e]. *)
Definition scale2 (m e : Z) : Q :=
  if (0 <=? e)%Z then inject_Z (m * 2 ^ e)
  else Qmake m (Z.to_pos (2 ^ (- e))).

(** The rounding of [p / d > 0]: the exponent [e] is that of the binade
    of [p / d], not below that of the subnormal numbers, and the
    significand is [p / d / 2^e] rounded to an integer. *)
Definition roundPositive (p d : positive) : number :=
  let e := Z.max (floorLog2 p d - 52) (-1074) in
  let m := roundHalfEven (Z.pos p * 2 ^ Z.max (- e) 0)
                         (Z.pos d * 2 ^ Z.max e 0) in
  if (1024 <=? Z.log2 m + e)%Z then Infinity false
  else Fin (Qred (scale2 m e)).

Definition round64 (q : Q) : number :=
  let r := Qred q in
  match Qnum r with
  | Z0 => Fin 0
  | Z.pos p => roundPositive p (Qden r)
  | Z.neg p => neg (roundPositive p (Qden r))
  end.

(** The Number value of a whole number, 𝔽(n). *)
Definition nearest (n : N) : number := round64 (inject_Z (Z.of_N n)).

(** The value of a decimal literal of the source, as [0.1]. *)
Definition literal (q : Q) : number := round64 q.

(** [x + y], [x - y] and [x * y]: the exact result, rounded. *)
Definition add (x y : number) : number :=
  match x, y with
  | NaN, _ | _, NaN => NaN
  | Infinity nx, Infinity ny => if Bool.eqb nx ny then Infinity nx else NaN
  | Infinity nx, Fin _ => Infinity nx
  | Fin _, Infinity ny => Infinity ny
  | Fin a, Fin b => round64 (a + b)
  end.

Definition sub (x y : number) : number := add x (neg y).

Definition Qsignbit (a : Q) : bool := Qltb a 0.

Definition mul (x y : number) : number :=
  match x, y with
  | NaN, _ | _, NaN => NaN
  | Infinity nx, Infinity ny => Infinity (xorb nx ny)
  | Infinity nx, Fin b =>
      if Qeq_bool b 0 then NaN else Infinity (xorb nx (Qsignbit b))
  | Fin a, Infinity ny =>
      if Qeq_bool a 0 then NaN else Infinity (xorb (Qsignbit a) ny)
  | Fin a, Fin b => round64 (a * b)
  end.

(** [Math.abs]. *)
Definition abs (x : number) : number :=
  match x with
  | NaN => NaN
  | Infinity _ => Infinity false
  | Fin a => Fin (Qred (Qabs a))
  end.

(** [10^e] for an integer exponent. *)
Definition pow10 (e : Z) : Q := Qpower 10 e.

(** [parseFloat]: leading white space is skipped, then the longest
    prefix that is a StrDecimalLiteral is read,
      [+-]? ( Infinity | digits [. digits?] [exponent]? | . digits [exponent]? )
    with exponent = [eE] [+-]? digits; whatever follows is ignored.
    NaN when there is no such prefix; otherwise the value read,
    rounded. *)
Definition parseExponent (s : jsstring) : Z :=
  match s with
  | c :: s1 =>
      if ((c =? 101) || (c =? 69))%N then
        let '(sgn, s2) :=
          match s1 with
          | d :: s2 =>
              if (d =? 43)%N then (1%Z, s2)
              else if (d =? 45)%N then ((-1)%Z, s2)
              else (1%Z, s1)
          | [] => (1%Z, s1)
          end in
        let '(ds, _) := spanDigits s2 in
        match ds with
        | [] => 0%Z
        | _ :: _ => (sgn * Z.of_N (digitsValue ds))%Z
        end
      else 0%Z
  | [] => 0%Z
  end.

Definition parseFloat (s : jsstring) : number :=
  let t := dropWhileWs s in
  let '(negative, t1) :=
    match t with
    | c :: t1 =>
        if (c =? 43)%N then (false, t1)
        else if (c =? 45)%N then (true, t1)
        else (false, t)
    | [] => (false, t)
    end in
  if startsWith (lit "Infinity") t1 then Infinity negative
  else
    let '(ip, r1) := spanDigits t1 in
    let '(fp, r2) :=
      match r1 with
      | c :: r =>
          if (c =? 46)%N then spanDigits r else ([], r1)
      | [] => ([], r1)
      end in
    match ip, fp with
    | [], [] => NaN
    | _, _ =>
        let mant :=
          (inject_Z (Z.of_N (digitsValue (ip ++ fp)))
           * pow10 (- Z.of_nat (length fp)))%Q in
        let v := (mant * pow10 (parseExponent r2))%Q in
        round64 (if negative then - v else v)
    end.

(** *** Number to string *)

Fixpoint dropWhileZero (s : jsstring) : jsstring :=
  match s with
  | c :: s' => if (c =? 48)%N then dropWhileZero s' else s
  | [] => []
  end.

Definition stripTrailingZeros (s : jsstring) : jsstring :=
  reverse (dropWhileZero (reverse s)).

(** For [q > 0]: the least [f] (up to the fuel) such that [q * 10^f] is
    an integer, with that integer.  The denominator of a value with a
    finite decimal expansion divides [10^f] for some [f] below its
    number of bits; when the fuel runs out the expansion is cut. *)
Fixpoint scaleToInteger (fuel : nat) (q : Q) (f : nat) : Z * nat :=
  let r := Qred q in
  if (Qden r =? 1)%positive then (Qnum r, f)
  else match fuel with
       | O => (Qfloor r, f)
       | S fuel' => scaleToInteger fuel' (r * 10)%Q (S f)
       end.

(** The digits of the exact decimal expansion of [q > 0] without its
    trailing zeros, and the number [n] of them before the decimal
    point. *)
Definition exactDigits (q : Q) : jsstring * Z :=
  let '(m, f) := scaleToInteger (Pos.size_nat (Qden q)) q 0 in
  let ds := decimalDigits (Z.to_N m) in
  (stripTrailingZeros ds, (Z.of_nat (length ds) - Z.of_nat f)%Z).

(** For [0 < q < 1]: the number of zeros between the decimal point and
    the first significant digit of [q]. *)
Fixpoint leadingZeros (fuel : nat) (q : Q) (t : nat) : nat :=
  match fuel with
  | O => t
  | S fuel' =>
      if Qle_bool 1 (q * 10) then t
      else leadingZeros fuel' (Qred (q * 10)) (S t)
  end.

(** For [q > 0]: the integer [n] with [10^(n-1) <= q < 10^n]. *)
Definition decimalExponent (q : Q) : Z :=
  if Qle_bool 1 q
  then Z.of_nat (length (decimalDigits (Z.to_N (Qfloor q))))
  else (- Z.of_nat (leadingZeros (Pos.size_nat (Qden q)) q 0))%Z.

(** The decimal [s * 10^(n-k)] is read back as [q]. *)
Definition roundTrips (q : Q) (s n k : Z) : bool :=
  match round64 (inject_Z s * pow10 (n - k)) with
  | Fin r => Qeq_bool r q
  | _ => false
  end.

(** Number::toString, step 5, for one [k]: an integer [s] of [k] digits
    with 𝔽([s * 10^(n-k)]) = [q], if there is one.  Only the two decimals
    of [k] digits around [q] can qualify; of two that do, the nearer to
    [q] is taken, and the even one of two equally near.  When the upper
    one is [10^k] it is written [10^(k-1)], with [n + 1]. *)
Definition shortestAt (q : Q) (n k : Z) : option (Z * Z) :=
  let t := (q / pow10 (n - k))%Q in
  let lo := Qfloor t in
  let hi := (lo + 1)%Z in
  let '(his, hin) :=
    if (hi =? 10 ^ k)%Z then ((10 ^ (k - 1))%Z, (n + 1)%Z) else (hi, n) in
  let okLo := roundTrips q lo n k in
  let okHi := roundTrips q his hin k in
  if okLo && okHi then
    match (t - inject_Z lo ?= inject_Z hi - t)%Q with
    | Lt => Some (lo, n)
    | Gt => Some (his, hin)
    | Eq => if Z.even lo then Some (lo, n) else Some (his, hin)
    end
  else if okLo then Some (lo, n)
  else if okHi then Some (his, hin)
  else None.

(** The least [k], from [k] on, for which there is such an [s]. *)
Fixpoint shortestFrom (fuel : nat) (q : Q) (n k : Z) : option (Z * Z) :=
  match fuel with
  | O => None
  | S fuel' =>
      match shortestAt q n k with
      | Some r => Some r
      | None => shortestFrom fuel' q n (k + 1)
      end
  end.

(** The significant digits [sd] of the string form of [q > 0] and the
    position [n] of the decimal point: the shortest decimal that is read
    back as [q].  A binary64 value has one of at most 17 digits; for
    another rational the search comes back empty, and the exact
    expansion is taken. *)
Definition shortestDigits (q : Q) : jsstring * Z :=
  match shortestFrom 17 q (decimalExponent q) 1 with
  | Some (s, n) => (decimalDigits (Z.to_N s), n)
  | None => exactDigits q
  end.

(** Number::toString for a finite [q > 0]: with [k] significant digits
    [sd] and the decimal point after the [n]-th of them. *)
Definition formatDecimal (sd : jsstring) (n : Z) : jsstring :=
  let k := Z.of_nat (length sd) in
  if ((k <=? n) && (n <=? 21))%Z then
    sd ++ replicate (Z.to_nat (n - k)) 48%N
  else if ((0 <? n) && (n <=? 21))%Z then
    take (Z.to_nat n) sd ++ 46%N :: drop (Z.to_nat n) sd
  else if ((-6 <? n) && (n <=? 0))%Z then
    48%N :: 46%N :: replicate (Z.to_nat (- n)) 48%N ++ sd
  else
    let e := (n - 1)%Z in
    let expo :=
      101%N :: (if (e <? 0)%Z then 45%N else 43%N)
            :: decimalDigits (Z.to_N (Z.abs e)) in
    match sd with
    | [] => expo
    | d :: [] => d :: expo
    | d :: ds' => d :: 46%N :: ds' ++ expo
    end.

Definition positiveToString (q : Q) : jsstring :=
  let '(sd, n) := shortestDigits q in formatDecimal sd n.

(** [String(x)], the conversion used by template literals. *)
Definition toString (x : number) : jsstring :=
  match x with
  | NaN => lit "NaN"
  | Infinity false => lit "Infinity"
  | Infinity true => lit "-Infinity"
  | Fin q =>
      match (q ?= 0)%Q with
      | Eq => lit "0"
      | Gt => positiveToString q
      | Lt => 45%N :: positiveToString (- q)
      end
  end.

(** *** Number.prototype.toLocaleString('en-IN') *)

(** Grouping of the integer digits in the en-IN locale: the last three
    digits, then groups of two.  Both functions work on the digits in
    reverse order. *)
Fixpoint groupPairs (rds : jsstring) : jsstring :=
  match rds with
  | a :: b :: rest =>
      match rest with
      | [] => rds
      | _ :: _ => a :: b :: 44%N :: groupPairs rest
      end
  | _ => rds
  end.

Definition groupIndian (ds : jsstring) : jsstring :=
  match reverse ds with
  | a :: b :: c :: (_ :: _) as rest =>
      reverse (a :: b :: c :: 44%N :: groupPairs rest)
  | _ => ds
  end.

(** [q >= 0] in thousandths, rounded half away from zero. *)
Definition roundThousandths (q : Q) : Z :=
  ((2 * 1000 * Qnum q + Z.pos (Qden q)) / (2 * Z.pos (Qden q)))%Z.

(** The three fraction digits of [f < 1000], zero padded. *)
Definition fractionDigits (f : Z) : jsstring :=
  [ (48 + Z.to_N (f / 100))%N;
    (48 + Z.to_N ((f / 10) mod 10))%N;
    (48 + Z.to_N (f mod 10))%N ].

(** The default decimal style: grouping on, no minimum and at most
    three fraction digits. *)
Definition nonNegativeToLocale (q : Q) : jsstring :=
  let m := roundThousandths q in
  let ip := groupIndian (decimalDigits (Z.to_N (m / 1000))) in
  match stripTrailingZeros (fractionDigits (m mod 1000)) with
  | [] => ip
  | fd => ip ++ 46%N :: fd
  end.

(** The decimal that is formatted: the one of the string form of
    [q > 0], the shortest that is read back as [q]. *)
Definition shortestDecimal (q : Q) : Q :=
  let '(sd, n) := shortestDigits q in
  (inject_Z (Z.of_N (digitsValue sd)) * pow10 (n - Z.of_nat (length sd)))%Q.

(** The digits formatted are those of the shortest decimal, rounded to
    three fraction digits; NaN and the infinities have their symbols. *)
Definition toLocaleString (x : number) : jsstring :=
  match x with
  | NaN => lit "NaN"
  | Infinity false => [8734%N]
  | Infinity true => [45%N; 8734%N]
  | Fin q =>
      match (q ?= 0)%Q with
      | Eq => nonNegativeToLocale 0
      | Gt => nonNegativeToLocale (shortestDecimal q)
      | Lt => 45%N :: nonNegativeToLocale (shortestDecimal (- q))
      end
  end.

End Number.
Import Number.

(* ===================================================================== *)
(** ** PriceHelper *)
(* ===================================================================== *)

Module PriceHelper.

(** The class [[₹Rs.,\s]] under the [i] flag: the rupee sign, the
    letters R and S in either case, the full stop, the comma and white
    space. *)
Definition currencyClass (c : N) : bool :=
  ((c =? rupee) || (c =? 82) || (c =? 114) || (c =? 83) || (c =? 115)
   || (c =? 46) || (c =? 44))%N || isWhiteSpace c.

(** The class [[^\d.]]: everything but a digit and the full stop. *)
Definition nonNumericClass (c : N) : bool :=
  negb (isDigit c || (c =? 46)%N).

Definition cleanPrice (priceString : jsstring) : jsstring :=
  replaceClass nonNumericClass (replaceClass currencyClass priceString).

(** [extractPrice].  The falsy argument of the first line is the empty
    string ([null] and [undefined] take the same return). *)
Definition extractPrice (priceString : jsstring) : number :=
  match priceString with
  | [] => zero
  | _ :: _ =>
      let cleanedPrice := cleanPrice priceString in
      let price := parseFloat cleanedPrice in
      if isNaN price then zero else price
  end.

(** [formatPrice]: the rupee sign and the en-IN rendering. *)
Definition formatPrice (price : number) : jsstring :=
  rupee :: toLocaleString price.

(** [calculateTotal]: [prices.reduce((sum, price) => sum + price, 0)]. *)
Definition calculateTotal (prices : list number) : number :=
  fold_left (fun sum price => add sum price) prices zero.

(** The objects handed to the validators ([{name, price, priceText}]
    from the listing and the cart, [{name, price, position}] for the
    products added by the test).  The functions below read [name] and
    [price] only and pass the objects on unchanged. *)
Record product : Type := mkProduct {
  name : jsstring;
  price : number
}.

Record violation : Type := mkViolation {
  position : nat;
  productName : jsstring;
  productPrice : number;
  previousProductName : jsstring;
  previousProductPrice : number
}.

Record sortReport : Type := mkSortReport {
  totalProducts : nat;
  violationsFound : nat;
  isCorrectlySorted : bool;
  violations : list violation;
  violationDetails : list jsstring
}.

Definition natToString (n : nat) : jsstring := toString (ofN (N.of_nat n)).

(** The body of the loop of [generateSortViolationReport] at index [i]:
    [violations.push] appends at the end.  The loop only visits
    [1 <= i < products.length], where both reads are in range. *)
Definition sortLoopBody (products : list product)
    (violations : list violation) (i : nat) : list violation :=
  match products !! i, products !! (i - 1) with
  | Some cur, Some prev =>
      if lt (price cur) (price prev) then
        violations ++
        [ {| position := i + 1;
             productName := name cur;
             productPrice := price cur;
             previousProductName := name prev;
             previousProductPrice := price prev |} ]
      else violations
  | _, _ => violations
  end.

Definition violationDetail (v : violation) : jsstring :=
  lit "Position " ++ natToString (position v) ++ lit ": " ++ [34%N]
  ++ productName v ++ [34%N] ++ lit " (" ++ [rupee]
  ++ toString (productPrice v) ++ lit ") < " ++ [34%N]
  ++ previousProductName v ++ [34%N] ++ lit " (" ++ [rupee]
  ++ toString (previousProductPrice v) ++ lit ")".

(** [generateSortViolationReport]: [for (let i = 1; i < products.length; i++)]. *)
Definition generateSortViolationReport (products : list product)
    : sortReport :=
  let violations :=
    fold_left (sortLoopBody products) (seq 1 (length products - 1)) [] in
  {| totalProducts := length products;
     violationsFound := length violations;
     isCorrectlySorted := Nat.eqb (length violations) 0;
     violations := violations;
     violationDetails := map violationDetail violations |}.

End PriceHelper.
Import PriceHelper.

(* ===================================================================== *)
(** ** CartPage *)
(* ===================================================================== *)

Module CartPage.

Inductive verdict : Type := MATCH | PRICE_MISMATCH | NOT_FOUND.

(** An element of [matches] or [mismatches]; [actual] is [null] for
    NOT_FOUND, and the entries of [matches] carry no message. *)
Record validationEntry : Type := mkEntry {
  expected : product;
  actual : option product;
  status : verdict;
  message : option jsstring
}.

Record validationResult : Type := mkValidationResult {
  passed : bool;
  cartItems : list product;
  expectedProducts : list product;
  matches : list validationEntry;
  mismatches : list validationEntry
}.

(** The result of [validateTotal] (its [message] property is
    [totalMessage] here). *)
Record totalValidation : Type := mkTotalValidation {
  displayedTotal : number;
  calculatedTotal : number;
  expectedTotal : number;
  isDisplayedCorrect : bool;
  isCalculatedCorrect : bool;
  totalMessage : jsstring
}.

Section WithLowerCase.

(** [String.prototype.toLowerCase], the Unicode lower-casing of the
    host; nothing is assumed about it. *)
Variable toLowerCase : jsstring -> jsstring.

(** The predicate given to [cartItems.find]. *)
Definition nameMatches (expected item : product) : bool :=
  includes (toLowerCase (name item))
           (substring0 20 (toLowerCase (name expected)))
  || includes (toLowerCase (name expected))
              (substring0 20 (toLowerCase (name item))).

(** [cartItems.find(...)]: the first element, in order, for which the
    predicate holds; [None] is [undefined]. *)
Definition findMatchingItem (cartItems : list product)
    (expected : product) : option product :=
  List.find (nameMatches expected) cartItems.

Definition priceMatch (matchingItem expected : product) : bool :=
  let priceDiff := abs (sub (price matchingItem) (price expected)) in
  lt priceDiff (ofZ 100) || strictEquals (price expected) (ofZ 0).

(** The two message templates. *)
Definition priceMismatchMessage (expected matchingItem : product) : jsstring :=
  lit "Price mismatch: Expected " ++ [rupee] ++ toString (price expected)
  ++ lit ", Got " ++ [rupee] ++ toString (price matchingItem).

Definition notFoundMessage (expected : product) : jsstring :=
  lit "Product " ++ [34%N] ++ name expected ++ [34%N]
  ++ lit " not found in cart".

(** The body of [for (const expected of expectedProducts)]. *)
Definition validateExpected (r : validationResult) (expected : product)
    : validationResult :=
  match findMatchingItem (cartItems r) expected with
  | Some matchingItem =>
      if priceMatch matchingItem expected then
        {| passed := passed r;
           cartItems := cartItems r;
           expectedProducts := expectedProducts r;
           matches := matches r ++
             [ {| expected := expected;
                  actual := Some matchingItem;
                  status := MATCH;
                  message := None |} ];
           mismatches := mismatches r |}
      else
        {| passed := false;
           cartItems := cartItems r;
           expectedProducts := expectedProducts r;
           matches := matches r;
           mismatches := mismatches r ++
             [ {| expected := expected;
                  actual := Some matchingItem;
                  status := PRICE_MISMATCH;
                  message := Some
                    (priceMismatchMessage expected matchingItem) |} ] |}
  | None =>
      {| passed := false;
         cartItems := cartItems r;
         expectedProducts := expectedProducts r;
         matches := matches r;
         mismatches := mismatches r ++
           [ {| expected := expected;
                actual := None;
                status := NOT_FOUND;
                message := Some (notFoundMessage expected) |} ] |}
  end.

(** [validateCartContents]; [scraped] is what [getCartItems] returned
    from the page. *)
Definition validateCartContents (scraped : list product)
    (expectedProducts : list product) : validationResult :=
  let validationResult :=
    {| passed := true;
       cartItems := scraped;
       expectedProducts := expectedProducts;
       matches := [];
       mismatches := [] |} in
  fold_left validateExpected expectedProducts validationResult.

End WithLowerCase.

(** [validateTotal]; [displayed] is what [getCartTotal] returned and
    [scraped] what [getCartItems] returned for [calculateExpectedTotal].
    The literal [0.1] is the binary64 value nearest to one tenth. *)
Definition validateTotal (displayed : number) (scraped : list product)
    (expectedTotal : number) : totalValidation :=
  let displayedTotal := displayed in
  let calculatedTotal := calculateTotal (map price scraped) in
  let tolerance := mul expectedTotal (literal (1 # 10)) in
  {| displayedTotal := displayedTotal;
     calculatedTotal := calculatedTotal;
     expectedTotal := expectedTotal;
     isDisplayedCorrect :=
       le (abs (sub displayedTotal expectedTotal)) tolerance;
     isCalculatedCorrect :=
       le (abs (sub calculatedTotal expectedTotal)) tolerance;
     totalMessage :=
       lit "Displayed: " ++ [rupee] ++ toString displayedTotal
       ++ lit ", Calculated: " ++ [rupee] ++ toString calculatedTotal
       ++ lit ", Expected: " ++ [rupee] ++ toString expectedTotal |}.

End CartPage.
Import CartPage.

(** Lower-casing of the Basic Latin letters, for the examples. *)
Definition asciiLower (s : jsstring) : jsstring :=
  map (fun c => if ((65 <=? c) && (c <=? 90))%N then (c + 32)%N else c) s.

(* ===================================================================== *)
(** ** Notions used in the statements and proofs *)
(* ===================================================================== *)

(** A run of decimal digits. *)
Definition allDigits (s : jsstring) : Prop :=
  Forall (fun c => isDigit c = true) s.

(** A sequence of items sorted non-decreasingly by price: every item is
    [<=] its successor. *)
Fixpoint nonDecreasing (products : list product) : bool :=
  match products with
  | [] => true
  | p :: rest =>
      match rest with
      | [] => true
      | c :: _ => le (price p) (price c) && nonDecreasing rest
      end
  end.

(** The violation that the pair at indices [i - 1] and [i] gives rise to,
    if any. *)
Definition violationAt (products : list product) (i : nat) : list violation :=
  match products !! i, products !! (i - 1) with
  | Some cur, Some prev =>
      if lt (price cur) (price prev) then
        [ mkViolation (i + 1) (name cur) (price cur) (name prev) (price prev) ]
      else []
  | _, _ => []
  end.

(** An item with the given whole price, for the examples. *)
Definition priced (n : Z) : product := mkProduct (lit "item") (ofZ n).

(** Following the specification's words: [compareTotal] with a tolerance
    ratio supplied by the caller, and its two within-tolerance booleans
    [|total - expected| <= expected * toleranceRatio]. *)
Definition withinTolerance (total expected toleranceRatio : number) : bool :=
  le (abs (sub total expected)) (mul expected toleranceRatio).

Definition compareTotal_spec
    (displayed calculated expected toleranceRatio : number) : bool * bool :=
  (withinTolerance displayed expected toleranceRatio,
   withinTolerance calculated expected toleranceRatio).

(** The entry that the loop body of [validateCartContents] records for
    one expected item, given the items of the cart. *)
Definition entryFor (toLowerCase : jsstring -> jsstring)
    (cartItems : list product) (expected : product) : validationEntry :=
  match findMatchingItem toLowerCase cartItems expected with
  | Some matchingItem =>
      if priceMatch matchingItem expected then
        mkEntry expected (Some matchingItem) MATCH None
      else
        mkEntry expected (Some matchingItem) PRICE_MISMATCH
                (Some (priceMismatchMessage expected matchingItem))
  | None => mkEntry expected None NOT_FOUND (Some (notFoundMessage expected))
  end.

Definition isMatch (entry : validationEntry) : bool :=
  match status entry with MATCH => true | _ => false end.

(** [p] occurs in [s] as a contiguous run. *)
Definition substringOf (p s : jsstring) : Prop :=
  exists before after, s = before ++ p ++ after.

(* ===================================================================== *)
(** ** PriceHelper.validateAscendingOrder *)
(* ===================================================================== *)

(** The validator on a bare array of prices.  Its records share property
    names with the sort report, hence the module. *)
Module AscendingOrder.

Record priceViolation : Type := mkPriceViolation {
  index : nat;
  previousPrice : number;
  currentPrice : number;
  message : jsstring
}.

Record orderResult : Type := mkOrderResult {
  isValid : bool;
  violations : list priceViolation;
  totalProducts : nat;
  violationCount : nat
}.

Definition violationMessage (i : nat) (cur prev : number) : jsstring :=
  lit "Product at index " ++ natToString i ++ lit " has price " ++ [rupee]
  ++ toString cur ++ lit " which is less than previous product price "
  ++ [rupee] ++ toString prev.

(** The body of the loop at index [i], on the pair ([isValid],
    [violations]); the loop visits [1 <= i < prices.length]. *)
Definition orderLoopBody (prices : list number)
    (st : bool * list priceViolation) (i : nat) : bool * list priceViolation :=
  match prices !! i, prices !! (i - 1) with
  | Some cur, Some prev =>
      if lt cur prev then
        (false,
         snd st ++
         [ {| index := i;
              previousPrice := prev;
              currentPrice := cur;
              message := violationMessage i cur prev |} ])
      else st
  | _, _ => st
  end.

Definition validateAscendingOrder (prices : list number) : orderResult :=
  let '(isValid, violations) :=
    fold_left (orderLoopBody prices) (seq 1 (length prices - 1)) (true, []) in
  {| isValid := isValid;
     violations := violations;
     totalProducts := length prices;
     violationCount := length violations |}.

End AscendingOrder.

(* ===================================================================== *)
(** ** The scrapers of SearchResultsPage and CartPage *)
(* ===================================================================== *)

Module Scrape.

(** What [textContent()] gives for one element: the driver throws, or it
    returns [null] ([None]) or a string. *)
Inductive textRead : Type :=
| ReadThrows
| ReadText (t : option jsstring).

(** One product card, as the two locators inside it see it: the text of
    the title elements and of the price elements, in document order; or a
    card on which the driver throws. *)
Inductive card : Type :=
| CardThrows
| Card (titles prices : list (option jsstring)).

(** The object [{name, price, priceText}]: [name] and [price] are those
    of [item]. *)
Record listing : Type := mkListing {
  item : product;
  priceText : jsstring
}.

(** [t || ''] for a string or [null]. *)
Definition orEmpty (t : option jsstring) : jsstring :=
  match t with
  | Some s => s
  | None => []
  end.

Definition nonEmpty (s : jsstring) : bool :=
  match s with [] => false | _ :: _ => true end.

(** [s.trim()]: white space and line terminators are removed at both
    ends. *)
Definition trim (s : jsstring) : jsstring :=
  reverse (dropWhileWs (reverse (dropWhileWs s))).

(** [locator.count() > 0 ? locator.first().textContent() || '' : '']. *)
Definition firstText (els : list (option jsstring)) : jsstring :=
  match els with
  | [] => []
  | t :: _ => orEmpty t
  end.

(** The body of the loop of [getProductsWithPrices] for one card: what
    it pushes.  A throw anywhere in the [try] skips the card. *)
Definition productOfCard (c : card) : list listing :=
  match c with
  | CardThrows => []
  | Card titles prices =>
      let title := firstText titles in
      let priceText := firstText prices in
      if nonEmpty title && nonEmpty priceText then
        let price := extractPrice priceText in
        if lt zero price then
          [ {| item := mkProduct (substring0 50 (trim title)) price;
               priceText := trim priceText |} ]
        else []
      else []
  end.

Definition getProductsWithPrices (cards : list card) : list listing :=
  fold_left (fun products c => products ++ productOfCard c) cards [].

(** [getPricesOnly]: the text is handed to [extractPrice] as it is, and
    [null] takes its first return. *)
Definition priceOfElement (e : textRead) : list number :=
  match e with
  | ReadThrows => []
  | ReadText t =>
      let price := extractPrice (orEmpty t) in
      if lt zero price then [price] else []
  end.

Definition getPricesOnly (priceElements : list textRead) : list number :=
  fold_left (fun prices e => prices ++ priceOfElement e) priceElements [].

(** [areResultsDisplayed]: [prices.length > 0]. *)
Definition areResultsDisplayed (priceElements : list textRead) : bool :=
  Nat.ltb 0 (length (getPricesOnly priceElements)).

(** The body of the loop of [getCartItems] at index [i]: the price
    element of the same index is read when there is one
    ([i < priceElements.count()]), the price is 0 otherwise; the item is
    pushed when the name text is not empty. *)
Definition cartItemAt (nameElements priceElements : list textRead) (i : nat)
    : list listing :=
  match nameElements !! i with
  | Some (ReadText t) =>
      let name := orEmpty t in
      let priced :=
        match priceElements !! i with
        | Some ReadThrows => None
        | Some (ReadText pt) =>
            Some (extractPrice (orEmpty pt), orEmpty pt)
        | None => Some (zero, [])
        end in
      match priced with
      | Some (price, priceText) =>
          if nonEmpty name then
            [ {| item := mkProduct (substring0 50 (trim name)) price;
                 priceText := trim priceText |} ]
          else []
      | None => []
      end
  | _ => []
  end.

Definition getCartItems (nameElements priceElements : list textRead)
    : list listing :=
  fold_left
    (fun cartItems i => cartItems ++ cartItemAt nameElements priceElements i)
    (seq 0 (length nameElements)) [].

(** [calculateExpectedTotal] and [getCartItemCount]. *)
Definition calculateExpectedTotal (nameElements priceElements : list textRead)
    : number :=
  calculateTotal
    (map (fun l => price (item l)) (getCartItems nameElements priceElements)).

Definition getCartItemCount (nameElements priceElements : list textRead)
    : nat :=
  length (getCartItems nameElements priceElements).

Section Collect.

(** The browser, with the two operations [collectProductsFromPages]
    performs on it: reading the products of the current page, and
    [goToNextPage], which reports whether it navigated. *)
Variable browser : Type.
Variable productsOnPage : browser -> list listing.
Variable goToNextPage : browser -> bool * browser.

(** The loop [for (let page = 1; page <= pageLimit; page++)] with
    [remaining = pageLimit - page + 1] iterations to go. *)
Fixpoint collectLoop (remaining : nat) (b : browser)
    (allProducts : list listing) : list listing * browser :=
  match remaining with
  | O => (allProducts, b)
  | S remaining' =>
      let allProducts' := allProducts ++ productsOnPage b in
      match remaining' with
      | O => (allProducts', b)
      | S _ =>
          let '(navigated, b') := goToNextPage b in
          if navigated then collectLoop remaining' b' allProducts'
          else (allProducts', b')
      end
  end.

Definition collectProductsFromPages (pageLimit : nat) (b : browser)
    : list listing * browser :=
  collectLoop pageLimit b [].

End Collect.

(** A paginated result list: the pages from the current one on, each
    with its cards.  The Next link leads to the following page and is
    there exactly when a page follows. *)
Definition sitePages : Type := list (list card).

Definition siteProducts (site : sitePages) : list listing :=
  match site with
  | [] => []
  | cards :: _ => getProductsWithPrices cards
  end.

Definition siteNext (site : sitePages) : bool * sitePages :=
  match site with
  | _ :: (_ :: _) as rest => (true, rest)
  | _ => (false, site)
  end.

End Scrape.

(* ===================================================================== *)
(** ** The total check of the add-to-cart test *)
(* ===================================================================== *)

(** tests/addToCart.spec.js, step 8: the tolerance is 15% of the expected
    total, and one side within it is enough. *)
Definition isTotalValid (displayedTotal calculatedTotal expectedTotal : number)
    : bool :=
  let tolerance := mul expectedTotal (literal (15 # 100)) in
  le (abs (sub displayedTotal expectedTotal)) tolerance
  || le (abs (sub calculatedTotal expectedTotal)) tolerance.

(* ===================================================================== *)
(** ** The products recorded by the add-to-cart test *)
(* ===================================================================== *)

(** [ProductPage.getProductDetails]: each of the two reads is in a [try]
    of its own, so that a throw leaves the default ([''] and [0]); the
    locators give the elements in document order and the first one is
    read. *)
Definition getProductDetails (titleElements priceElements : list Scrape.textRead)
    : Scrape.listing :=
  let productName :=
    match titleElements with
    | Scrape.ReadText t :: _ => Scrape.orEmpty t
    | _ => []
    end in
  let '(productPrice, priceText) :=
    match priceElements with
    | Scrape.ReadText pt :: _ =>
        (extractPrice (Scrape.orEmpty pt), Scrape.orEmpty pt)
    | _ => (zero, [])
    end in
  {| Scrape.item := mkProduct (Scrape.trim productName) productPrice;
     Scrape.priceText := Scrape.trim priceText |}.

(** What one round of the loop over [testData.productsToAdd] leaves in
    [addedProducts]. *)
Inductive addedStep : Type :=
| Skipped
| TestThrows
| Added (p : product) (position : nat).

(** tests/addToCart.spec.js, step 5, for one 1-based [position]: nothing
    is recorded beyond the available products; [availableProducts[-1]] is
    [undefined] and reading its name throws; otherwise the product is
    recorded with its listing price, which is replaced by the price of the
    product page when that page was read ([details]) and shows a price
    above 0. *)
Definition recordAdded (availableProducts : list Scrape.listing)
    (position : nat)
    (details : option (list Scrape.textRead * list Scrape.textRead))
    : addedStep :=
  if position <=? length availableProducts then
    match position with
    | O => TestThrows
    | S i =>
        match availableProducts !! i with
        | Some productToAdd =>
            let listed := Scrape.item productToAdd in
            match details with
            | Some (titleElements, priceElements) =>
                let productDetails :=
                  getProductDetails titleElements priceElements in
                if lt zero (price (Scrape.item productDetails)) then
                  Added (mkProduct (name listed)
                           (price (Scrape.item productDetails))) position
                else Added listed position
            | None => Added listed position
            end
        | None => TestThrows
        end
    end
  else Skipped.

(* ===================================================================== *)
(** ** Further notions used in the statements *)
(* ===================================================================== *)

(** The violation that [validateAscendingOrder] records for the pair at
    indices [i - 1] and [i], if any. *)
Definition orderViolationAt (prices : list number) (i : nat)
    : list AscendingOrder.priceViolation :=
  match prices !! i, prices !! (i - 1) with
  | Some cur, Some prev =>
      if lt cur prev then
        [ AscendingOrder.mkPriceViolation i prev cur
            (AscendingOrder.violationMessage i cur prev) ]
      else []
  | _, _ => []
  end.

Definition isNil {A} (l : list A) : bool :=
  match l with [] => true | _ :: _ => false end.

(** The sum of a list of whole numbers. *)
Definition sumN (ns : list N) : N := fold_right N.add 0%N ns.

(** A number of the model that is a Number of the language: a finite one
    is a binary64 value, which rounding leaves as it is. *)
Definition binary64 (x : number) : Prop :=
  match x with
  | Fin q => round64 q = Fin q
  | _ => True
  end.

(** [Number.MIN_VALUE], the least positive Number. *)
Definition MIN_VALUE : number := Fin (pow2 (-1074)).

(** What a price read from a text can be: a whole number that is not
    negative, or Infinity. *)
Definition wholeOrInfinity (x : number) : Prop :=
  x = Infinity false \/ exists k : N, x = ofN k.

(** A string does not start with white space. *)
Definition noLeadingSpace (s : jsstring) : Prop :=
  match s with
  | [] => True
  | c :: _ => isWhiteSpace c = false
  end.

(** No price of the list is NaN. *)
Definition noNaN (prices : list number) : Prop :=
  Forall (fun x => isNaN x = false) prices.

(* ===================================================================== *)
(** ** Evaluation on concrete inputs *)
(* ===================================================================== *)

Example extractPrice_empty : extractPrice [] = ofZ 0.
Proof. reflexivity. Qed.

Example extractPrice_rupee : extractPrice (rupee :: lit "1,299") = ofZ 1299.
Proof. vm_compute. reflexivity. Qed.

Example extractPrice_rs : extractPrice (lit "Rs. 45.50") = ofZ 4550.
Proof. vm_compute. reflexivity. Qed.

Example extractPrice_noprice : extractPrice (lit "no price") = ofZ 0.
Proof. vm_compute. reflexivity. Qed.

Example parseFloat_frac : parseFloat (lit "  -45.50e1xyz") = Fin (-455 # 1).
Proof. vm_compute. reflexivity. Qed.

Example parseFloat_dot : parseFloat (lit ".") = NaN.
Proof. vm_compute. reflexivity. Qed.

Example parseFloat_two_dots : parseFloat (lit "1.2.3") = literal (6 # 5).
Proof. vm_compute. reflexivity. Qed.

Example toString_1299 : toString (ofZ 1299) = lit "1299".
Proof. vm_compute. reflexivity. Qed.

Example toString_frac : toString (Fin (91 # 2)) = lit "45.5".
Proof. vm_compute. reflexivity. Qed.

Example toString_small : toString (literal (1 # 8000)) = lit "0.000125".
Proof. vm_compute. reflexivity. Qed.

Example toString_tiny : toString (literal (-1 # 80000000)) = lit "-1.25e-8".
Proof. vm_compute. reflexivity. Qed.

Example toString_1e21 : toString (ofZ (10 ^ 21)) = lit "1e+21".
Proof. vm_compute. reflexivity. Qed.

Example toString_12e20 : toString (nearest (123 * 10 ^ 20)) = lit "1.23e+22".
Proof. vm_compute. reflexivity. Qed.

Example toString_1e20 : toString (ofZ (10 ^ 20)) = lit "100000000000000000000".
Proof. vm_compute. reflexivity. Qed.

Example formatPrice_lakh :
  formatPrice (literal (1234567891 # 1000)) = rupee :: lit "12,34,567.891".
Proof. vm_compute. reflexivity. Qed.

Example formatPrice_1299 : formatPrice (ofZ 1299) = rupee :: lit "1,299".
Proof. vm_compute. reflexivity. Qed.

Example formatPrice_999 : formatPrice (ofZ 999) = rupee :: lit "999".
Proof. vm_compute. reflexivity. Qed.

Example formatPrice_round : formatPrice (literal (19995 # 10000)) = rupee :: lit "2".
Proof. vm_compute. reflexivity. Qed.

Example formatPrice_frac : formatPrice (literal (4505 # 100)) = rupee :: lit "45.05".
Proof. vm_compute. reflexivity. Qed.

Example sortReport_ex :
  violationDetails
    (generateSortViolationReport [priced 100; priced 50; priced 200])
  = [ lit "Position 2: " ++ [34%N] ++ lit "item" ++ [34%N] ++ lit " ("
      ++ [rupee] ++ lit "50) < " ++ [34%N] ++ lit "item" ++ [34%N]
      ++ lit " (" ++ [rupee] ++ lit "100)" ].
Proof. vm_compute. reflexivity. Qed.

Example sortReport_ties :
  isCorrectlySorted (generateSortViolationReport [priced 50; priced 50]) = true.
Proof. vm_compute. reflexivity. Qed.

Example reconcile_match :
  validateCartContents asciiLower
    [mkProduct (lit "Nike Air Shoes Running") (ofZ 1550)]
    [mkProduct (lit "Nike Air Shoes") (ofZ 1500)]
  = {| passed := true;
       cartItems := [mkProduct (lit "Nike Air Shoes Running") (ofZ 1550)];
       expectedProducts := [mkProduct (lit "Nike Air Shoes") (ofZ 1500)];
       matches :=
         [ mkEntry (mkProduct (lit "Nike Air Shoes") (ofZ 1500))
             (Some (mkProduct (lit "Nike Air Shoes Running") (ofZ 1550)))
             MATCH None ];
       mismatches := [] |}.
Proof. vm_compute. reflexivity. Qed.

Example reconcile_not_found :
  let r := validateCartContents asciiLower
             [mkProduct (lit "Nike Air Shoes") (ofZ 1500)]
             [mkProduct (lit "Puma Sneakers") (ofZ 2000)] in
  passed r = false /\ map status (mismatches r) = [NOT_FOUND]
  /\ matches r = [].
Proof. vm_compute. repeat split; reflexivity. Qed.

Example reconcile_price_mismatch :
  let r := validateCartContents asciiLower
             [mkProduct (lit "nike air shoes") (ofZ 1700)]
             [mkProduct (lit "Nike Air Shoes") (ofZ 1500)] in
  passed r = false
  /\ map message (mismatches r)
     = [ Some (lit "Price mismatch: Expected " ++ [rupee] ++ lit "1500, Got "
               ++ [rupee] ++ lit "1700") ].
Proof. vm_compute. repeat split; reflexivity. Qed.

Example formatPrice_half :
  formatPrice (Fin (91 # 2)) = rupee :: lit "45.5"
  /\ extractPrice (formatPrice (Fin (91 # 2))) = ofZ 455.
Proof. vm_compute. split; reflexivity. Qed.

(** Rounding to binary64. *)
Example parseFloat_rounds :
  parseFloat (lit "9007199254740993") = ofZ 9007199254740992
  /\ parseFloat (lit "9007199254740995") = ofZ 9007199254740996
  /\ parseFloat (replicate 400 57%N) = Infinity false
  /\ parseFloat (lit "1e-400") = ofZ 0.
Proof. vm_compute. repeat split; reflexivity. Qed.

Example add_rounds :
  add (ofZ (2 ^ 53)) (ofZ 1) = ofZ (2 ^ 53)
  /\ toString (add (literal (1 # 10)) (literal (2 # 10)))
     = lit "0.30000000000000004"
  /\ toString (mul (ofZ 3) (literal (1 # 10))) = lit "0.30000000000000004"
  /\ mul (ofZ 1000) (literal (1 # 10)) = ofZ 100.
Proof. vm_compute. repeat split; reflexivity. Qed.

Example toString_shortest :
  toString (ofZ (2 ^ 60)) = lit "1152921504606847000"
  /\ toString (literal (1 # 10)) = lit "0.1"
  /\ toString (nearest (10 ^ 23)) = lit "1e+23"
  /\ toString (parseFloat (lit "5e-324")) = lit "5e-324"
  /\ toString (parseFloat (lit "1.7976931348623157e308"))
     = lit "1.7976931348623157e+308".
Proof. vm_compute. repeat split; reflexivity. Qed.

Example extractPrice_rounds :
  extractPrice (lit "9007199254740993") = ofZ 9007199254740992
  /\ extractPrice (replicate 21 57%N) = ofZ (10 ^ 21)
  /\ extractPrice (toString (extractPrice (replicate 21 57%N))) = ofZ 121
  /\ extractPrice (replicate 400 57%N) = Infinity false.
Proof. vm_compute. repeat split; reflexivity. Qed.

Example calculateTotal_rounds :
  calculateTotal [ofZ (2 ^ 53); ofZ 1] = ofZ (2 ^ 53).
Proof. vm_compute. reflexivity. Qed.

(** 13 against 14.444444444444445: the difference and the tolerance are
    the same binary64 value, where a tenth of 14.444444444444445 is below
    1.444444444444445. *)
Example validateTotal_rounds :
  let expected := literal (14444444444444445 # 10 ^ 15) in
  toString (abs (sub (ofZ 13) expected)) = lit "1.4444444444444446"
  /\ toString (mul expected (literal (1 # 10))) = lit "1.4444444444444446"
  /\ isDisplayedCorrect (validateTotal (ofZ 13) [] expected) = true.
Proof. vm_compute. repeat split; reflexivity. Qed.

Example formatPrice_large :
  formatPrice (ofZ (2 ^ 60)) = rupee :: lit "11,52,92,15,04,60,68,47,000".
Proof. vm_compute. reflexivity. Qed.

Example calculateTotal_ex :
  calculateTotal [ofZ 10; ofZ 20; ofZ 30] = ofZ 60 /\ calculateTotal [] = ofZ 0.
Proof. vm_compute. split; reflexivity. Qed.

(* ===================================================================== *)
(** ** Decimal digits *)
(* ===================================================================== *)

Section Digits.

Local Open Scope N_scope.

Lemma isDigit_spec c : isDigit c = true <-> 48 <= c <= 57.
Proof. unfold isDigit. rewrite andb_true_iff, !N.leb_le. tauto. Qed.

(** [lia] reads [N.div] and [N.modulo] as truncating operations on [Z];
    quotient and remainder by ten are abstracted first. *)
Ltac divmod10 n q r :=
  pose proof (N.div_mod n 10 ltac:(discriminate));
  pose proof (N.mod_lt n 10 ltac:(discriminate));
  set (q := n / 10) in *; set (r := n mod 10) in *;
  clearbody q r.

Lemma isDigit_digit n : isDigit (48 + n mod 10) = true.
Proof.
  apply isDigit_spec. divmod10 n q r. lia.
Qed.

Lemma size_nat_bound n : (Z.of_N n < 2 ^ Z.of_nat (N.size_nat n))%Z.
Proof.
  destruct n as [|p]; simpl; [lia|].
  apply Zpower2_Psize. lia.
Qed.

Lemma digitsFuel_value fuel : forall n acc,
  (Z.of_N n < 2 ^ Z.of_nat fuel)%Z ->
  fold_left digitStep (digitsFuel fuel n acc) 0 = fold_left digitStep acc n.
Proof.
  induction fuel as [|fuel IH]; intros n acc Hn.
  - simpl in *. assert (n = 0) as -> by lia. reflexivity.
  - cbn [digitsFuel].
    rewrite Nat2Z.inj_succ, Z.pow_succ_r in Hn by lia.
    destruct (N.eqb_spec (n / 10) 0) as [Hz|Hz].
    + cbn [fold_left]. f_equal. unfold digitStep. divmod10 n q r. lia.
    + rewrite IH.
      * cbn [fold_left]. f_equal. unfold digitStep. divmod10 n q r. lia.
      * divmod10 n q r. lia.
Qed.

Lemma digitsValue_decimalDigits n : digitsValue (decimalDigits n) = n.
Proof.
  unfold digitsValue, decimalDigits.
  rewrite digitsFuel_value; [reflexivity|].
  pose proof (size_nat_bound n).
  rewrite Nat2Z.inj_succ, Z.pow_succ_r by lia. lia.
Qed.

Lemma digitsFuel_Forall fuel : forall n acc,
  Forall (fun c => isDigit c = true) acc ->
  Forall (fun c => isDigit c = true) (digitsFuel fuel n acc).
Proof.
  induction fuel as [|fuel IH]; intros n acc Hacc; cbn [digitsFuel]; [done|].
  assert (Forall (fun c => isDigit c = true) ((48 + n mod 10) :: acc))
    by (constructor; [apply isDigit_digit | done]).
  destruct (n / 10 =? 0); auto.
Qed.

Lemma decimalDigits_Forall n :
  Forall (fun c => isDigit c = true) (decimalDigits n).
Proof. apply digitsFuel_Forall. constructor. Qed.

Lemma digitsFuel_length fuel : forall n acc,
  (length acc <= length (digitsFuel fuel n acc))%nat.
Proof.
  induction fuel as [|fuel IH]; intros n acc; cbn [digitsFuel]; [lia|].
  destruct (n / 10 =? 0); [simpl; lia|].
  etrans; [|apply IH]. simpl. lia.
Qed.

Lemma decimalDigits_nonempty n : decimalDigits n <> [].
Proof.
  unfold decimalDigits. cbn [digitsFuel]. intros H.
  destruct (n / 10 =? 0); [discriminate|].
  pose proof (digitsFuel_length (N.size_nat n) (n / 10) [48 + n mod 10]) as Hl.
  rewrite H in Hl. simpl in Hl. lia.
Qed.

(** A number below [10^d] has at most [d] digits. *)
Lemma digitsFuel_length_le fuel : forall n acc d,
  (0 < d)%nat -> n < 10 ^ N.of_nat d ->
  (length (digitsFuel fuel n acc) <= d + length acc)%nat.
Proof.
  induction fuel as [|fuel IH]; intros n acc d Hd Hn; cbn [digitsFuel]; [lia|].
  destruct (N.eqb_spec (n / 10) 0) as [Hz|Hz]; [simpl; lia|].
  destruct d as [|[|d]]; [lia| |].
  - exfalso. apply Hz. apply N.div_small. exact Hn.
  - specialize (IH (n / 10) ((48 + n mod 10) :: acc) (S d) ltac:(lia)).
    simpl length in IH. etrans; [apply IH|lia].
    apply N.Div0.div_lt_upper_bound.
    rewrite <- N.pow_succ_r'. rewrite <- Nat2N.inj_succ. exact Hn.
Qed.

Lemma decimalDigits_length_le n d :
  (0 < d)%nat -> n < 10 ^ N.of_nat d -> (length (decimalDigits n) <= d)%nat.
Proof.
  intros Hd Hn. unfold decimalDigits.
  pose proof (digitsFuel_length_le (S (N.size_nat n)) n [] d Hd Hn) as H.
  cbn [length] in H. lia.
Qed.

End Digits.

(* ===================================================================== *)
(** ** The number of digits of a whole number *)
(* ===================================================================== *)

Section DigitCount.

Local Open Scope N_scope.

Lemma digitsValue_from (ds : jsstring) : forall acc,
  fold_left digitStep ds acc
  = (acc * 10 ^ N.of_nat (length ds) + digitsValue ds)%N.
Proof.
  unfold digitsValue. induction ds as [|d ds IH]; intros acc.
  - cbn. lia.
  - cbn [fold_left length]. rewrite IH, (IH (digitStep 0 d)).
    rewrite Nat2N.inj_succ, N.pow_succ_r'. unfold digitStep. lia.
Qed.

Lemma digitsValue_app (a b : jsstring) :
  digitsValue (a ++ b)
  = digitsValue a * 10 ^ N.of_nat (length b) + digitsValue b.
Proof.
  unfold digitsValue at 1. rewrite fold_left_app. apply digitsValue_from.
Qed.

Lemma digitsValue_zeros (j : nat) : digitsValue (replicate j 48) = 0.
Proof.
  induction j as [|j IH]; [reflexivity|].
  change (replicate (S j) 48) with ([48] ++ replicate j 48).
  rewrite digitsValue_app, IH. reflexivity.
Qed.

Lemma digitsValue_pad (sd : jsstring) (j : nat) :
  digitsValue (sd ++ replicate j 48) = digitsValue sd * 10 ^ N.of_nat j.
Proof.
  rewrite digitsValue_app, digitsValue_zeros, length_replicate. lia.
Qed.

Lemma digitsValue_bound (ds : jsstring) :
  allDigits ds -> digitsValue ds < 10 ^ N.of_nat (length ds).
Proof.
  induction ds as [|c l IH] using rev_ind; intros H.
  - cbn. lia.
  - apply Forall_app in H as [Hl Hc]. apply Forall_inv in Hc.
    apply isDigit_spec in Hc. specialize (IH Hl).
    rewrite digitsValue_app, length_app. cbn [length].
    change (digitsValue [c]) with (10 * 0 + (c - 48)).
    replace (N.of_nat (length l + 1)) with (N.succ (N.of_nat (length l)))
      by lia.
    rewrite N.pow_succ_r'. change (10 ^ N.of_nat 1) with 10. lia.
Qed.

Lemma decimalDigits_bounds (n : N) :
  0 < n ->
  10 ^ (N.of_nat (length (decimalDigits n)) - 1) <= n
  /\ n < 10 ^ N.of_nat (length (decimalDigits n)).
Proof.
  intros Hn. split.
  - destruct (N.le_gt_cases (10 ^ (N.of_nat (length (decimalDigits n)) - 1)) n)
      as [H|H]; [exact H|exfalso].
    destruct (length (decimalDigits n)) as [|[|d]] eqn:El.
    + apply length_zero_iff_nil in El. exact (decimalDigits_nonempty n El).
    + change (10 ^ (N.of_nat 1 - 1)) with 1 in H. lia.
    + replace (N.of_nat (S (S d)) - 1) with (N.of_nat (S d)) in H by lia.
      pose proof (decimalDigits_length_le n (S d) ltac:(lia) H). lia.
  - pose proof (digitsValue_bound _ (decimalDigits_Forall n)) as H.
    rewrite digitsValue_decimalDigits in H. exact H.
Qed.

(** A number of [k] digits. *)
Lemma decimalDigits_length (n : N) (k : nat) :
  (0 < k)%nat -> 10 ^ (N.of_nat k - 1) <= n -> n < 10 ^ N.of_nat k ->
  length (decimalDigits n) = k.
Proof.
  intros Hk Hlo Hhi.
  assert (0 < n).
  { eapply N.lt_le_trans; [|exact Hlo].
    apply N.neq_0_lt_0, N.pow_nonzero. discriminate. }
  pose proof (decimalDigits_length_le n k Hk Hhi) as Hle.
  destruct (decimalDigits_bounds n ltac:(assumption)) as [_ Hup].
  destruct (Nat.eq_dec (length (decimalDigits n)) k) as [E|E]; [exact E|].
  exfalso.
  assert (10 ^ N.of_nat (length (decimalDigits n)) <= 10 ^ (N.of_nat k - 1)).
  { apply N.pow_le_mono_r; lia. }
  lia.
Qed.

End DigitCount.


(* ===================================================================== *)
(** ** Rounding to binary64 *)
(* ===================================================================== *)

Lemma Qred_inject_Z z : Qred (inject_Z z) = inject_Z z.
Proof. apply Qred_identity. apply Z.gcd_1_r. Qed.

Lemma Qred_eq_inject_Z q z : (q == inject_Z z)%Q -> Qred q = inject_Z z.
Proof. intros H. rewrite <- Qred_inject_Z. apply Qred_complete, H. Qed.

(** [round64] depends on the value of its argument only. *)
Lemma round64_Qeq (q r : Q) : (q == r)%Q -> round64 q = round64 r.
Proof. intros H. unfold round64. rewrite (Qred_complete _ _ H). reflexivity. Qed.

Section Rounding.

Local Open Scope Z_scope.

Lemma roundHalfEven_exact a d : 0 < d -> roundHalfEven (a * d) d = a.
Proof.
  intros Hd. unfold roundHalfEven.
  rewrite Z.div_mul, Z.mod_mul by lia.
  destruct (Z.ltb_spec (2 * 0) d); [reflexivity|lia].
Qed.

Lemma roundHalfEven_one a : roundHalfEven a 1 = a.
Proof.
  rewrite <- (Z.mul_1_r a) at 1. apply roundHalfEven_exact. lia.
Qed.

Lemma roundHalfEven_bounds num d a b :
  0 < d -> a * d <= num -> num < b * d ->
  a <= roundHalfEven num d <= b.
Proof.
  intros Hd Ha Hb. unfold roundHalfEven.
  assert (a <= num / d) by (apply Z.div_le_lower_bound; lia).
  assert (num / d < b) by (apply Z.div_lt_upper_bound; lia).
  repeat match goal with |- context [if ?c then _ else _] => destruct c end;
    lia.
Qed.

Lemma roundHalfEven_lt num d b :
  0 < d -> 0 <= num -> 2 * num < (2 * b - 1) * d -> roundHalfEven num d < b.
Proof.
  intros Hd Hn Hb. unfold roundHalfEven.
  pose proof (Z.div_mod num d ltac:(lia)) as Hdm.
  pose proof (Z.mod_pos_bound num d Hd) as Hr.
  set (q := num / d) in *. set (r := num mod d) in *. clearbody q r.
  repeat match goal with |- context [if ?c then _ else _] => destruct c eqn:? end;
    rewrite ?Z.ltb_lt, ?Z.ltb_ge in *; nia.
Qed.

Lemma roundHalfEven_ge num d b :
  0 < d -> Z.even b = true -> (2 * b - 1) * d <= 2 * num ->
  b <= roundHalfEven num d.
Proof.
  intros Hd Hev Hb. unfold roundHalfEven.
  pose proof (Z.div_mod num d ltac:(lia)) as Hdm.
  pose proof (Z.mod_pos_bound num d Hd) as Hr.
  set (q := num / d) in *. set (r := num mod d) in *. clearbody q r.
  assert (b - 1 <= q) as Hq by nia.
  destruct (Z.ltb_spec (2 * r) d) as [H1|H1]; [nia|].
  destruct (Z.ltb_spec d (2 * r)) as [H2|H2]; [lia|].
  destruct (Z.even q) eqn:Eq; [|lia].
  destruct (Z.eq_dec q (b - 1)) as [->|]; [|lia].
  replace b with (Z.succ (b - 1)) in Hev by lia.
  rewrite Z.even_succ, <- Z.negb_even, Eq in Hev. discriminate.
Qed.

Lemma floorLog2_one p : floorLog2 p 1 = Z.log2 (Z.pos p).
Proof.
  unfold floorLog2. change (Z.log2 1) with 0. rewrite Z.sub_0_r.
  pose proof (Z.log2_nonneg (Z.pos p)) as Hl.
  pose proof (Z.log2_spec (Z.pos p) ltac:(lia)) as [Hlo _].
  rewrite Z.max_l, Z.max_r by lia.
  destruct (Z.leb_spec (1 * 2 ^ Z.log2 (Z.pos p)) (Z.pos p * 2 ^ 0));
    [reflexivity|]. change (2 ^ 0) with 1 in *. lia.
Qed.

Lemma round64_pos p : round64 (inject_Z (Z.pos p)) = roundPositive p 1.
Proof. unfold round64. rewrite Qred_inject_Z. reflexivity. Qed.

(** Below [2^52] a whole number is a binary64 value. *)
Lemma roundPositive_small p :
  Z.log2 (Z.pos p) < 52 -> roundPositive p 1 = Fin (inject_Z (Z.pos p)).
Proof.
  intros HL. unfold roundPositive. rewrite floorLog2_one.
  pose proof (Z.log2_nonneg (Z.pos p)) as Hl.
  set (L := Z.log2 (Z.pos p)) in *.
  rewrite (Z.max_l (L - 52)) by lia.
  rewrite (Z.max_l (- (L - 52))), (Z.max_r (L - 52) 0) by lia.
  change (1 * 2 ^ 0) with 1. rewrite roundHalfEven_one.
  replace (- (L - 52)) with (52 - L) by lia.
  rewrite Z.log2_mul_pow2 by lia. fold L.
  destruct (Z.leb_spec 1024 (52 - L + L + (L - 52))); [lia|].
  f_equal. apply Qred_eq_inject_Z.
  unfold scale2. destruct (Z.leb_spec 0 (L - 52)); [lia|].
  replace (- (L - 52)) with (52 - L) by lia.
  unfold Qeq. cbn [Qnum Qden inject_Z].
  assert (0 < 2 ^ (52 - L)) by (apply Z.pow_pos_nonneg; lia).
  rewrite Z2Pos.id by lia. lia.
Qed.

(** From [2^52] on: the significand is the quotient by [2^e], rounded. *)
Lemma roundPositive_large p :
  52 <= Z.log2 (Z.pos p) ->
  let e := Z.log2 (Z.pos p) - 52 in
  let m := roundHalfEven (Z.pos p) (2 ^ e) in
  2 ^ 52 <= m <= 2 ^ 53
  /\ roundPositive p 1
     = if 1024 <=? Z.log2 m + e then Infinity false
       else Fin (inject_Z (m * 2 ^ e)).
Proof.
  intros HL e m.
  pose proof (Z.log2_spec (Z.pos p) ltac:(lia)) as [Hlo Hhi].
  assert (He : 0 <= e) by (unfold e; lia).
  assert (Hpe : 0 < 2 ^ e) by (apply Z.pow_pos_nonneg; lia).
  split.
  - apply roundHalfEven_bounds; [lia| |].
    + rewrite <- Z.pow_add_r by lia.
      replace (52 + e) with (Z.log2 (Z.pos p)) by (unfold e; lia). lia.
    + rewrite <- Z.pow_add_r by lia.
      replace (53 + e) with (Z.succ (Z.log2 (Z.pos p))) by (unfold e; lia).
      lia.
  - unfold roundPositive. rewrite floorLog2_one. fold e.
    rewrite (Z.max_l e) by lia.
    rewrite (Z.max_r (- e) 0), (Z.max_l e 0) by lia.
    change (2 ^ 0) with 1. rewrite Z.mul_1_r, Z.mul_1_l. fold m.
    destruct (1024 <=? Z.log2 m + e); [reflexivity|].
    f_equal. unfold scale2. destruct (Z.leb_spec 0 e); [|lia].
    apply Qred_inject_Z.
Qed.

End Rounding.

(** A whole number up to [2^53] is a binary64 value. *)
Lemma nearest_exact (n : N) : (n <= 2 ^ 53)%N -> nearest n = ofN n.
Proof.
  intros Hn. unfold nearest, ofN. destruct n as [|p]; [reflexivity|].
  cbn [Z.of_N]. rewrite round64_pos.
  destruct (Z.lt_ge_cases (Z.log2 (Z.pos p)) 52) as [Hs|Hl].
  { apply roundPositive_small, Hs. }
  destruct (roundPositive_large p Hl) as [_ ->].
  assert (Hp : (Z.pos p <= 2 ^ 53)%Z) by lia.
  destruct (Z.eq_dec (Z.pos p) (2 ^ 53)%Z) as [E|E].
  { injection E as ->. vm_compute. reflexivity. }
  assert (HL : Z.log2 (Z.pos p) = 52%Z).
  { apply Z.log2_unique; [lia|].
    pose proof (Z.log2_spec (Z.pos p) ltac:(lia)) as [Hlo _].
    split; [|change (Z.succ 52) with 53%Z; lia].
    etransitivity; [|exact Hlo]. apply Z.pow_le_mono_r; lia. }
  rewrite HL. change (52 - 52)%Z with 0%Z. change (2 ^ 0)%Z with 1%Z.
  rewrite roundHalfEven_one, HL, Z.mul_1_r. reflexivity.
Qed.

(** The rounding of a whole number is an infinity or a whole number
    that is a binary64 value. *)
Lemma nearest_cases (n : N) :
  nearest n = Infinity false
  \/ exists v : N, nearest n = ofN v /\ nearest v = ofN v
                   /\ ((0 < n)%N -> (0 < v)%N).
Proof.
  destruct (N.le_gt_cases n (2 ^ 53)) as [Hs|Hl].
  { right. exists n. rewrite (nearest_exact n Hs). tauto. }
  destruct n as [|p]; [done|].
  assert (HL : (52 <= Z.log2 (Z.pos p))%Z).
  { apply Z.log2_le_pow2; lia. }
  assert (Hr : nearest (N.pos p) = roundPositive p 1) by apply round64_pos.
  rewrite Hr. clear Hr.
  destruct (roundPositive_large p HL) as [Hm ->].
  set (e := (Z.log2 (Z.pos p) - 52)%Z) in *.
  set (m := roundHalfEven (Z.pos p) (2 ^ e)) in *.
  destruct (Z.leb_spec 1024 (Z.log2 m + e)) as [Hov|Hov]; [left; reflexivity|].
  right. exists (Z.to_N (m * 2 ^ e)).
  assert (He : (0 <= e)%Z) by (unfold e; lia).
  assert (Hpe : (0 < 2 ^ e)%Z) by (apply Z.pow_pos_nonneg; lia).
  assert (Hv : (0 < m * 2 ^ e)%Z) by nia.
  unfold ofN. rewrite Z2N.id by lia. split; [reflexivity|].
  split; [|lia].
  unfold nearest. rewrite Z2N.id by lia.
  destruct (m * 2 ^ e)%Z as [|v|v] eqn:Ev; [lia| |lia].
  rewrite round64_pos.
  destruct (Z.eq_dec m (2 ^ 53)%Z) as [E|E].
  - (* the significand was rounded up to the next binade *)
    assert (Hv' : Z.pos v = (2 ^ (53 + e))%Z).
    { rewrite <- Ev, E, Z.pow_add_r by lia. reflexivity. }
    assert (HLv : Z.log2 (Z.pos v) = (53 + e)%Z).
    { rewrite Hv'. apply Z.log2_pow2. lia. }
    destruct (roundPositive_large v ltac:(lia)) as [_ ->].
    rewrite HLv. replace (53 + e - 52)%Z with (e + 1)%Z by lia.
    replace (Z.pos v) with (2 ^ 52 * 2 ^ (e + 1))%Z.
    2:{ rewrite Hv', <- Z.pow_add_r by lia. f_equal. lia. }
    rewrite roundHalfEven_exact by (apply Z.pow_pos_nonneg; lia).
    rewrite Z.log2_pow2 by lia.
    rewrite E, Z.log2_pow2 in Hov by lia.
    destruct (Z.leb_spec 1024 (52 + (e + 1))); [lia|]. reflexivity.
  - assert (Hm52 : Z.log2 m = 52%Z).
    { apply Z.log2_unique; [lia|]. change (Z.succ 52) with 53%Z. lia. }
    assert (HLv : Z.log2 (Z.pos v) = (e + 52)%Z).
    { rewrite <- Ev, Z.log2_mul_pow2 by lia. lia. }
    destruct (roundPositive_large v ltac:(lia)) as [_ ->].
    rewrite HLv. replace (e + 52 - 52)%Z with e by lia.
    rewrite <- Ev, roundHalfEven_exact by lia. rewrite Hm52.
    destruct (Z.leb_spec 1024 (52 + e)); [lia|]. reflexivity.
Qed.

(** The rounding of a whole number is finite below [2^1024 - 2^970],
    and there only. *)
Lemma nearest_finite_iff (n : N) :
  (n < 2 ^ 1024 - 2 ^ 970)%N <-> exists k : N, nearest n = ofN k.
Proof.
  destruct (N.le_gt_cases n (2 ^ 53)) as [Hs|Hl].
  { rewrite (nearest_exact n Hs). split; [eauto|]. intros _.
    eapply N.le_lt_trans; [exact Hs|]. vm_compute. reflexivity. }
  destruct n as [|p]; [done|].
  assert (HL : (52 <= Z.log2 (Z.pos p))%Z) by (apply Z.log2_le_pow2; lia).
  assert (Hr : nearest (N.pos p) = roundPositive p 1) by apply round64_pos.
  rewrite Hr. clear Hr.
  destruct (roundPositive_large p HL) as [Hm ->].
  pose proof (Z.log2_spec (Z.pos p) ltac:(lia)) as [Hlo Hhi].
  set (L := Z.log2 (Z.pos p)) in *.
  set (m := roundHalfEven (Z.pos p) (2 ^ (L - 52))) in *.
  assert (Hp52 : (0 < 2 ^ (L - 52))%Z) by (apply Z.pow_pos_nonneg; lia).
  assert (HT : Z.of_N (2 ^ 1024 - 2 ^ 970) = (2 ^ 1024 - 2 ^ 970)%Z)
    by (vm_compute; reflexivity).
  assert (H1024 : (2 ^ 1024 = 2 ^ 53 * 2 ^ 971)%Z) by (vm_compute; reflexivity).
  assert (H970 : (2 ^ 971 = 2 * 2 ^ 970)%Z) by (vm_compute; reflexivity).
  assert (H970p : (0 < 2 ^ 970)%Z) by (vm_compute; reflexivity).
  assert (Hlm : (52 <= Z.log2 m <= 53)%Z).
  { split; [apply Z.log2_le_pow2; lia|].
    change 53%Z with (Z.log2 (2 ^ 53)). apply Z.log2_le_mono. lia. }
  split.
  - intros Hn. apply N2Z.inj_lt in Hn. rewrite HT in Hn. cbn [Z.of_N] in Hn.
    assert (L <= 1023)%Z as HL'.
    { destruct (Z.le_gt_cases L 1023) as [H|H]; [exact H|exfalso].
      assert (2 ^ 1024 <= 2 ^ L)%Z by (apply Z.pow_le_mono_r; lia). lia. }
    destruct (Z.leb_spec 1024 (Z.log2 m + (L - 52))) as [Hov|Hov].
    2:{ exists (Z.to_N (m * 2 ^ (L - 52))). unfold ofN.
        rewrite Z2N.id by nia. reflexivity. }
    exfalso. assert (L = 1023%Z) as EL by lia.
    assert (m < 2 ^ 53)%Z as Hm53.
    { apply roundHalfEven_lt; [exact Hp52|lia|].
      rewrite EL. change (1023 - 52)%Z with 971%Z.
      set (P := (2 ^ 970)%Z) in *. set (Q := (2 ^ 971)%Z) in *.
      set (R := (2 ^ 53)%Z) in *. clearbody P Q R. nia. }
    assert (Z.log2 m = 52%Z)
      by (apply Z.log2_unique; [lia|change (Z.succ 52) with 53%Z; lia]).
    lia.
  - intros [k Hk].
    destruct (Z.leb_spec 1024 (Z.log2 m + (L - 52))) as [Hov|Hov];
      [discriminate|].
    apply N2Z.inj_lt. rewrite HT. cbn [Z.of_N].
    destruct (Z.lt_ge_cases (Z.pos p) (2 ^ 1024 - 2 ^ 970)) as [H|H];
      [exact H|exfalso].
    assert (1023 <= L)%Z as HL'.
    { destruct (Z.le_gt_cases 1023 L) as [H'|H']; [exact H'|exfalso].
      assert (2 ^ Z.succ L <= 2 ^ 1023)%Z by (apply Z.pow_le_mono_r; lia).
      assert (2 ^ 1023 < 2 ^ 1024 - 2 ^ 970)%Z by (vm_compute; reflexivity).
      lia. }
    assert (L = 1023%Z) as EL by lia.
    assert (2 ^ 53 <= m)%Z as Hm53.
    { apply roundHalfEven_ge; [exact Hp52|reflexivity|].
      rewrite EL. change (1023 - 52)%Z with 971%Z.
      set (P := (2 ^ 970)%Z) in *. set (Q := (2 ^ 971)%Z) in *.
      set (R := (2 ^ 53)%Z) in *. clearbody P Q R. nia. }
    assert (Z.log2 m = 53%Z).
    { replace m with (2 ^ 53)%Z by lia. reflexivity. }
    lia.
Qed.

(* ===================================================================== *)
(** ** Rounding of rationals *)
(* ===================================================================== *)

Section Powers.

Local Open Scope Q_scope.

Lemma pow2_pos (e : Z) : 0 < pow2 e.
Proof. apply Qpower_0_lt. reflexivity. Qed.

Lemma pow2_add (a b : Z) : pow2 (a + b) == pow2 a * pow2 b.
Proof. apply Qpower_plus. discriminate. Qed.

Lemma pow2_Z (j : Z) : (0 <= j)%Z -> pow2 j == inject_Z (2 ^ j).
Proof. intros H. symmetry. apply (Zpower_Qpower 2 j H). Qed.

Lemma pow2_inv (e : Z) : pow2 e * pow2 (- e) == 1.
Proof.
  rewrite <- pow2_add. replace (e + - e)%Z with 0%Z by lia. reflexivity.
Qed.

Lemma pow2_le (a b : Z) : (a <= b)%Z -> pow2 a <= pow2 b.
Proof.
  intros H. replace b with (a + (b - a))%Z by lia.
  rewrite pow2_add, (pow2_Z (b - a)) by lia.
  assert (1 <= 2 ^ (b - a))%Z as H1
    by (pose proof (Z.pow_pos_nonneg 2 (b - a)); lia).
  rewrite Zle_Qle in H1. pose proof (pow2_pos a).
  change (inject_Z 1) with 1 in H1. nra.
Qed.

Lemma pow2_lt (a b : Z) : (a < b)%Z -> pow2 a < pow2 b.
Proof.
  intros H. replace b with (a + (b - a))%Z by lia.
  rewrite pow2_add, (pow2_Z (b - a)) by lia.
  assert (1 < 2 ^ (b - a))%Z as H1
    by (apply Z.pow_gt_1; lia).
  rewrite Zlt_Qlt in H1. pose proof (pow2_pos a).
  change (inject_Z 1) with 1 in H1. nra.
Qed.

Lemma pow2_lt_inv (a b : Z) : pow2 a < pow2 b -> (a < b)%Z.
Proof.
  intros H. destruct (Z.lt_ge_cases a b) as [|Hge]; [assumption|].
  apply pow2_le in Hge. lra.
Qed.

Lemma pow2_le_inv (a b : Z) : pow2 a <= pow2 b -> (a <= b)%Z.
Proof.
  intros H. destruct (Z.le_gt_cases a b) as [|Hgt]; [assumption|].
  apply pow2_lt in Hgt. lra.
Qed.

Lemma scale2_pow2 (m e : Z) : scale2 m e == inject_Z m * pow2 e.
Proof.
  unfold scale2. destruct (Z.leb_spec 0 e) as [He|He].
  - rewrite inject_Z_mult, pow2_Z by lia. reflexivity.
  - assert (0 < 2 ^ (- e))%Z as Hp by (apply Z.pow_pos_nonneg; lia).
    rewrite Qmake_Qdiv, Z2Pos.id by lia.
    rewrite <- pow2_Z by lia.
    pose proof (pow2_inv e) as Hi. pose proof (pow2_pos (- e)) as Hpos.
    unfold Qdiv. apply Qmult_comp; [reflexivity|].
    rewrite <- (Qmult_1_l (/ pow2 (- e))), <- Hi, <- Qmult_assoc.
    rewrite Qmult_inv_r by lra. ring.
Qed.

(** Comparisons of [a * 2^e] with [b], on integers. *)
Lemma scaleZ_le (e a b : Z) :
  (a * 2 ^ Z.max e 0 <= b * 2 ^ Z.max (- e) 0)%Z
  <-> inject_Z a * pow2 e <= inject_Z b.
Proof.
  destruct (Z.leb_spec 0 e) as [He|He].
  - rewrite Z.max_l, Z.max_r by lia. change (2 ^ 0)%Z with 1%Z.
    rewrite Z.mul_1_r, Zle_Qle, inject_Z_mult, <- pow2_Z by lia.
    reflexivity.
  - rewrite Z.max_r, Z.max_l by lia. change (2 ^ 0)%Z with 1%Z.
    rewrite Z.mul_1_r, Zle_Qle, inject_Z_mult, <- pow2_Z by lia.
    pose proof (pow2_inv e) as Hi. pose proof (pow2_pos (- e)).
    pose proof (pow2_pos e).
    set (X := pow2 e) in *. set (Y := pow2 (- e)) in *.
    set (A := inject_Z a). set (B := inject_Z b).
    split; intros H1.
    + assert (A * X <= B * Y * X) by nra.
      assert (B * Y * X == B) as HB by (rewrite <- Qmult_assoc, (Qmult_comm Y), Hi; ring).
      lra.
    + assert (A * X * Y <= B * Y) by nra.
      assert (A * X * Y == A) as HA by (rewrite <- Qmult_assoc, Hi; ring).
      lra.
Qed.

Lemma scaleZ_lt (e a b : Z) :
  (a * 2 ^ Z.max e 0 < b * 2 ^ Z.max (- e) 0)%Z
  <-> inject_Z a * pow2 e < inject_Z b.
Proof.
  destruct (Z.leb_spec 0 e) as [He|He].
  - rewrite Z.max_l, Z.max_r by lia. change (2 ^ 0)%Z with 1%Z.
    rewrite Z.mul_1_r, Zlt_Qlt, inject_Z_mult, <- pow2_Z by lia.
    reflexivity.
  - rewrite Z.max_r, Z.max_l by lia. change (2 ^ 0)%Z with 1%Z.
    rewrite Z.mul_1_r, Zlt_Qlt, inject_Z_mult, <- pow2_Z by lia.
    pose proof (pow2_inv e) as Hi. pose proof (pow2_pos (- e)).
    pose proof (pow2_pos e).
    set (X := pow2 e) in *. set (Y := pow2 (- e)) in *.
    set (A := inject_Z a). set (B := inject_Z b).
    split; intros H1.
    + assert (A * X < B * Y * X) by nra.
      assert (B * Y * X == B) as HB by (rewrite <- Qmult_assoc, (Qmult_comm Y), Hi; ring).
      lra.
    + assert (A * X * Y < B * Y) by nra.
      assert (A * X * Y == A) as HA by (rewrite <- Qmult_assoc, Hi; ring).
      lra.
Qed.

End Powers.

Section RoundPositive.

Local Open Scope Q_scope.

Lemma log2_pow2_bounds (m : Z) :
  (0 < m)%Z ->
  pow2 (Z.log2 m) <= inject_Z m /\ inject_Z m < pow2 (Z.log2 m + 1).
Proof.
  intros Hm. destruct (Z.log2_spec m Hm) as [Hlo Hhi].
  pose proof (Z.log2_nonneg m).
  rewrite !pow2_Z by lia. rewrite <- Zle_Qle, <- Zlt_Qlt.
  split; [exact Hlo|]. replace (Z.log2 m + 1)%Z with (Z.succ (Z.log2 m)) by lia.
  exact Hhi.
Qed.

(** [2^L <= p / d < 2^(L+1)] for [L = floorLog2 p d]. *)
Lemma floorLog2_spec (p d : positive) :
  pow2 (floorLog2 p d) * inject_Z (Z.pos d) <= inject_Z (Z.pos p)
  /\ inject_Z (Z.pos p) < pow2 (floorLog2 p d + 1) * inject_Z (Z.pos d).
Proof.
  unfold floorLog2.
  destruct (log2_pow2_bounds (Z.pos p) ltac:(lia)) as [Hpa Hpb].
  destruct (log2_pow2_bounds (Z.pos d) ltac:(lia)) as [Hda Hdb].
  set (a := Z.log2 (Z.pos p)) in *. set (b := Z.log2 (Z.pos d)) in *.
  set (P := inject_Z (Z.pos p)) in *. set (D := inject_Z (Z.pos d)) in *.
  destruct (Z.leb_spec (Z.pos d * 2 ^ Z.max (a - b) 0)
                       (Z.pos p * 2 ^ Z.max (- (a - b)) 0)) as [T|T].
  - apply scaleZ_le in T. fold P D in T. split; [lra|].
    replace (a + 1)%Z with (a - b + 1 + b)%Z in Hpb by lia.
    rewrite pow2_add in Hpb. pose proof (pow2_pos (a - b + 1)).
    set (X := pow2 (a - b + 1)) in *. set (Y := pow2 b) in *. nra.
  - replace (Z.max (a - b) 0) with (Z.max (- - (a - b)) 0) in T
      by (rewrite Z.opp_involutive; reflexivity).
    apply scaleZ_lt in T. fold P D in T.
    pose proof (pow2_inv (a - b)) as Hi.
    pose proof (pow2_pos (a - b)). pose proof (pow2_pos (- (a - b))).
    replace (a - b - 1 + 1)%Z with (a - b)%Z by lia.
    split.
    + replace a with (a - b - 1 + (b + 1))%Z in Hpa at 1 by lia.
      rewrite pow2_add in Hpa. pose proof (pow2_pos (a - b - 1)).
      set (X := pow2 (a - b - 1)) in *. set (Y := pow2 (b + 1)) in *. nra.
    + set (X := pow2 (a - b)) in *. set (Y := pow2 (- (a - b))) in *.
      assert (P * Y * X < D * X) by nra.
      assert (P * Y * X == P) as HP
        by (rewrite <- Qmult_assoc, (Qmult_comm Y), Hi; ring).
      lra.
Qed.

Lemma floorLog2_unique (p d : positive) (L : Z) :
  pow2 L * inject_Z (Z.pos d) <= inject_Z (Z.pos p) ->
  inject_Z (Z.pos p) < pow2 (L + 1) * inject_Z (Z.pos d) ->
  floorLog2 p d = L.
Proof.
  intros Hlo Hhi. destruct (floorLog2_spec p d) as [Hlo' Hhi'].
  assert (0 < inject_Z (Z.pos d)) as Hd
    by (change 0 with (inject_Z 0); rewrite <- Zlt_Qlt; lia).
  set (D := inject_Z (Z.pos d)) in *. set (P := inject_Z (Z.pos p)) in *.
  assert (pow2 L < pow2 (floorLog2 p d + 1)) as H1 by nra.
  assert (pow2 (floorLog2 p d) < pow2 (L + 1)) as H2 by nra.
  apply pow2_lt_inv in H1, H2. lia.
Qed.

Lemma floorLog2_mono (p d p' d' : positive) :
  Z.pos p # d <= Z.pos p' # d' -> (floorLog2 p d <= floorLog2 p' d')%Z.
Proof.
  intros H. unfold Qle in H. cbn [Qnum Qden] in H.
  destruct (floorLog2_spec p d) as [Hlo _].
  destruct (floorLog2_spec p' d') as [_ Hhi].
  rewrite Zle_Qle, !inject_Z_mult in H.
  assert (0 < inject_Z (Z.pos d)) as Hd
    by (change 0 with (inject_Z 0); rewrite <- Zlt_Qlt; lia).
  assert (0 < inject_Z (Z.pos d')) as Hd'
    by (change 0 with (inject_Z 0); rewrite <- Zlt_Qlt; lia).
  set (D := inject_Z (Z.pos d)) in *. set (P := inject_Z (Z.pos p)) in *.
  set (D' := inject_Z (Z.pos d')) in *. set (P' := inject_Z (Z.pos p')) in *.
  pose proof (pow2_pos (floorLog2 p d)).
  pose proof (pow2_pos (floorLog2 p' d' + 1)).
  set (X := pow2 (floorLog2 p d)) in *.
  set (Y := pow2 (floorLog2 p' d' + 1)) in *.
  assert (X < Y) as HXY.
  { destruct (Qlt_le_dec X Y) as [|Hge]; [assumption|exfalso].
    assert (X * D * D' <= P * D') by nra.
    assert (P' * D < Y * D' * D) by nra.
    assert (0 < D * D') as HDD by nra.
    set (DD := D * D') in *.
    assert (Y * DD <= X * DD) by nra.
    assert (Y * D' * D == Y * DD) as E1 by (unfold DD; ring).
    assert (X * D * D' == X * DD) as E2 by (unfold DD; ring).
    lra. }
  apply pow2_lt_inv in HXY. lia.
Qed.

End RoundPositive.

Section Significand.

Local Open Scope Z_scope.

Lemma roundHalfEven_mono n1 d1 n2 d2 :
  0 < d1 -> 0 < d2 -> n1 * d2 <= n2 * d1 ->
  roundHalfEven n1 d1 <= roundHalfEven n2 d2.
Proof.
  intros Hd1 Hd2 H. unfold roundHalfEven.
  pose proof (Z.div_mod n1 d1 ltac:(lia)) as E1.
  pose proof (Z.mod_pos_bound n1 d1 Hd1) as R1.
  pose proof (Z.div_mod n2 d2 ltac:(lia)) as E2.
  pose proof (Z.mod_pos_bound n2 d2 Hd2) as R2.
  set (q1 := n1 / d1) in *. set (r1 := n1 mod d1) in *.
  set (q2 := n2 / d2) in *. set (r2 := n2 mod d2) in *.
  clearbody q1 r1 q2 r2. subst n1 n2.
  assert (0 < d1 * d2) as Hdd by nia.
  assert (r2 * d1 < d1 * d2) as Hr2 by nia.
  assert (0 <= r1 * d2) as Hr1 by nia.
  assert (q1 <= q2) as Hq.
  { destruct (Z.le_gt_cases q1 q2) as [|Hgt]; [assumption|exfalso].
    assert (d1 * d2 * (q2 + 1) <= d1 * d2 * q1) by (apply Z.mul_le_mono_nonneg_l; lia).
    nia. }
  destruct (Z.eq_dec q1 q2) as [->|Hne].
  - assert (r1 * d2 <= r2 * d1) as Hr by nia.
    destruct (Z.ltb_spec (2 * r1) d1), (Z.ltb_spec (2 * r2) d2),
      (Z.ltb_spec d1 (2 * r1)), (Z.ltb_spec d2 (2 * r2)),
      (Z.even q2); try lia; nia.
  - repeat match goal with
           | |- context [if ?c then _ else _] => destruct c
           end; lia.
Qed.

Lemma roundHalfEven_nonneg num d : 0 < d -> 0 <= num -> 0 <= roundHalfEven num d.
Proof.
  intros Hd Hn. apply (roundHalfEven_bounds num d 0 (num + 1)); nia.
Qed.

End Significand.

Section RoundValue.

Local Open Scope Q_scope.

(** The exponent and the significand that [roundPositive] works with. *)
Lemma roundPositive_unfold (p d : positive) :
  roundPositive p d
  = let E := Z.max (floorLog2 p d - 52) (-1074) in
    let m := roundHalfEven (Z.pos p * 2 ^ Z.max (- E) 0)
                           (Z.pos d * 2 ^ Z.max E 0) in
    if (1024 <=? Z.log2 m + E)%Z then Infinity false
    else Fin (Qred (scale2 m E)).
Proof. reflexivity. Qed.

Lemma denominator_pos (d : positive) (E : Z) :
  (0 < Z.pos d * 2 ^ Z.max E 0)%Z.
Proof.
  apply Z.mul_pos_pos; [lia|]. apply Z.pow_pos_nonneg; lia.
Qed.

(** [a <= p / d / 2^E] and [p / d / 2^E < b] on the integers handed to
    [roundHalfEven]. *)
Lemma numerator_ge (p d : positive) (E a : Z) :
  (a * (Z.pos d * 2 ^ Z.max E 0) <= Z.pos p * 2 ^ Z.max (- E) 0)%Z
  <-> inject_Z a * pow2 E * inject_Z (Z.pos d) <= inject_Z (Z.pos p).
Proof.
  rewrite Z.mul_assoc, scaleZ_le, inject_Z_mult.
  split; intros H; [|]; lra.
Qed.

Lemma numerator_lt (p d : positive) (E b : Z) :
  (Z.pos p * 2 ^ Z.max (- E) 0 < b * (Z.pos d * 2 ^ Z.max E 0))%Z
  <-> inject_Z (Z.pos p) < inject_Z b * pow2 E * inject_Z (Z.pos d).
Proof.
  rewrite Z.mul_assoc.
  replace (Z.max E 0) with (Z.max (- - E) 0)
    by (rewrite Z.opp_involutive; reflexivity).
  rewrite scaleZ_lt, inject_Z_mult.
  pose proof (pow2_inv E) as Hi. pose proof (pow2_pos E).
  pose proof (pow2_pos (- E)).
  set (X := pow2 E) in *. set (Y := pow2 (- E)) in *.
  set (P := inject_Z (Z.pos p)). set (B := inject_Z b).
  set (D := inject_Z (Z.pos d)).
  split; intros H1.
  - assert (P * Y * X < B * D * X) by nra.
    assert (P * Y * X == P) as HP
      by (rewrite <- Qmult_assoc, (Qmult_comm Y), Hi; ring).
    lra.
  - assert (P * Y < B * X * D * Y) by nra.
    assert (B * X * D * Y == B * D) as HB.
    { transitivity (B * D * (X * Y)); [ring|]. rewrite Hi. ring. }
    lra.
Qed.

Lemma inject_pos (d : positive) : 0 < inject_Z (Z.pos d).
Proof. change 0 with (inject_Z 0). rewrite <- Zlt_Qlt. lia. Qed.

(** The significand is at most [2^53], and at least [2^52] unless the
    number is subnormal. *)
Lemma significand_bounds (p d : positive) :
  let E := Z.max (floorLog2 p d - 52) (-1074) in
  let m := roundHalfEven (Z.pos p * 2 ^ Z.max (- E) 0)
                         (Z.pos d * 2 ^ Z.max E 0) in
  (0 <= m <= 2 ^ 53)%Z
  /\ ((2 ^ 52 <= m)%Z \/ ((E = -1074)%Z /\ (floorLog2 p d - 52 < -1074)%Z)).
Proof.
  intros E m.
  destruct (floorLog2_spec p d) as [Hlo Hhi].
  pose proof (inject_pos d) as HD.
  pose proof (denominator_pos d E) as Hden.
  assert (Z.pos p * 2 ^ Z.max (- E) 0
          < 2 ^ 53 * (Z.pos d * 2 ^ Z.max E 0))%Z as Hup.
  { apply numerator_lt.
    rewrite <- (pow2_Z 53), <- pow2_add by lia.
    assert (pow2 (floorLog2 p d + 1) <= pow2 (53 + E))
      by (apply pow2_le; unfold E; lia).
    set (X := pow2 (floorLog2 p d + 1)) in *. set (Y := pow2 (53 + E)) in *.
    set (D := inject_Z (Z.pos d)) in *. nra. }
  split.
  - apply roundHalfEven_bounds; [exact Hden| |exact Hup].
    assert (0 <= 2 ^ Z.max (- E) 0)%Z by (apply Z.pow_nonneg; lia). nia.
  - destruct (Z.le_gt_cases (-1074) (floorLog2 p d - 52)) as [Hn|Hs].
    + left. apply roundHalfEven_bounds with (b := (2 ^ 53)%Z);
        [exact Hden| |exact Hup].
      apply numerator_ge.
      rewrite <- (pow2_Z 52), <- pow2_add by lia.
      replace (52 + E)%Z with (floorLog2 p d) by (unfold E; lia).
      exact Hlo.
    + right. unfold E. lia.
Qed.

(** The overflow test is [2^1024 <= m * 2^E]. *)
Lemma overflow_iff (m E : Z) :
  (0 < m)%Z ->
  (1024 <= Z.log2 m + E)%Z <-> pow2 1024 <= inject_Z m * pow2 E.
Proof.
  intros Hm. destruct (log2_pow2_bounds m Hm) as [Hlo Hhi].
  pose proof (pow2_pos E) as HE. split.
  - intros H. apply pow2_le in H. rewrite pow2_add in H.
    set (X := pow2 (Z.log2 m)) in *. set (Y := pow2 E) in *.
    set (M := inject_Z m) in *. nra.
  - intros H.
    assert (pow2 1024 < pow2 (Z.log2 m + 1 + E)) as H1.
    { rewrite pow2_add.
      set (X := pow2 (Z.log2 m + 1)) in *. set (Y := pow2 E) in *.
      set (M := inject_Z m) in *. nra. }
    apply pow2_lt_inv in H1. lia.
Qed.

End RoundValue.

Section Monotone.

Local Open Scope Q_scope.

Lemma le_trans_number (x y z : number) :
  le x y = true -> le y z = true -> le x z = true.
Proof.
  destruct x as [|[]|a], y as [|[]|b], z as [|[]|c]; cbn; try done.
  rewrite !Qle_bool_iff. apply Qle_trans.
Qed.

Lemma le_neg (x y : number) :
  le x y = true -> le (neg y) (neg x) = true.
Proof.
  destruct x as [|[]|a], y as [|[]|b]; cbn; try done.
  rewrite !Qle_bool_iff, !Qred_correct. intros H. lra.
Qed.

(** The order of two results of [roundPositive] is that of the values
    [m * 2^E]. *)
Lemma le_results (m E m' E' : Z) :
  (0 <= m)%Z -> (0 <= m')%Z ->
  (m = 0 -> E < 1024)%Z -> (m' = 0 -> E' < 1024)%Z ->
  inject_Z m * pow2 E <= inject_Z m' * pow2 E' ->
  le (if (1024 <=? Z.log2 m + E)%Z then Infinity false
      else Fin (Qred (scale2 m E)))
     (if (1024 <=? Z.log2 m' + E')%Z then Infinity false
      else Fin (Qred (scale2 m' E'))) = true.
Proof.
  intros Hm Hm' Hz Hz' Hv.
  destruct (Z.leb_spec 1024 (Z.log2 m' + E')) as [Hf'|Hf'].
  { destruct (1024 <=? Z.log2 m + E)%Z; reflexivity. }
  destruct (Z.leb_spec 1024 (Z.log2 m + E)) as [Hf|Hf].
  - exfalso.
    assert (0 < m)%Z as Hpos.
    { destruct (Z.eq_dec m 0%Z) as [->|]; [|lia].
      specialize (Hz eq_refl). change (Z.log2 0) with 0%Z in Hf. lia. }
    apply (overflow_iff m E Hpos) in Hf.
    destruct (Z.eq_dec m' 0%Z) as [->|Hne].
    + pose proof (pow2_pos 1024). change (inject_Z 0) with 0 in Hv. lra.
    + assert (pow2 1024 <= inject_Z m' * pow2 E') as H by lra.
      apply (overflow_iff m' E' ltac:(lia)) in H. lia.
  - cbn [le]. rewrite Qle_bool_iff, !Qred_correct, !scale2_pow2. exact Hv.
Qed.

Lemma roundPositive_mono (p d p' d' : positive) :
  Z.pos p # d <= Z.pos p' # d' ->
  le (roundPositive p d) (roundPositive p' d') = true.
Proof.
  intros H. rewrite !roundPositive_unfold. cbv zeta.
  pose proof (floorLog2_mono p d p' d' H) as HL.
  destruct (significand_bounds p d) as [Hm Hn].
  destruct (significand_bounds p' d') as [Hm' Hn'].
  cbv zeta in Hm, Hn, Hm', Hn'.
  set (E := Z.max (floorLog2 p d - 52) (-1074)) in *.
  set (E' := Z.max (floorLog2 p' d' - 52) (-1074)) in *.
  set (m := roundHalfEven (Z.pos p * 2 ^ Z.max (- E) 0)
                          (Z.pos d * 2 ^ Z.max E 0)) in *.
  set (m' := roundHalfEven (Z.pos p' * 2 ^ Z.max (- E') 0)
                           (Z.pos d' * 2 ^ Z.max E' 0)) in *.
  assert (0 < 2 ^ 52)%Z as H52 by reflexivity.
  apply le_results; try lia.
  assert (E <= E')%Z as HE by (unfold E, E'; lia).
  pose proof (pow2_pos E) as HpE. pose proof (pow2_pos E') as HpE'.
  destruct (Z.eq_dec E E') as [Heq|Hne].
  - assert (m <= m')%Z as Hmm.
    { unfold m, m'. rewrite <- Heq.
      apply roundHalfEven_mono; try apply denominator_pos.
      unfold Qle in H. cbn [Qnum Qden] in H.
      assert (0 <= 2 ^ Z.max (- E) 0 * 2 ^ Z.max E 0)%Z as Hab
        by (apply Z.mul_nonneg_nonneg; apply Z.pow_nonneg; lia).
      set (A := (2 ^ Z.max (- E) 0)%Z) in *. set (B := (2 ^ Z.max E 0)%Z) in *.
      set (AB := (A * B)%Z) in *.
      replace (Z.pos p * A * (Z.pos d' * B))%Z
        with (Z.pos p * Z.pos d' * AB)%Z by (unfold AB; ring).
      replace (Z.pos p' * A * (Z.pos d * B))%Z
        with (Z.pos p' * Z.pos d * AB)%Z by (unfold AB; ring).
      apply Z.mul_le_mono_nonneg_r; assumption. }
    rewrite <- Heq. rewrite Zle_Qle in Hmm.
    set (M := inject_Z m) in *. set (M' := inject_Z m') in *.
    set (X := pow2 E) in *. nra.
  - assert (2 ^ 52 <= m')%Z as Hlow by lia.
    assert (pow2 (53 + E) <= pow2 (52 + E')) as Hp by (apply pow2_le; lia).
    rewrite !pow2_add, (pow2_Z 53), (pow2_Z 52) in Hp by lia.
    destruct Hm as [_ Hm]. rewrite Zle_Qle in Hm, Hlow.
    set (M := inject_Z m) in *. set (M' := inject_Z m') in *.
    set (X := pow2 E) in *. set (X' := pow2 E') in *.
    set (A := inject_Z (2 ^ 53)) in *. set (B := inject_Z (2 ^ 52)) in *.
    assert (M * X <= A * X) by nra.
    assert (B * X' <= M' * X') by nra.
    lra.
Qed.

Lemma roundPositive_nonneg (p d : positive) :
  le zero (roundPositive p d) = true.
Proof.
  rewrite roundPositive_unfold. cbv zeta.
  destruct (significand_bounds p d) as [[Hm _] _]. cbv zeta in Hm.
  match goal with |- context [if ?c then _ else _] => destruct c end;
    [reflexivity|].
  cbn [le zero ofZ]. rewrite Qle_bool_iff, Qred_correct, scale2_pow2.
  rewrite Zle_Qle in Hm.
  match goal with |- _ <= inject_Z ?m * pow2 ?E =>
    pose proof (pow2_pos E); set (M := inject_Z m) in *;
    set (X := pow2 E) in *
  end.
  change (inject_Z 0) with 0 in *. nra.
Qed.

(** Rounding is monotone. *)
Lemma round64_mono (q r : Q) :
  q <= r -> le (round64 q) (round64 r) = true.
Proof.
  intros H. rewrite <- (Qred_correct q), <- (Qred_correct r) in H.
  unfold round64.
  destruct (Qred q) as [[|p|p] d], (Qred r) as [[|p'|p'] d'];
    cbn [Qnum Qden];
    try (exfalso; unfold Qle in H; cbn [Qnum Qden] in H; lia).
  - reflexivity.
  - apply roundPositive_nonneg.
  - apply roundPositive_mono, H.
  - apply (le_neg zero), roundPositive_nonneg.
  - eapply le_trans_number; [|apply roundPositive_nonneg].
    apply (le_neg zero), roundPositive_nonneg.
  - apply le_neg, roundPositive_mono.
    unfold Qle in *. cbn [Qnum Qden] in *. lia.
Qed.

End Monotone.

Section Exact.

Local Open Scope Q_scope.

Lemma numerator_le (p d : positive) (E b : Z) :
  (Z.pos p * 2 ^ Z.max (- E) 0 <= b * (Z.pos d * 2 ^ Z.max E 0))%Z
  <-> inject_Z (Z.pos p) <= inject_Z b * pow2 E * inject_Z (Z.pos d).
Proof.
  rewrite Z.mul_assoc.
  replace (Z.max E 0) with (Z.max (- - E) 0)
    by (rewrite Z.opp_involutive; reflexivity).
  rewrite scaleZ_le, inject_Z_mult.
  pose proof (pow2_inv E) as Hi. pose proof (pow2_pos E).
  pose proof (pow2_pos (- E)).
  set (X := pow2 E) in *. set (Y := pow2 (- E)) in *.
  set (P := inject_Z (Z.pos p)). set (B := inject_Z b).
  set (D := inject_Z (Z.pos d)).
  split; intros H1.
  - assert (P * Y * X <= B * D * X) by nra.
    assert (P * Y * X == P) as HP
      by (rewrite <- Qmult_assoc, (Qmult_comm Y), Hi; ring).
    lra.
  - assert (P * Y <= B * X * D * Y) by nra.
    assert (B * X * D * Y == B * D) as HB.
    { transitivity (B * D * (X * Y)); [ring|]. rewrite Hi. ring. }
    lra.
Qed.

(** A number [m * 2^j] with a significand of at most 53 bits and an
    exponent in range is a binary64 value: rounding leaves it as it
    is. *)
Lemma roundPositive_exact (p d : positive) (m j : Z) :
  (0 < m <= 2 ^ 53)%Z -> (-1074 <= j)%Z -> (Z.log2 m + j < 1024)%Z ->
  inject_Z (Z.pos p) == inject_Z m * pow2 j * inject_Z (Z.pos d) ->
  roundPositive p d = Fin (Qred (Z.pos p # d)).
Proof.
  intros Hm Hj Hov Hx.
  destruct (log2_pow2_bounds m ltac:(lia)) as [Hlo Hhi].
  pose proof (inject_pos d) as HD. pose proof (pow2_pos j) as Hpj.
  set (lm := Z.log2 m) in *.
  assert (floorLog2 p d = lm + j)%Z as HL.
  { apply floorLog2_unique.
    - rewrite pow2_add, Hx.
      set (X := pow2 lm) in *. set (Y := pow2 j) in *.
      set (M := inject_Z m) in *. set (D := inject_Z (Z.pos d)) in *.
      assert (X * Y <= M * Y) by nra. nra.
    - replace (lm + j + 1)%Z with (lm + 1 + j)%Z by lia.
      rewrite pow2_add, Hx.
      set (X := pow2 (lm + 1)) in *. set (Y := pow2 j) in *.
      set (M := inject_Z m) in *. set (D := inject_Z (Z.pos d)) in *.
      assert (M * Y < X * Y) by nra. nra. }
  assert (lm <= 53)%Z as Hlm.
  { unfold lm. change 53%Z with (Z.log2 (2 ^ 53)).
    apply Z.log2_le_mono. lia. }
  assert (0 <= lm)%Z as Hlm0 by apply Z.log2_nonneg.
  rewrite roundPositive_unfold. cbv zeta. rewrite HL.
  set (E := Z.max (lm + j - 52) (-1074)).
  assert (exists M : Z,
            (0 < M)%Z /\ (Z.log2 M + E = lm + j)%Z
            /\ inject_Z M * pow2 E == inject_Z m * pow2 j)
    as (M & HM & HlM & HMv).
  { destruct (Z.eq_dec m (2 ^ 53)%Z) as [E53|N53].
    - exists (2 ^ 52)%Z.
      assert (lm = 53%Z) as -> by (unfold lm; rewrite E53; reflexivity).
      assert (E = j + 1)%Z as -> by (unfold E; lia).
      split; [reflexivity|]. split; [change (Z.log2 (2 ^ 52)) with 52%Z; lia|].
      rewrite E53, pow2_add. change (pow2 1) with 2.
      change (inject_Z (2 ^ 53)) with (inject_Z (2 ^ 52) * 2). ring.
    - assert (lm <= 52)%Z.
      { destruct (Z.le_gt_cases lm 52) as [|Hgt]; [assumption|exfalso].
        assert (lm = 53%Z) as E53 by lia.
        assert (pow2 53 <= inject_Z m) as H53 by (rewrite <- E53; exact Hlo).
        rewrite pow2_Z, <- Zle_Qle in H53 by lia. lia. }
      assert (E <= j)%Z as HEj by (unfold E; lia).
      exists (m * 2 ^ (j - E))%Z.
      assert (0 < 2 ^ (j - E))%Z by (apply Z.pow_pos_nonneg; lia).
      split; [nia|]. split.
      + rewrite Z.log2_mul_pow2 by lia. fold lm. lia.
      + rewrite inject_Z_mult, <- pow2_Z by lia.
        rewrite <- Qmult_assoc, <- pow2_add.
        replace (j - E + E)%Z with j by lia. reflexivity. }
  assert (Z.pos p * 2 ^ Z.max (- E) 0
          = M * (Z.pos d * 2 ^ Z.max E 0))%Z as Hnum.
  { apply Z.le_antisymm.
    - apply numerator_le. rewrite HMv, Hx. apply Qle_refl.
    - apply numerator_ge. rewrite HMv, Hx. apply Qle_refl. }
  rewrite Hnum, roundHalfEven_exact by apply denominator_pos.
  destruct (Z.leb_spec 1024 (Z.log2 M + E)); [lia|].
  f_equal. apply Qred_complete.
  rewrite scale2_pow2, HMv, Qmake_Qdiv.
  apply Qmult_inj_r with (z := inject_Z (Z.pos d)); [lra|].
  rewrite <- Hx. field. lra.
Qed.

End Exact.

Section Binary64.

Local Open Scope Q_scope.

(** A positive rational [m * 2^j] with a significand of at most 53 bits
    and an exponent in range is a binary64 value. *)
Lemma round64_dyadic (m j : Z) (q : Q) :
  (0 < m <= 2 ^ 53)%Z -> (-1074 <= j)%Z -> (Z.log2 m + j < 1024)%Z ->
  q == inject_Z m * pow2 j ->
  round64 q = Fin (Qred q).
Proof.
  intros Hm Hj Hov Hq. unfold round64.
  assert (0 < q) as Hpos.
  { rewrite Hq. pose proof (pow2_pos j).
    assert (0 < inject_Z m)
      by (change 0 with (inject_Z 0); rewrite <- Zlt_Qlt; lia).
    set (M := inject_Z m) in *. set (X := pow2 j) in *. nra. }
  set (r := Qred q).
  assert (Qred r = r) as Hinv by apply Qred_involutive.
  assert (r == q) as Hr by apply Qred_correct.
  clearbody r. destruct r as [n d].
  assert (0 < n)%Z as Hn.
  { rewrite <- Hr in Hpos. unfold Qlt in Hpos. cbn [Qnum Qden] in Hpos. lia. }
  destruct n as [|p|p]; try lia. cbn [Qnum Qden].
  rewrite (roundPositive_exact p d m j Hm Hj Hov), Hinv; [reflexivity|].
  rewrite <- Hq, <- Hr, Qmake_Qdiv. field.
  pose proof (inject_pos d). lra.
Qed.

Lemma roundPositive_canonical (p d : positive) (v : Q) :
  roundPositive p d = Fin v -> Qred v = v.
Proof.
  rewrite roundPositive_unfold. cbv zeta.
  match goal with |- context [if ?c then _ else _] => destruct c end;
    [discriminate|].
  intros [= <-]. apply Qred_involutive.
Qed.

Lemma round64_canonical (q v : Q) : round64 q = Fin v -> Qred v = v.
Proof.
  unfold round64. destruct (Qnum (Qred q)) as [|p|p].
  - intros [= <-]. reflexivity.
  - apply roundPositive_canonical.
  - destruct (roundPositive p (Qden (Qred q))) as [|n|w]; try discriminate.
    intros [= <-]. apply Qred_involutive.
Qed.

Lemma roundPositive_binary64 (p d : positive) : binary64 (roundPositive p d).
Proof.
  rewrite roundPositive_unfold. cbv zeta.
  destruct (significand_bounds p d) as [Hm Hn]. cbv zeta in Hm, Hn.
  set (E := Z.max (floorLog2 p d - 52) (-1074)) in *.
  set (m := roundHalfEven (Z.pos p * 2 ^ Z.max (- E) 0)
                          (Z.pos d * 2 ^ Z.max E 0)) in *.
  destruct (Z.leb_spec 1024 (Z.log2 m + E)) as [Hf|Hf]; [exact I|].
  cbn [binary64].
  destruct (Z.eq_dec m 0%Z) as [E0|N0].
  - rewrite E0.
    assert (Qred (scale2 0 E) = inject_Z 0) as ->.
    { apply Qred_eq_inject_Z. rewrite scale2_pow2. ring. }
    reflexivity.
  - rewrite (round64_dyadic m E); [|lia|unfold E; lia|exact Hf|].
    + rewrite Qred_involutive. reflexivity.
    + rewrite Qred_correct. apply scale2_pow2.
Qed.

Lemma neg_involutive (x : number) : binary64 x -> neg (neg x) = x.
Proof.
  destruct x as [|n|v]; cbn [neg binary64]; [reflexivity| |].
  - intros _. rewrite Bool.negb_involutive. reflexivity.
  - intros Hb. f_equal. rewrite <- (round64_canonical _ _ Hb) at 2.
    apply Qred_complete. rewrite Qred_correct. ring.
Qed.

Lemma round64_opp (q : Q) : round64 (- q) = neg (round64 q).
Proof.
  unfold round64. rewrite Qred_opp.
  destruct (Qred q) as [[|p|p] d]; cbn [Qopp Qnum Qden Z.opp];
    [reflexivity|reflexivity|].
  symmetry. apply neg_involutive, roundPositive_binary64.
Qed.

Lemma binary64_neg (x : number) : binary64 x -> binary64 (neg x).
Proof.
  destruct x as [|n|v]; cbn [neg binary64]; try done.
  intros Hb. rewrite (round64_Qeq _ (- v)) by apply Qred_correct.
  rewrite round64_opp, Hb. reflexivity.
Qed.

(** Every result of a rounding is a binary64 value. *)
Lemma round64_binary64 (q : Q) : binary64 (round64 q).
Proof.
  unfold round64. destruct (Qnum (Qred q)) as [|p|p].
  - reflexivity.
  - apply roundPositive_binary64.
  - apply binary64_neg, roundPositive_binary64.
Qed.

Lemma add_binary64 (x y : number) : binary64 (add x y).
Proof.
  destruct x as [|nx|a], y as [|ny|b]; cbn [add]; try exact I.
  - destruct (Bool.eqb nx ny); exact I.
  - apply round64_binary64.
Qed.

Lemma mul_binary64 (x y : number) : binary64 (mul x y).
Proof.
  destruct x as [|nx|a], y as [|ny|b]; cbn [mul]; try exact I.
  - destruct (Qeq_bool b 0); exact I.
  - destruct (Qeq_bool a 0); exact I.
  - apply round64_binary64.
Qed.

Lemma nearest_binary64 (n : N) : binary64 (nearest n).
Proof. apply round64_binary64. Qed.

(** [x - 0] is [x]. *)
Lemma sub_zero (x : number) : binary64 x -> sub x (ofZ 0) = x.
Proof.
  destruct x as [|n|a]; cbn [binary64]; try reflexivity.
  intros Hb. unfold sub. cbn [neg add ofZ].
  rewrite (round64_Qeq _ a); [exact Hb|].
  rewrite Qred_correct. change (inject_Z 0) with 0. ring.
Qed.

End Binary64.

Lemma le_zero_whole n : le zero (ofN n) = true.
Proof.
  unfold le, zero, ofZ, ofN. apply Qle_bool_iff.
  unfold Qle. cbn [Qnum Qden inject_Z]. lia.
Qed.

Lemma nearest_not_NaN (n : N) : isNaN (nearest n) = false.
Proof.
  destruct (nearest_cases n) as [->|(v & -> & _)]; reflexivity.
Qed.

Lemma le_zero_nearest (n : N) : le zero (nearest n) = true.
Proof.
  destruct (nearest_cases n) as [->|(v & -> & _)];
    [reflexivity|apply le_zero_whole].
Qed.

(* ===================================================================== *)
(** ** [parseFloat] on runs of digits, and the cleaning of a price *)
(* ===================================================================== *)

Ltac bool_to_prop H :=
  repeat first
    [ rewrite orb_true_iff in H | rewrite andb_true_iff in H
    | rewrite orb_false_iff in H | rewrite andb_false_iff in H
    | rewrite negb_true_iff in H | rewrite negb_false_iff in H
    | rewrite N.eqb_eq in H | rewrite N.eqb_neq in H
    | rewrite N.leb_le in H | rewrite N.leb_gt in H ].

Lemma digit_not_whitespace c : isDigit c = true -> isWhiteSpace c = false.
Proof.
  intros Hd. apply isDigit_spec in Hd.
  destruct (isWhiteSpace c) eqn:E; [|reflexivity].
  unfold isWhiteSpace in E. bool_to_prop E. lia.
Qed.

Lemma digit_not_currency c : isDigit c = true -> currencyClass c = false.
Proof.
  intros Hd. unfold currencyClass.
  rewrite (digit_not_whitespace c Hd). apply isDigit_spec in Hd.
  unfold rupee.
  repeat match goal with
         | |- context [(c =? ?k)%N] =>
             destruct (N.eqb_spec c k); [lia|]
         end.
  reflexivity.
Qed.

Lemma digit_not_nonNumeric c : isDigit c = true -> nonNumericClass c = false.
Proof. intros Hd. unfold nonNumericClass. rewrite Hd. reflexivity. Qed.

Lemma spanDigits_all ds : allDigits ds -> spanDigits ds = (ds, []).
Proof.
  induction 1 as [|c ds Hc _ IH]; [reflexivity|].
  cbn [spanDigits]. rewrite Hc, IH. reflexivity.
Qed.

Lemma parseFloat_nil : parseFloat [] = NaN.
Proof. reflexivity. Qed.

(** On a non-empty run of digits [parseFloat] returns its value,
    rounded. *)
Lemma parseFloat_digits ds :
  ds <> [] -> allDigits ds -> parseFloat ds = nearest (digitsValue ds).
Proof.
  intros Hne Hall. destruct ds as [|c ds']; [done|].
  pose proof (Forall_inv Hall) as Hc. cbv beta in Hc.
  unfold parseFloat. cbn [dropWhileWs].
  rewrite (digit_not_whitespace c Hc).
  pose proof Hc as Hr. apply isDigit_spec in Hr.
  destruct (N.eqb_spec c 43); [lia|]. destruct (N.eqb_spec c 45); [lia|].
  replace (startsWith (lit "Infinity") (c :: ds')) with false.
  2:{ change (lit "Infinity") with (73%N :: lit "nfinity").
      cbn [startsWith]. destruct (N.eqb_spec 73 c); [lia|reflexivity]. }
  rewrite (spanDigits_all _ Hall). cbn [parseExponent length].
  rewrite app_nil_r. unfold nearest. apply round64_Qeq.
  unfold pow10. simpl Qpower. rewrite !Qmult_1_r. reflexivity.
Qed.

Lemma replaceClass_digits cls ds :
  (forall c, isDigit c = true -> cls c = false) ->
  allDigits ds -> replaceClass cls ds = ds.
Proof.
  intros Hcls. unfold replaceClass.
  induction 1 as [|c ds Hc _ IH]; [reflexivity|].
  rewrite filter_cons_True; [f_equal; exact IH|].
  rewrite (Hcls c Hc). reflexivity.
Qed.

Lemma cleanPrice_digits ds : allDigits ds -> cleanPrice ds = ds.
Proof.
  intros H. unfold cleanPrice.
  rewrite (replaceClass_digits currencyClass ds digit_not_currency H).
  apply (replaceClass_digits nonNumericClass ds digit_not_nonNumeric H).
Qed.

(** What survives the two substitutions is a run of digits: the first
    one deletes every full stop, the second one everything that is
    neither a digit nor a full stop. *)
Lemma cleanPrice_allDigits s : allDigits (cleanPrice s).
Proof.
  unfold allDigits, cleanPrice, replaceClass.
  apply Forall_forall. intros c Hc.
  apply list_elem_of_filter in Hc as [Hnum Hc].
  apply list_elem_of_filter in Hc as [Hcur _].
  unfold nonNumericClass in Hnum. unfold currencyClass in Hcur.
  bool_to_prop Hnum. bool_to_prop Hcur.
  destruct Hnum as [Hnum|Hnum]; [exact Hnum|].
  exfalso. tauto.
Qed.

Lemma firstSubstitution_no_full_stop s :
  46%N ∉ replaceClass currencyClass s.
Proof.
  unfold replaceClass. intros Hc.
  apply list_elem_of_filter in Hc as [Hcur _]. vm_compute in Hcur. discriminate.
Qed.

(** [extractPrice] returns the value of the digits of its argument, read
    as one whole number, and zero when there is none. *)
Lemma extractPrice_value s :
  extractPrice s = nearest (digitsValue (cleanPrice s)).
Proof.
  destruct s as [|c s']; [reflexivity|].
  unfold extractPrice.
  destruct (cleanPrice (c :: s')) as [|d ds] eqn:E; [reflexivity|].
  rewrite parseFloat_digits; [|discriminate|].
  - rewrite nearest_not_NaN. reflexivity.
  - rewrite <- E. apply cleanPrice_allDigits.
Qed.

(* ===================================================================== *)
(** ** Number to string on whole numbers *)
(* ===================================================================== *)

Lemma replaceClass_cons cls c s :
  replaceClass cls (c :: s) =
  if cls c then replaceClass cls s else c :: replaceClass cls s.
Proof.
  unfold replaceClass. rewrite filter_cons.
  destruct (cls c); case_decide; simpl in *; congruence.
Qed.

Lemma replaceClass_reverse cls s :
  replaceClass cls (reverse s) = reverse (replaceClass cls s).
Proof. apply filter_reverse. Qed.

Lemma replaceClass_groupPairs cls :
  cls 44%N = true ->
  forall l, replaceClass cls (groupPairs l) = replaceClass cls l.
Proof.
  intros Hcomma.
  assert (forall l,
    replaceClass cls (groupPairs l) = replaceClass cls l /\
    forall x, replaceClass cls (groupPairs (x :: l)) = replaceClass cls (x :: l))
    as H.
  { induction l as [|y l' [IH1 IH2]]; [split; reflexivity|].
    split; [apply IH2|]. intros x.
    destruct l' as [|z l'']; [reflexivity|].
    change (groupPairs (x :: y :: z :: l''))
      with (x :: y :: 44%N :: groupPairs (z :: l'')).
    rewrite !(replaceClass_cons cls x), !(replaceClass_cons cls y).
    rewrite (replaceClass_cons cls 44%N), Hcomma, IH1. reflexivity. }
  intros l. apply H.
Qed.

Lemma replaceClass_groupIndian cls ds :
  cls 44%N = true ->
  replaceClass cls (groupIndian ds) = replaceClass cls ds.
Proof.
  intros Hcomma. unfold groupIndian.
  destruct (reverse ds) as [|a [|b [|c [|d rest]]]] eqn:E; try reflexivity.
  rewrite replaceClass_reverse.
  rewrite !(replaceClass_cons cls a), !(replaceClass_cons cls b),
    !(replaceClass_cons cls c), (replaceClass_cons cls 44%N), Hcomma.
  rewrite replaceClass_groupPairs by exact Hcomma.
  rewrite <- (reverse_involutive ds), E, replaceClass_reverse.
  rewrite !(replaceClass_cons cls a), !(replaceClass_cons cls b),
    !(replaceClass_cons cls c).
  reflexivity.
Qed.

(** The currency prefix and the grouping commas are deleted again by the
    first substitution of [extractPrice]. *)
Lemma cleanPrice_formatted ds :
  allDigits ds -> cleanPrice (rupee :: groupIndian ds) = ds.
Proof.
  intros H. unfold cleanPrice.
  rewrite replaceClass_cons.
  change (currencyClass rupee) with true. cbv iota.
  rewrite replaceClass_groupIndian by reflexivity.
  apply (cleanPrice_digits ds H).
Qed.

Lemma dropWhileZero_pad l :
  (length (dropWhileZero l) <= length l)%nat /\
  replicate (length l - length (dropWhileZero l)) 48%N ++ dropWhileZero l = l.
Proof.
  induction l as [|c l [IHlen IH]]; [split; reflexivity|].
  cbn [dropWhileZero].
  destruct (N.eqb_spec c 48) as [->|Hne].
  - split; [simpl; lia|].
    replace (length (48%N :: l) - length (dropWhileZero l))%nat
      with (S (length l - length (dropWhileZero l))) by (simpl; lia).
    simpl. f_equal. exact IH.
  - split; [lia|]. rewrite Nat.sub_diag. reflexivity.
Qed.

Lemma stripTrailingZeros_pad ds :
  (length (stripTrailingZeros ds) <= length ds)%nat /\
  stripTrailingZeros ds
    ++ replicate (length ds - length (stripTrailingZeros ds)) 48%N = ds.
Proof.
  unfold stripTrailingZeros.
  assert (ds = reverse (reverse ds)) as Hds
    by (symmetry; apply reverse_involutive).
  set (r := reverse ds) in *. clearbody r. subst ds.
  destruct (dropWhileZero_pad r) as [Hlen Hpad].
  rewrite !length_reverse. split; [exact Hlen|].
  rewrite <- reverse_replicate, <- reverse_app, Hpad. reflexivity.
Qed.

(* ===================================================================== *)
(** ** The string form of a whole number *)
(* ===================================================================== *)

Section Shortest.

Local Open Scope Q_scope.

Lemma pow10_pos (e : Z) : 0 < pow10 e.
Proof. apply Qpower_0_lt. reflexivity. Qed.

Lemma pow10_add (a b : Z) : pow10 (a + b) == pow10 a * pow10 b.
Proof. apply Qpower_plus. discriminate. Qed.

Lemma pow10_Z (j : Z) : (0 <= j)%Z -> pow10 j == inject_Z (10 ^ j).
Proof. intros H. symmetry. apply (Zpower_Qpower 10 j H). Qed.

Lemma Qfloor_bounds (t : Q) (a b : Z) :
  inject_Z a <= t -> t < inject_Z b -> (a <= Qfloor t < b)%Z.
Proof.
  intros Ha Hb. split.
  - assert (inject_Z a < inject_Z (Qfloor t + 1)) as H
      by (eapply Qle_lt_trans; [exact Ha|apply Qlt_floor]).
    rewrite <- Zlt_Qlt in H. lia.
  - assert (inject_Z (Qfloor t) < inject_Z b) as H
      by (eapply Qle_lt_trans; [apply Qfloor_le|exact Hb]).
    rewrite <- Zlt_Qlt in H. exact H.
Qed.

Lemma shortestAt_some (q : Q) (n k s n' : Z) :
  shortestAt q n k = Some (s, n') ->
  roundTrips q s n' k = true
  /\ (let lo := Qfloor (q / pow10 (n - k)) in
      (s = lo /\ n' = n)
      \/ ((lo + 1)%Z = (10 ^ k)%Z /\ s = (10 ^ (k - 1))%Z /\ n' = (n + 1)%Z)
      \/ ((lo + 1)%Z <> (10 ^ k)%Z /\ s = (lo + 1)%Z /\ n' = n)).
Proof.
  unfold shortestAt. cbv zeta.
  set (lo := Qfloor (q / pow10 (n - k))).
  destruct (Z.eqb_spec (lo + 1) (10 ^ k)) as [E|E];
    destruct (roundTrips q lo n k) eqn:Hlo;
    match goal with
    | |- context [roundTrips q ?a ?b k] =>
        destruct (roundTrips q a b k) eqn:Hhi
    end; cbn [andb];
    repeat match goal with
           | |- context [match ?c with Eq => _ | Lt => _ | Gt => _ end] =>
               destruct c
           | |- context [if Z.even ?c then _ else _] => destruct (Z.even c)
           end;
    intros [= <- <-]; split; auto 10.
Qed.

Lemma shortestAt_lo (q : Q) (n k : Z) :
  roundTrips q (Qfloor (q / pow10 (n - k))) n k = true ->
  shortestAt q n k <> None.
Proof.
  unfold shortestAt. cbv zeta. intros ->.
  destruct (Z.eqb_spec (Qfloor (q / pow10 (n - k)) + 1) (10 ^ k));
    cbn [andb];
    repeat match goal with
           | |- context [if ?c then _ else _] => destruct c
           | |- context [match ?c with Eq => _ | Lt => _ | Gt => _ end] =>
               destruct c
           end; discriminate.
Qed.

Lemma shortestFrom_some (fuel : nat) : forall (q : Q) (n k : Z) r,
  shortestFrom fuel q n k = Some r ->
  exists k', (k <= k' < k + Z.of_nat fuel)%Z
    /\ shortestAt q n k' = Some r
    /\ forall j, (k <= j < k')%Z -> shortestAt q n j = None.
Proof.
  induction fuel as [|fuel IH]; intros q n k r; cbn [shortestFrom];
    [discriminate|].
  destruct (shortestAt q n k) as [r'|] eqn:E.
  - intros [= <-]. exists k. split; [lia|]. split; [exact E|]. intros; lia.
  - intros H. destruct (IH _ _ _ _ H) as (k' & Hk & Hat & Hmin).
    exists k'. split; [lia|]. split; [exact Hat|].
    intros j Hj. destruct (Z.eq_dec j k) as [->|]; [exact E|].
    apply Hmin. lia.
Qed.

End Shortest.

(* ===================================================================== *)
(** ** The shortest digits of a whole number *)
(* ===================================================================== *)

Lemma Qcompare_whole_pos (v : N) :
  (0 < v)%N -> (inject_Z (Z.of_N v) ?= 0)%Q = Gt.
Proof.
  intros H. unfold Qcompare. cbn [Qnum Qden inject_Z].
  apply Z.compare_gt_iff. lia.
Qed.

Lemma decimalExponent_whole (v : N) :
  (0 < v)%N ->
  decimalExponent (inject_Z (Z.of_N v))
  = Z.of_nat (length (decimalDigits v)).
Proof.
  intros H. unfold decimalExponent.
  replace (Qle_bool 1 (inject_Z (Z.of_N v))) with true.
  - rewrite Qfloor_Z, N2Z.id. reflexivity.
  - symmetry. apply Qle_bool_iff. change 1%Q with (inject_Z 1).
    rewrite <- Zle_Qle. lia.
Qed.

Lemma decimalDigits_bounds_Z (v : N) :
  (0 < v)%N ->
  (10 ^ (Z.of_nat (length (decimalDigits v)) - 1) <= Z.of_N v
   < 10 ^ Z.of_nat (length (decimalDigits v)))%Z.
Proof.
  intros H. destruct (decimalDigits_bounds v H) as [Hlo Hhi].
  assert (length (decimalDigits v) <> 0%nat) as Hne.
  { intros E. apply length_zero_iff_nil in E.
    exact (decimalDigits_nonempty v E). }
  apply N2Z.inj_le in Hlo. apply N2Z.inj_lt in Hhi.
  rewrite N2Z.inj_pow in Hlo, Hhi. rewrite N2Z.inj_sub in Hlo by lia.
  rewrite nat_N_Z in Hlo, Hhi. exact (conj Hlo Hhi).
Qed.

(** The quotient of a number of [n] digits by [10^(n-k)] has [k]
    digits. *)
Lemma whole_quotient_bounds (v : N) (k : Z) :
  (0 < v)%N -> (1 <= k)%Z ->
  let n := Z.of_nat (length (decimalDigits v)) in
  (10 ^ (k - 1) <= Qfloor (inject_Z (Z.of_N v) / pow10 (n - k)) < 10 ^ k)%Z.
Proof.
  intros Hv Hk n. destruct (decimalDigits_bounds_Z v Hv) as [Hlo Hhi].
  fold n in Hlo, Hhi.
  assert (1 <= n)%Z as Hn.
  { destruct (Z.le_gt_cases 1 n); [assumption|].
    unfold n in *. assert (length (decimalDigits v) = 0%nat) as E by lia.
    apply length_zero_iff_nil in E. destruct (decimalDigits_nonempty v E). }
  apply Qfloor_bounds.
  - apply Qle_shift_div_l; [apply pow10_pos|].
    rewrite <- (pow10_Z (k - 1)), <- pow10_add by lia.
    replace (k - 1 + (n - k))%Z with (n - 1)%Z by lia.
    rewrite pow10_Z by lia. rewrite <- Zle_Qle. exact Hlo.
  - apply Qlt_shift_div_r; [apply pow10_pos|].
    rewrite <- (pow10_Z k), <- pow10_add by lia.
    replace (k + (n - k))%Z with n by lia.
    rewrite pow10_Z by lia. rewrite <- Zlt_Qlt. exact Hhi.
Qed.

(** A decimal that is read back as the whole number [v]. *)
Lemma roundTrips_whole (v : N) (s n k : Z) :
  roundTrips (inject_Z (Z.of_N v)) s n k = true ->
  (0 <= s)%Z -> (k <= n)%Z ->
  nearest (Z.to_N (s * 10 ^ (n - k))) = ofN v.
Proof.
  unfold roundTrips. intros H Hs Hkn.
  destruct (round64 (inject_Z s * pow10 (n - k))) as [| |r] eqn:E;
    try discriminate.
  apply Qeq_bool_iff in H.
  assert (0 <= s * 10 ^ (n - k))%Z as Hnn
    by (apply Z.mul_nonneg_nonneg; [exact Hs|apply Z.pow_nonneg; lia]).
  rewrite (round64_Qeq _ (inject_Z (Z.of_N (Z.to_N (s * 10 ^ (n - k))))))
    in E.
  2:{ rewrite Z2N.id, inject_Z_mult, pow10_Z by lia. reflexivity. }
  change (nearest (Z.to_N (s * 10 ^ (n - k))) = Fin r) in E.
  destruct (nearest_cases (Z.to_N (s * 10 ^ (n - k))))
    as [Hinf|(w & Hw & _)]; [congruence|].
  rewrite Hw in E |- *. injection E as <-.
  unfold Qeq in H. cbn [Qnum Qden inject_Z] in H.
  f_equal. lia.
Qed.

Lemma roundTrips_self (v : N) (n : Z) :
  nearest v = ofN v ->
  roundTrips (inject_Z (Z.of_N v))
    (Qfloor (inject_Z (Z.of_N v) / pow10 (n - n))) n n = true.
Proof.
  intros Hd. rewrite Z.sub_diag. change (pow10 0) with 1%Q.
  rewrite (Qfloor_comp _ (inject_Z (Z.of_N v))) by (unfold Qdiv; change (/ 1)%Q with 1%Q; apply Qmult_1_r).
  rewrite Qfloor_Z. unfold roundTrips. rewrite Z.sub_diag.
  change (pow10 0) with 1%Q.
  rewrite (round64_Qeq _ (inject_Z (Z.of_N v))) by apply Qmult_1_r.
  change (round64 (inject_Z (Z.of_N v))) with (nearest v). rewrite Hd.
  apply Qeq_bool_refl.
Qed.

(** The digits of the string form of a whole number [v] that is a
    binary64 value: [k] significant digits, to be followed by [j] zeros,
    which denote a whole number read back as [v]. *)
Lemma shortestDigits_whole (v : N) :
  (0 < v)%N -> nearest v = ofN v ->
  exists (sd : jsstring) (j : nat),
    shortestDigits (inject_Z (Z.of_N v)) = (sd, Z.of_nat (length sd + j))
    /\ allDigits sd /\ sd <> []
    /\ nearest (digitsValue (sd ++ replicate j 48%N)) = ofN v
    /\ ((v < 10 ^ 21)%N -> (length sd + j <= 21)%nat).
Proof.
  intros Hv Hd. unfold shortestDigits.
  rewrite (decimalExponent_whole v Hv).
  set (q := inject_Z (Z.of_N v)).
  set (len := length (decimalDigits v)).
  destruct (decimalDigits_bounds_Z v Hv) as [Hlo Hhi]. fold len in Hlo, Hhi.
  assert (1 <= len)%nat as Hlen.
  { destruct len eqn:E; [|lia]. apply length_zero_iff_nil in E.
    destruct (decimalDigits_nonempty v E). }
  destruct (shortestFrom 17 q (Z.of_nat len) 1) as [[s n']|] eqn:Efrom.
  - (* a decimal of at most 17 digits *)
    destruct (shortestFrom_some _ _ _ _ _ Efrom) as (k & Hk & Hat & Hmin).
    destruct (shortestAt_some _ _ _ _ _ Hat) as [Hrt Hcases].
    cbv zeta in Hcases.
    pose proof (whole_quotient_bounds v k Hv ltac:(lia)) as Hq.
    cbv zeta in Hq. fold len q in Hq.
    set (lo := Qfloor (q / pow10 (Z.of_nat len - k))) in *.
    assert (k <= Z.of_nat len)%Z as Hkn.
    { destruct (Z.le_gt_cases k (Z.of_nat len)) as [H|H]; [exact H|exfalso].
      apply (shortestAt_lo q (Z.of_nat len) (Z.of_nat len)).
      - apply roundTrips_self, Hd.
      - apply Hmin. lia. }
    assert (10 ^ (k - 1) <= s < 10 ^ k)%Z as Hs.
    { assert (10 ^ (k - 1) < 10 ^ k)%Z by (apply Z.pow_lt_mono_r; lia).
      destruct Hcases as [[-> _]|[(_ & -> & _)|(Hne & -> & _)]]; lia. }
    assert (Z.of_nat len <= n' <= Z.of_nat len + 1)%Z as Hn'
      by (destruct Hcases as [[_ ->]|[(_ & _ & ->)|(_ & _ & ->)]]; lia).
    assert (0 < 10 ^ (k - 1))%Z as Hp by (apply Z.pow_pos_nonneg; lia).
    assert (length (decimalDigits (Z.to_N s)) = Z.to_nat k) as Hlen_s.
    { apply decimalDigits_length; [lia| |].
      - apply N2Z.inj_le. rewrite N2Z.inj_pow, N2Z.inj_sub by lia.
        rewrite nat_N_Z, !Z2Nat.id, Z2N.id by lia. lia.
      - apply N2Z.inj_lt. rewrite N2Z.inj_pow.
        rewrite nat_N_Z, !Z2Nat.id, Z2N.id by lia. lia. }
    exists (decimalDigits (Z.to_N s)), (Z.to_nat (n' - k)).
    rewrite Hlen_s.
    replace (Z.of_nat (Z.to_nat k + Z.to_nat (n' - k))) with n' by lia.
    split; [reflexivity|]. split; [apply decimalDigits_Forall|].
    split; [apply decimalDigits_nonempty|].
    pose proof (roundTrips_whole v s n' k Hrt ltac:(lia) ltac:(lia)) as Hu.
    assert (digitsValue (decimalDigits (Z.to_N s)
                         ++ replicate (Z.to_nat (n' - k)) 48%N)
            = Z.to_N (s * 10 ^ (n' - k))) as Hval.
    { rewrite digitsValue_pad, digitsValue_decimalDigits.
      rewrite Z2N.inj_mul, Z2N.inj_pow by (try apply Z.pow_nonneg; lia).
      rewrite Z_nat_N. reflexivity. }
    rewrite Hval. split; [exact Hu|].
    intros H21.
    assert (len <= 21)%nat as Hl21
      by (apply decimalDigits_length_le; [lia|exact H21]).
    destruct (Z.eq_dec n' 22%Z) as [E22|]; [exfalso|lia].
    (* the decimal would be [10^21] *)
    destruct Hcases as [[_ ->]|[(_ & -> & ->)|(_ & _ & ->)]]; try lia.
    replace (10 ^ (k - 1) * 10 ^ (Z.of_nat len + 1 - k))%Z
      with (10 ^ 21)%Z in Hu.
    2:{ rewrite <- Z.pow_add_r by lia. f_equal. lia. }
    replace (nearest (Z.to_N (10 ^ 21))) with (ofN (10 ^ 21)) in Hu
      by (vm_compute; reflexivity).
    injection Hu as Hu. lia.
  - (* the exact expansion *)
    unfold exactDigits.
    change (Pos.size_nat (Qden q)) with 1%nat.
    cbn [scaleToInteger]. unfold q. rewrite Qred_inject_Z.
    cbn [Qden inject_Z Qnum]. change (1 =? 1)%positive with true. cbv iota.
    rewrite N2Z.id. fold len.
    destruct (stripTrailingZeros_pad (decimalDigits v)) as [Hle Hpad].
    fold len in Hle, Hpad.
    set (sd := stripTrailingZeros (decimalDigits v)) in *.
    exists sd, (len - length sd)%nat.
    replace (Z.of_nat (length sd + (len - length sd)))
      with (Z.of_nat len - Z.of_nat 0)%Z by lia.
    split; [reflexivity|].
    assert (allDigits sd) as Hall.
    { pose proof (decimalDigits_Forall v) as H. rewrite <- Hpad in H.
      apply Forall_app in H. tauto. }
    split; [exact Hall|]. split.
    { intros E. rewrite E in Hpad. cbn [app length] in Hpad.
      rewrite Nat.sub_0_r in Hpad.
      pose proof (digitsValue_decimalDigits v) as Hval.
      rewrite <- Hpad, digitsValue_zeros in Hval. lia. }
    rewrite Hpad, digitsValue_decimalDigits. split; [exact Hd|].
    intros H21. pose proof (decimalDigits_length_le v 21 ltac:(lia) H21).
    fold len in H. lia.
Qed.

(** Below [10^21] the string form of a whole number is a run of digits,
    and the number they denote is read back as the same value. *)
Lemma toString_whole (v : N) :
  nearest v = ofN v -> (v < 10 ^ 21)%N ->
  exists ds, toString (ofN v) = ds /\ allDigits ds /\ ds <> []
             /\ nearest (digitsValue ds) = ofN v.
Proof.
  intros Hd H21. destruct (N.eq_dec v 0%N) as [->|Hne].
  { exists (lit "0"). split; [reflexivity|].
    split; [repeat constructor|]. split; [discriminate|reflexivity]. }
  unfold toString, ofN. rewrite Qcompare_whole_pos by lia.
  unfold positiveToString.
  destruct (shortestDigits_whole v ltac:(lia) Hd)
    as (sd & j & -> & Hall & Hne' & Hu & Hb).
  specialize (Hb H21). exists (sd ++ replicate j 48%N). split.
  - unfold formatDecimal.
    replace ((Z.of_nat (length sd) <=? Z.of_nat (length sd + j))
             && (Z.of_nat (length sd + j) <=? 21))%Z with true.
    2:{ symmetry. apply andb_true_iff. rewrite !Z.leb_le. lia. }
    replace (Z.to_nat (Z.of_nat (length sd + j) - Z.of_nat (length sd)))
      with j by lia.
    reflexivity.
  - split; [|split; [|exact Hu]].
    + apply Forall_app. split; [exact Hall|].
      apply Forall_replicate. reflexivity.
    + destruct sd; [done|discriminate].
Qed.

(** [roundThousandths] depends on the value of its argument only. *)
Lemma roundThousandths_floor (q : Q) :
  roundThousandths q = Qfloor (q * 1000 + (1 # 2)).
Proof.
  destruct q as [n d]. unfold roundThousandths. cbn [Qnum Qden].
  transitivity (Qfloor ((2 * 1000 * n + Z.pos d) # (2 * d)));
    [reflexivity|].
  apply Qfloor_comp. unfold Qeq, Qplus, Qmult. cbn [Qnum Qden].
  rewrite !Pos2Z.inj_mul. lia.
Qed.

Lemma nonNegativeToLocale_Qeq (q r : Q) :
  (q == r)%Q -> nonNegativeToLocale q = nonNegativeToLocale r.
Proof.
  intros H. unfold nonNegativeToLocale.
  rewrite !roundThousandths_floor.
  rewrite (Qfloor_comp (q * 1000 + (1 # 2)) (r * 1000 + (1 # 2)))
    by (rewrite H; reflexivity).
  reflexivity.
Qed.

Lemma roundThousandths_whole n :
  roundThousandths (inject_Z (Z.of_N n)) = (Z.of_N n * 1000)%Z.
Proof.
  unfold roundThousandths. simpl Qnum. simpl Qden.
  symmetry. apply Z.div_unique with (r := 1%Z); lia.
Qed.

Lemma nonNegativeToLocale_whole (n : N) :
  nonNegativeToLocale (inject_Z (Z.of_N n)) = groupIndian (decimalDigits n).
Proof.
  unfold nonNegativeToLocale. rewrite roundThousandths_whole.
  rewrite Z.mod_mul, Z.div_mul by discriminate.
  change (stripTrailingZeros (fractionDigits 0)) with (@nil N).
  rewrite N2Z.id. reflexivity.
Qed.

(** The en-IN form of a whole number is the grouped digits of a whole
    number that is read back as the same value. *)
Lemma toLocaleString_whole (v : N) :
  nearest v = ofN v ->
  exists u, toLocaleString (ofN v) = groupIndian (decimalDigits u)
            /\ nearest u = ofN v.
Proof.
  intros Hd. destruct (N.eq_dec v 0%N) as [->|Hne].
  { exists 0%N. split; reflexivity. }
  unfold toLocaleString, ofN. rewrite Qcompare_whole_pos by lia.
  unfold shortestDecimal.
  destruct (shortestDigits_whole v ltac:(lia) Hd)
    as (sd & j & -> & Hall & Hne' & Hu & _).
  exists (digitsValue (sd ++ replicate j 48%N)). split; [|exact Hu].
  rewrite <- nonNegativeToLocale_whole.
  apply nonNegativeToLocale_Qeq.
  rewrite digitsValue_pad, N2Z.inj_mul, N2Z.inj_pow, inject_Z_mult.
  rewrite nat_N_Z.
  replace (Z.of_nat (length sd + j) - Z.of_nat (length sd))%Z
    with (Z.of_nat j) by lia.
  rewrite pow10_Z by lia. reflexivity.
Qed.

(* ===================================================================== *)
(** ** The price normalizer *)
(* ===================================================================== *)

Lemma lt_whole_bound n (b : Z) :
  lt (ofN n) (ofZ b) = true -> (Z.of_N n < b)%Z.
Proof.
  unfold lt, ofN, ofZ, Qltb, Qcompare. cbn [Qnum Qden inject_Z].
  destruct (Z.compare_spec (Z.of_N n * 1) (b * 1)); intros; try discriminate.
  lia.
Qed.

Lemma extractPrice_digits ds :
  allDigits ds -> extractPrice ds = nearest (digitsValue ds).
Proof.
  intros Hall. rewrite extractPrice_value, cleanPrice_digits by exact Hall.
  reflexivity.
Qed.

(** C1 (the code departs from the stated algorithm).  On "Rs. 45.50" the
    first substitution deletes the full stop of the amount together with
    the one of "Rs.": the digits that remain are read as 4550, where the
    claim asks for 45.5.  The three other examples of the claim hold. *)
Theorem extractPrice_decimal_point_lost :
  cleanPrice (lit "Rs. 45.50") = lit "4550"
  /\ extractPrice (lit "Rs. 45.50") = ofZ 4550
  /\ strictEquals (extractPrice (lit "Rs. 45.50")) (Fin (91 # 2)) = false
  /\ extractPrice [] = ofZ 0
  /\ extractPrice (rupee :: lit "1,299") = ofZ 1299
  /\ extractPrice (lit "no price") = ofZ 0.
Proof. vm_compute. repeat split; reflexivity. Qed.

(** C2, refuted as stated: 0.0004 is formatted with at most three
    fraction digits, as "₹0", and is read back as 0. *)
Lemma formatPrice_roundtrip_fails :
  le zero (literal (1 # 2500)) = true
  /\ formatPrice (literal (1 # 2500)) = rupee :: lit "0"
  /\ extractPrice (formatPrice (literal (1 # 2500))) = ofZ 0
  /\ strictEquals (extractPrice (formatPrice (literal (1 # 2500))))
       (literal (1 # 2500))
     = false.
Proof. vm_compute. repeat split; reflexivity. Qed.

(** C2, amended: for every non-negative whole number [n] (a Number,
    that is a binary64 value), reading back the formatted price (rupee
    sign, en-IN grouping) gives [n] again. *)
Theorem formatPrice_extractPrice_whole (n : N) :
  binary64 (ofN n) ->
  extractPrice (formatPrice (ofN n)) = ofN n.
Proof.
  intros Hn. change (nearest n = ofN n) in Hn. unfold formatPrice.
  destruct (toLocaleString_whole n Hn) as (u & -> & Hu).
  rewrite extractPrice_value.
  rewrite cleanPrice_formatted by apply decimalDigits_Forall.
  rewrite digitsValue_decimalDigits. exact Hu.
Qed.

Lemma formatPrice_extractPrice_whole_witness :
  binary64 (ofN 129900)
  /\ formatPrice (ofN 129900) = rupee :: lit "1,29,900"
  /\ extractPrice (formatPrice (ofN 129900)) = ofN 129900.
Proof.
  split; [vm_compute; reflexivity|].
  split; [vm_compute; reflexivity|].
  apply (formatPrice_extractPrice_whole 129900). vm_compute. reflexivity.
Defined.

(** C9, refuted as stated: the digits of 10^21 are read as 10^21, whose
    string form is "1e+21"; normalizing that string gives 121. *)
Lemma extractPrice_not_idempotent :
  extractPrice (lit "1000000000000000000000") = ofZ (10 ^ 21)
  /\ toString (extractPrice (lit "1000000000000000000000")) = lit "1e+21"
  /\ extractPrice (toString (extractPrice (lit "1000000000000000000000")))
     = ofZ 121
  /\ strictEquals
       (extractPrice (toString (extractPrice (lit "1000000000000000000000"))))
       (extractPrice (lit "1000000000000000000000")) = false.
Proof. vm_compute. repeat split; reflexivity. Qed.

(** C9, amended: the result of [extractPrice] is never negative, and
    whenever it is below 10^21 normalizing its string form gives the same
    number. *)
Theorem extractPrice_nonneg_idempotent (s : jsstring) :
  le zero (extractPrice s) = true
  /\ (lt (extractPrice s) (ofZ (10 ^ 21)) = true ->
      extractPrice (toString (extractPrice s)) = extractPrice s).
Proof.
  rewrite extractPrice_value.
  set (k := digitsValue (cleanPrice s)).
  split; [apply le_zero_nearest|].
  destruct (nearest_cases k) as [->|(v & -> & Hv & _)]; [discriminate|].
  intros Hlt. apply lt_whole_bound in Hlt.
  destruct (toString_whole v Hv ltac:(lia)) as (ds & -> & Hall & _ & Hu).
  rewrite extractPrice_digits by exact Hall. exact Hu.
Qed.

Lemma extractPrice_nonneg_idempotent_witness :
  lt (extractPrice (rupee :: lit "1,299")) (ofZ (10 ^ 21)) = true
  /\ extractPrice (toString (extractPrice (rupee :: lit "1,299")))
     = extractPrice (rupee :: lit "1,299").
Proof.
  split; [vm_compute; reflexivity|].
  apply (proj2 (extractPrice_nonneg_idempotent (rupee :: lit "1,299"))).
  vm_compute; reflexivity.
Defined.

(** C10, refuted as stated: four hundred digits denote a number beyond
    the range of binary64, and the result is Infinity, which is no whole
    number. *)
Lemma extractPrice_overflows :
  allDigits (replicate 400 57%N)
  /\ extractPrice (replicate 400 57%N) = Infinity false
  /\ (forall k : N, extractPrice (replicate 400 57%N) <> ofN k).
Proof.
  split; [apply Forall_replicate; reflexivity|].
  assert (extractPrice (replicate 400 57%N) = Infinity false) as ->
    by (vm_compute; reflexivity).
  split; [reflexivity|discriminate].
Qed.

(** C10, amended: the first substitution of [extractPrice] leaves no full
    stop, so for every input the result has no fractional part: it is the
    binary64 value nearest to the whole number that the remaining digits
    denote, which is a whole number, or Infinity when that number is
    beyond the range of binary64 (from [2^1024 - 2^970] on, and then
    only); up to [2^53] it is that number itself.  The digits of "45.50"
    are read as 4550. *)
Theorem extractPrice_whole_number :
  (forall s : jsstring, 46%N ∉ replaceClass currencyClass s)
  /\ (forall s : jsstring,
        allDigits (cleanPrice s)
        /\ extractPrice s = nearest (digitsValue (cleanPrice s)))
  /\ (forall s : jsstring,
        extractPrice s = Infinity false
        \/ exists k : N, extractPrice s = ofN k)
  /\ (forall s : jsstring,
        (digitsValue (cleanPrice s) < 2 ^ 1024 - 2 ^ 970)%N <->
        exists k : N, extractPrice s = ofN k)
  /\ (forall s : jsstring,
        (digitsValue (cleanPrice s) <= 2 ^ 53)%N ->
        extractPrice s = ofN (digitsValue (cleanPrice s)))
  /\ cleanPrice (lit "45.50") = lit "4550"
  /\ extractPrice (lit "45.50") = ofZ 4550.
Proof.
  split; [exact firstSubstitution_no_full_stop|].
  split.
  { intros s. split; [apply cleanPrice_allDigits|apply extractPrice_value]. }
  split.
  { intros s. rewrite extractPrice_value.
    destruct (nearest_cases (digitsValue (cleanPrice s)))
      as [->|(v & -> & _)]; eauto. }
  split.
  { intros s. rewrite extractPrice_value. apply nearest_finite_iff. }
  split.
  { intros s H. rewrite extractPrice_value. apply nearest_exact, H. }
  vm_compute. split; reflexivity.
Qed.

(* ===================================================================== *)
(** ** The sort validator *)
(* ===================================================================== *)

Section SortValidator.

Implicit Types (products : list product) (v : violation) (i : nat).

Lemma sortLoopBody_app products (acc : list violation) i :
  sortLoopBody products acc i = acc ++ violationAt products i.
Proof.
  unfold sortLoopBody, violationAt.
  destruct (products !! i) as [cur|]; [|by rewrite app_nil_r].
  destruct (products !! (i - 1)) as [prev|]; [|by rewrite app_nil_r].
  destruct (lt (price cur) (price prev)); [reflexivity|by rewrite app_nil_r].
Qed.

Lemma sortLoop_flat_map products (l : list nat) : forall acc,
  fold_left (sortLoopBody products) l acc
  = acc ++ flat_map (violationAt products) l.
Proof.
  induction l as [|i l IH]; intros acc; cbn [fold_left flat_map].
  - by rewrite app_nil_r.
  - rewrite IH, sortLoopBody_app, app_assoc. reflexivity.
Qed.

Lemma violations_flat_map products :
  violations (generateSortViolationReport products)
  = flat_map (violationAt products) (seq 1 (length products - 1)).
Proof. unfold generateSortViolationReport. cbn [violations]. apply sortLoop_flat_map. Qed.

Lemma elem_of_violationAt products i v :
  v ∈ violationAt products i <->
  exists cur prev,
    products !! i = Some cur /\ products !! (i - 1) = Some prev
    /\ lt (price cur) (price prev) = true
    /\ v = mkViolation (i + 1) (name cur) (price cur) (name prev) (price prev).
Proof.
  unfold violationAt. split.
  - destruct (products !! i) as [cur|]; [|by intros ?%elem_of_nil].
    destruct (products !! (i - 1)) as [prev|]; [|by intros ?%elem_of_nil].
    destruct (lt (price cur) (price prev)) eqn:E; [|by intros ?%elem_of_nil].
    intros ->%list_elem_of_singleton. eauto 10.
  - intros (cur & prev & -> & -> & -> & ->). apply list_elem_of_singleton.
    reflexivity.
Qed.

Lemma elem_of_flat_map_violationAt products (l : list nat) v :
  v ∈ flat_map (violationAt products) l <->
  exists i, i ∈ l /\ v ∈ violationAt products i.
Proof.
  rewrite list_elem_of_In, in_flat_map.
  split; intros (i & Hi & Hv); exists i;
    rewrite ?list_elem_of_In in *; auto.
Qed.

(** Membership in the report: exactly the adjacent pairs whose second
    price is below the first. *)
Lemma elem_of_violations products v :
  v ∈ violations (generateSortViolationReport products) <->
  exists i cur prev,
    products !! i = Some prev /\ products !! (S i) = Some cur
    /\ lt (price cur) (price prev) = true
    /\ v = mkViolation (S i + 1) (name cur) (price cur)
                       (name prev) (price prev).
Proof.
  rewrite violations_flat_map, elem_of_flat_map_violationAt. split.
  - intros (j & Hj & Hv). apply elem_of_seq in Hj.
    apply elem_of_violationAt in Hv as (cur & prev & Hc & Hp & Hlt & ->).
    destruct j as [|i]; [lia|].
    replace (S i - 1) with i in Hp by lia. eauto 10.
  - intros (i & cur & prev & Hp & Hc & Hlt & ->). exists (S i). split.
    + apply elem_of_seq. apply lookup_lt_Some in Hc. lia.
    + apply elem_of_violationAt. exists cur, prev.
      replace (S i - 1) with i by lia. auto.
Qed.

Lemma positions_sorted products (n : nat) : forall a,
  StronglySorted Nat.lt
    (map position (flat_map (violationAt products) (seq a n)))
  /\ Forall (fun p => a < p)
       (map position (flat_map (violationAt products) (seq a n))).
Proof.
  induction n as [|n IH]; intros a; cbn [seq flat_map].
  - split; constructor.
  - destruct (IH (S a)) as [IHs IHf]. rewrite map_app.
    assert (Forall (fun p => p = a + 1) (map position (violationAt products a)))
      as Hhere.
    { unfold violationAt.
      destruct (products !! a); [|constructor].
      destruct (products !! (a - 1)); [|constructor].
      destruct (lt _ _); repeat constructor. }
    split.
    + apply StronglySorted_app_2; [| |exact IHs].
      * intros x1 x2 H1 H2.
        rewrite Forall_forall in Hhere, IHf.
        specialize (Hhere _ H1). specialize (IHf _ H2). unfold Nat.lt. lia.
      * unfold violationAt.
        destruct (products !! a); [|constructor].
        destruct (products !! (a - 1)); [|constructor].
        destruct (lt _ _); repeat constructor.
    + apply Forall_app. split.
      * eapply Forall_impl; [exact Hhere|]. intros p ->. lia.
      * eapply Forall_impl; [exact IHf|]. intros p Hp. cbv beta in *. lia.
Qed.

Lemma le_not_lt (x y : number) : le x y = true -> lt y x = false.
Proof.
  destruct x as [|nx|a], y as [|ny|b]; cbn; try done.
  - destruct nx, ny; done.
  - intros ->. reflexivity.
  - intros ->%negb_true_iff. reflexivity.
  - intros H%Qle_bool_iff. unfold Qltb.
    destruct (b ?= a)%Q eqn:E; try reflexivity.
    apply Qlt_alt in E. exfalso. apply (Qlt_not_le _ _ E H).
Qed.

Lemma nonDecreasing_lookup products :
  nonDecreasing products = true ->
  forall i prev cur,
    products !! i = Some prev -> products !! (S i) = Some cur ->
    le (price prev) (price cur) = true.
Proof.
  induction products as [|p rest IH]; intros Hs i prev cur Hp Hc; [done|].
  destruct rest as [|c rest']; [done|].
  cbn [nonDecreasing] in Hs. apply andb_true_iff in Hs as [Hle Hrest].
  destruct i as [|i].
  - simpl in Hp, Hc. by simplify_eq.
  - apply (IH Hrest i prev cur); assumption.
Qed.

Lemma nonDecreasing_no_violation products :
  nonDecreasing products = true ->
  violations (generateSortViolationReport products) = [].
Proof.
  intros Hs.
  destruct (violations (generateSortViolationReport products)) as [|v vs] eqn:E;
    [reflexivity|].
  assert (v ∈ violations (generateSortViolationReport products)) as Hv
    by (rewrite E; left).
  apply elem_of_violations in Hv as (i & cur & prev & Hp & Hc & Hlt & _).
  pose proof (nonDecreasing_lookup products Hs i prev cur Hp Hc) as Hle.
  apply le_not_lt in Hle. congruence.
Qed.

Lemma isCorrectlySorted_iff products :
  isCorrectlySorted (generateSortViolationReport products) = true
  <-> violations (generateSortViolationReport products) = [].
Proof.
  unfold generateSortViolationReport. cbn [isCorrectlySorted violations].
  rewrite Nat.eqb_eq. apply length_zero_iff_nil.
Qed.

End SortValidator.

(** C6: on a sequence sorted non-decreasingly by price (ties included),
    and on every empty or single-item sequence, the report says sorted
    with zero violations; and every recorded violation is an item whose
    price is strictly less than the price of its immediate predecessor. *)
Theorem sort_validator_strict_descents (products : list product) :
  (nonDecreasing products = true ->
     isCorrectlySorted (generateSortViolationReport products) = true
     /\ violations (generateSortViolationReport products) = []
     /\ violationsFound (generateSortViolationReport products) = 0)
  /\ (length products <= 1 ->
     isCorrectlySorted (generateSortViolationReport products) = true
     /\ violations (generateSortViolationReport products) = []
     /\ violationsFound (generateSortViolationReport products) = 0)
  /\ (forall v, v ∈ violations (generateSortViolationReport products) ->
      exists i cur prev,
        products !! i = Some prev /\ products !! (S i) = Some cur
        /\ productPrice v = price cur /\ previousProductPrice v = price prev
        /\ lt (price cur) (price prev) = true).
Proof.
  assert (nonDecreasing products = true ->
     isCorrectlySorted (generateSortViolationReport products) = true
     /\ violations (generateSortViolationReport products) = []
     /\ violationsFound (generateSortViolationReport products) = 0) as Hsorted.
  { intros Hs. pose proof (nonDecreasing_no_violation products Hs) as Hv.
    split; [by apply isCorrectlySorted_iff|]. split; [exact Hv|].
    unfold generateSortViolationReport in *. cbn [violationsFound violations] in *.
    by rewrite Hv. }
  split; [exact Hsorted|]. split.
  - intros Hlen. apply Hsorted.
    destruct products as [|p [|c rest]]; [reflexivity|reflexivity|].
    simpl in Hlen. lia.
  - intros v Hv.
    apply elem_of_violations in Hv as (i & cur & prev & Hp & Hc & Hlt & ->).
    exists i, cur, prev. cbn [productPrice previousProductPrice]. auto.
Qed.

Lemma sort_validator_strict_descents_witness :
  (isCorrectlySorted
     (generateSortViolationReport [priced 50; priced 50; priced 70]) = true
   /\ violations
        (generateSortViolationReport [priced 50; priced 50; priced 70]) = []
   /\ violationsFound
        (generateSortViolationReport [priced 50; priced 50; priced 70]) = 0)
  /\ (isCorrectlySorted (generateSortViolationReport [priced 5]) = true
      /\ violations (generateSortViolationReport [priced 5]) = []
      /\ violationsFound (generateSortViolationReport [priced 5]) = 0)
  /\ (exists i cur prev,
        [priced 100; priced 50; priced 200] !! i = Some prev
        /\ [priced 100; priced 50; priced 200] !! (S i) = Some cur
        /\ ofZ 50 = price cur /\ ofZ 100 = price prev
        /\ lt (price cur) (price prev) = true).
Proof.
  split; [|split].
  - apply (proj1 (sort_validator_strict_descents
                    [priced 50; priced 50; priced 70])).
    reflexivity.
  - apply (proj1 (proj2 (sort_validator_strict_descents [priced 5]))).
    simpl. lia.
  - apply (proj2 (proj2 (sort_validator_strict_descents
                           [priced 100; priced 50; priced 200]))
             (mkViolation 2 (lit "item") (ofZ 50) (lit "item") (ofZ 100))).
    apply list_elem_of_here.
Defined.

(** C7: the violations of the report are exactly the adjacent pairs
    (index [i], index [i + 1]) of the original sequence whose second price
    is below the first, each reported at the 1-based position of its
    second item; they come in left-to-right order.  Prices 100, 50, 200
    give one violation, at position 2, of 50 against 100; a later item is
    compared with its own predecessor only (100, 50, 70 flags 50 alone),
    and a run of descents flags every step (300, 200, 100). *)
Theorem sort_validator_adjacent_pairs (products : list product) :
  (forall v, v ∈ violations (generateSortViolationReport products) <->
     exists i cur prev,
       products !! i = Some prev /\ products !! (S i) = Some cur
       /\ lt (price cur) (price prev) = true
       /\ v = mkViolation (S i + 1) (name cur) (price cur)
                          (name prev) (price prev))
  /\ StronglySorted Nat.lt
       (map position (violations (generateSortViolationReport products)))
  /\ violations (generateSortViolationReport
                   [priced 100; priced 50; priced 200])
     = [ mkViolation 2 (lit "item") (ofZ 50) (lit "item") (ofZ 100) ]
  /\ violations (generateSortViolationReport
                   [priced 100; priced 50; priced 70])
     = [ mkViolation 2 (lit "item") (ofZ 50) (lit "item") (ofZ 100) ]
  /\ violations (generateSortViolationReport
                   [priced 300; priced 200; priced 100])
     = [ mkViolation 2 (lit "item") (ofZ 200) (lit "item") (ofZ 300);
         mkViolation 3 (lit "item") (ofZ 100) (lit "item") (ofZ 200) ].
Proof.
  split; [intros v; apply elem_of_violations|].
  split; [|vm_compute; repeat split; reflexivity].
  rewrite violations_flat_map. apply positions_sorted.
Qed.

(** C8: in every report, sorted is true exactly when there is no
    violation, the total is the length of the input, the count is the
    number of violations, and each violation has a position of at least 2
    and a current price strictly below the previous price. *)
Theorem sortReport_invariants (products : list product) :
  (isCorrectlySorted (generateSortViolationReport products) = true
   <-> violations (generateSortViolationReport products) = [])
  /\ totalProducts (generateSortViolationReport products) = length products
  /\ violationsFound (generateSortViolationReport products)
     = length (violations (generateSortViolationReport products))
  /\ Forall (fun v => 2 <= position v
                      /\ lt (productPrice v) (previousProductPrice v) = true)
       (violations (generateSortViolationReport products)).
Proof.
  split; [apply isCorrectlySorted_iff|].
  split; [reflexivity|]. split; [reflexivity|].
  apply Forall_forall. intros v Hv.
  apply elem_of_violations in Hv as (i & cur & prev & _ & _ & Hlt & ->).
  cbn [position productPrice previousProductPrice]. split; [lia|exact Hlt].
Qed.

(* ===================================================================== *)
(** ** Cart reconciliation *)
(* ===================================================================== *)

Lemma startsWith_spec (p s : jsstring) :
  startsWith p s = true <-> exists after, s = p ++ after.
Proof.
  revert s. induction p as [|a p IH]; intros s; cbn [startsWith].
  - split; [intros _; exists s; reflexivity|reflexivity].
  - destruct s as [|b s]; [split; [discriminate|intros [? ?]; discriminate]|].
    rewrite andb_true_iff, N.eqb_eq, IH. split.
    + intros [-> [after ->]]. exists after. reflexivity.
    + intros [after H]. injection H as -> ->. eauto.
Qed.

Lemma includes_spec (s p : jsstring) :
  includes s p = true <-> substringOf p s.
Proof.
  unfold substringOf. induction s as [|c s IH]; cbn [includes].
  - rewrite orb_false_r, startsWith_spec. split.
    + intros [after H]. exists [], after. exact H.
    + intros (before & after & H). symmetry in H.
      apply app_eq_nil in H as [-> H]. exists after. symmetry. exact H.
  - rewrite orb_true_iff, startsWith_spec, IH. split.
    + intros [[after H]|(before & after & H)].
      * exists [], after. exact H.
      * exists (c :: before), after. rewrite H. reflexivity.
    + intros (before & after & H). destruct before as [|b before].
      * left. exists after. exact H.
      * right. injection H as -> H. eauto.
Qed.

Lemma find_first {A} (f : A -> bool) (l : list A) (x : A) :
  List.find f l = Some x <->
  exists before after,
    l = before ++ x :: after /\ f x = true
    /\ Forall (fun y => f y = false) before.
Proof.
  induction l as [|a l IH]; cbn [List.find].
  - split; [discriminate|]. intros (before & after & H & _).
    destruct before; discriminate.
  - destruct (f a) eqn:E.
    + split.
      * intros [= ->]. exists [], l. auto.
      * intros (before & after & H & Hx & Hb).
        destruct before as [|b before]; [by injection H as ->|].
        injection H as -> _. apply Forall_inv in Hb. congruence.
    + rewrite IH. split.
      * intros (before & after & -> & Hx & Hb).
        exists (a :: before), after. auto.
      * intros (before & after & H & Hx & Hb).
        destruct before as [|b before]; [injection H as -> _; congruence|].
        injection H as -> ->. apply Forall_inv_tail in Hb. eauto.
Qed.

Lemma find_none_Forall {A} (f : A -> bool) (l : list A) :
  List.find f l = None <-> Forall (fun y => f y = false) l.
Proof.
  induction l as [|a l IH]; cbn [List.find]; [split; auto|].
  destruct (f a) eqn:E.
  - split; [discriminate|]. intros H%Forall_inv. congruence.
  - rewrite IH. split; [auto|apply Forall_inv_tail].
Qed.

Section Reconciliation.

Variable toLowerCase : jsstring -> jsstring.

Implicit Types (r : validationResult) (e item : product).

Lemma validateExpected_entry r e :
  validateExpected toLowerCase r e =
  let entry := entryFor toLowerCase (cartItems r) e in
  {| passed := passed r && isMatch entry;
     cartItems := cartItems r;
     expectedProducts := expectedProducts r;
     matches := matches r ++ (if isMatch entry then [entry] else []);
     mismatches := mismatches r ++ (if isMatch entry then [] else [entry]) |}.
Proof.
  unfold validateExpected, entryFor.
  destruct (findMatchingItem toLowerCase (cartItems r) e) as [m|].
  - destruct (priceMatch m e); cbn.
    + rewrite andb_true_r, app_nil_r. reflexivity.
    + rewrite andb_false_r, app_nil_r. reflexivity.
  - cbn. rewrite andb_false_r, app_nil_r. reflexivity.
Qed.

Lemma validateLoop (es : list product) : forall r,
  let entries := map (entryFor toLowerCase (cartItems r)) es in
  let r' := fold_left (validateExpected toLowerCase) es r in
  passed r' = passed r && forallb isMatch entries
  /\ cartItems r' = cartItems r
  /\ expectedProducts r' = expectedProducts r
  /\ matches r' = matches r ++ List.filter isMatch entries
  /\ mismatches r' =
     mismatches r ++ List.filter (fun x => negb (isMatch x)) entries.
Proof.
  induction es as [|e es IH]; intros r; cbn zeta.
  - cbn. rewrite andb_true_r, !app_nil_r. auto.
  - cbn [fold_left map forallb List.filter].
    specialize (IH (validateExpected toLowerCase r e)). cbn zeta in IH.
    rewrite validateExpected_entry in IH. cbn zeta in IH.
    cbn [passed cartItems expectedProducts matches mismatches] in IH.
    destruct IH as (Hp & Hc & He & Hm & Hmm).
    rewrite validateExpected_entry. cbn zeta.
    rewrite Hp, Hc, He, Hm, Hmm.
    destruct (isMatch (entryFor toLowerCase (cartItems r) e)); cbn [negb];
      rewrite <- ?app_assoc, ?andb_assoc; auto.
Qed.

Lemma validateCartContents_entries (scraped es : list product) :
  let entries := map (entryFor toLowerCase scraped) es in
  let r := validateCartContents toLowerCase scraped es in
  passed r = forallb isMatch entries
  /\ matches r = List.filter isMatch entries
  /\ mismatches r = List.filter (fun x => negb (isMatch x)) entries.
Proof.
  cbn zeta. unfold validateCartContents.
  destruct (validateLoop es
              {| passed := true; cartItems := scraped;
                 expectedProducts := es; matches := []; mismatches := [] |})
    as (Hp & _ & _ & Hm & Hmm).
  cbn [passed cartItems matches mismatches] in *. auto.
Qed.

Lemma nameMatches_spec e item :
  nameMatches toLowerCase e item = true <->
  substringOf (take 20 (toLowerCase (name e))) (toLowerCase (name item))
  \/ substringOf (take 20 (toLowerCase (name item))) (toLowerCase (name e)).
Proof.
  unfold nameMatches, substring0.
  rewrite orb_true_iff, !includes_spec. reflexivity.
Qed.

End Reconciliation.

Lemma elem_of_entries (toLowerCase : jsstring -> jsstring)
    (scraped es : list product) (e : product) :
  e ∈ es ->
  let entry := entryFor toLowerCase scraped e in
  let r := validateCartContents toLowerCase scraped es in
  if isMatch entry then entry ∈ matches r
  else entry ∈ mismatches r /\ passed r = false.
Proof.
  intros He. cbn zeta.
  destruct (validateCartContents_entries toLowerCase scraped es)
    as (Hp & Hm & Hmm).
  assert (In (entryFor toLowerCase scraped e)
             (map (entryFor toLowerCase scraped) es)) as Hin
    by (apply in_map, list_elem_of_In, He).
  destruct (isMatch (entryFor toLowerCase scraped e)) eqn:E.
  - rewrite Hm. apply list_elem_of_In, filter_In. auto.
  - split.
    + rewrite Hmm. apply list_elem_of_In, filter_In. by rewrite E.
    + rewrite Hp. apply not_true_is_false. intros Hall.
      rewrite forallb_forall in Hall. specialize (Hall _ Hin). congruence.
Qed.

(** C4: an item of the cart is a candidate for an expected item when the
    first 20 code units of one lower-cased name occur in the other
    lower-cased name, either way round; the entry recorded for the
    expected item carries the first candidate in cart order; and when the
    cart has no candidate the entry is NOT_FOUND, among the mismatches,
    and the result has not passed. *)
Theorem cart_reconciliation_first_match
    (toLowerCase : jsstring -> jsstring)
    (scraped expectedProducts : list product) (e : product) :
  e ∈ expectedProducts ->
  (forall item,
     nameMatches toLowerCase e item = true <->
     substringOf (take 20 (toLowerCase (name e))) (toLowerCase (name item))
     \/ substringOf (take 20 (toLowerCase (name item)))
                    (toLowerCase (name e)))
  /\ (forall before item after,
        scraped = before ++ item :: after ->
        nameMatches toLowerCase e item = true ->
        Forall (fun x => nameMatches toLowerCase e x = false) before ->
        exists entry,
          entry ∈ matches (validateCartContents toLowerCase scraped
                             expectedProducts)
                  ++ mismatches (validateCartContents toLowerCase scraped
                                   expectedProducts)
          /\ expected entry = e /\ actual entry = Some item
          /\ (status entry = MATCH \/ status entry = PRICE_MISMATCH))
  /\ (Forall (fun x => nameMatches toLowerCase e x = false) scraped ->
        passed (validateCartContents toLowerCase scraped expectedProducts)
        = false
        /\ mkEntry e None NOT_FOUND (Some (notFoundMessage e))
           ∈ mismatches (validateCartContents toLowerCase scraped
                           expectedProducts)).
Proof.
  intros He.
  pose proof (elem_of_entries toLowerCase scraped expectedProducts e He) as H.
  cbn zeta in H.
  split; [intros item; apply nameMatches_spec|]. split.
  - intros before item after Hs Hm Hb.
    assert (findMatchingItem toLowerCase scraped e = Some item) as Hfind
      by (apply find_first; eauto).
    exists (entryFor toLowerCase scraped e).
    unfold entryFor in *. rewrite Hfind in *.
    destruct (priceMatch item e); cbn in H |- *.
    + split; [apply elem_of_app; left; exact H|auto].
    + split; [apply elem_of_app; right; apply H|auto].
  - intros Hnone. apply find_none_Forall in Hnone.
    unfold entryFor, findMatchingItem in H. rewrite Hnone in H.
    cbn in H. destruct H as [Hin Hp]. auto.
Qed.

Lemma cart_reconciliation_first_match_witness :
  passed (validateCartContents asciiLower
            [mkProduct (lit "Nike Air Shoes") (ofZ 1500)]
            [mkProduct (lit "Puma Sneakers") (ofZ 2000)]) = false
  /\ mkEntry (mkProduct (lit "Puma Sneakers") (ofZ 2000)) None NOT_FOUND
       (Some (notFoundMessage (mkProduct (lit "Puma Sneakers") (ofZ 2000))))
     ∈ mismatches (validateCartContents asciiLower
                     [mkProduct (lit "Nike Air Shoes") (ofZ 1500)]
                     [mkProduct (lit "Puma Sneakers") (ofZ 2000)]).
Proof.
  apply (proj2 (proj2 (cart_reconciliation_first_match asciiLower
           [mkProduct (lit "Nike Air Shoes") (ofZ 1500)]
           [mkProduct (lit "Puma Sneakers") (ofZ 2000)]
           (mkProduct (lit "Puma Sneakers") (ofZ 2000))
           (list_elem_of_here _ _)))).
  repeat constructor.
Defined.

Lemma Qltb_lt (a b : Q) : Qltb a b = true <-> (a < b)%Q.
Proof.
  unfold Qltb. rewrite Qlt_alt.
  destruct (a ?= b)%Q; split; congruence.
Qed.

(** Whole numbers up to [2^53] in absolute value are binary64 values,
    and the operations of the program on them are exact as long as the
    result stays in that range. *)
Lemma round64_whole (z : Z) :
  (Z.abs z <= 2 ^ 53)%Z -> round64 (inject_Z z) = ofZ z.
Proof.
  intros Hz. destruct z as [|p|p]; [reflexivity| |].
  - apply (nearest_exact (N.pos p)). lia.
  - assert (nearest (N.pos p) = ofN (N.pos p)) as H
      by (apply nearest_exact; lia).
    unfold nearest in H. cbn [Z.of_N] in H. rewrite round64_pos in H.
    unfold round64. rewrite Qred_inject_Z. cbn [Qnum Qden inject_Z].
    rewrite H. unfold neg, ofN, ofZ. f_equal.
    apply Qred_eq_inject_Z. reflexivity.
Qed.

Lemma sub_whole (a b : Z) :
  (Z.abs (a - b) <= 2 ^ 53)%Z -> sub (ofZ a) (ofZ b) = ofZ (a - b).
Proof.
  intros H. unfold sub, neg, add, ofZ.
  rewrite (round64_Qeq _ (inject_Z (a - b))); [apply round64_whole, H|].
  rewrite Qred_correct. unfold Qeq. cbn [Qnum Qden inject_Z Qplus Qopp].
  lia.
Qed.

Lemma add_whole_Z (a b : Z) :
  (Z.abs (a + b) <= 2 ^ 53)%Z -> add (ofZ a) (ofZ b) = ofZ (a + b).
Proof.
  intros H. unfold add, ofZ.
  rewrite (round64_Qeq _ (inject_Z (a + b))); [apply round64_whole, H|].
  unfold Qeq. cbn [Qnum Qden inject_Z Qplus]. lia.
Qed.

Lemma abs_whole (z : Z) : abs (ofZ z) = ofZ (Z.abs z).
Proof.
  unfold abs, ofZ. f_equal. apply Qred_eq_inject_Z.
  destruct z; reflexivity.
Qed.

Lemma lt_whole (x y : Z) : lt (ofZ x) (ofZ y) = true <-> (x < y)%Z.
Proof.
  unfold lt, ofZ. rewrite Qltb_lt, <- Zlt_Qlt. reflexivity.
Qed.

Lemma le_whole (x y : Z) : le (ofZ x) (ofZ y) = true <-> (x <= y)%Z.
Proof.
  unfold le, ofZ. rewrite Qle_bool_iff, <- Zle_Qle. reflexivity.
Qed.

Lemma strictEquals_whole (x y : Z) :
  strictEquals (ofZ x) (ofZ y) = true <-> x = y.
Proof.
  unfold strictEquals, ofZ. rewrite Qeq_bool_iff.
  unfold Qeq. cbn [Qnum Qden inject_Z]. lia.
Qed.

Lemma priceMatch_whole (n1 n2 : jsstring) (a b : N) :
  (a <= 2 ^ 53)%N -> (b <= 2 ^ 53)%N ->
  priceMatch (mkProduct n1 (ofN a)) (mkProduct n2 (ofN b)) = true
  <-> (Z.abs (Z.of_N a - Z.of_N b) < 100)%Z \/ b = 0%N.
Proof.
  intros Ha Hb. unfold priceMatch. cbn [price].
  change (ofN a) with (ofZ (Z.of_N a)). change (ofN b) with (ofZ (Z.of_N b)).
  rewrite sub_whole by lia. rewrite abs_whole, orb_true_iff.
  rewrite lt_whole, strictEquals_whole. split; intros [H|H]; auto; right; lia.
Qed.

(** C5: for an expected item with a candidate, the verdict is MATCH
    exactly when the absolute price difference, as the program computes
    it, is below 100 or the expected price is 0, and PRICE_MISMATCH
    otherwise; on whole prices up to 2^53 the computed difference is the
    exact one; an expected price of 10^-20 against 100 is no match, the
    difference being rounded to 100; the entries of the
    result are those of the expected items taken one by one, the MATCH
    ones in [matches], the others in [mismatches]; and the result has
    passed exactly when every expected item has the verdict MATCH. *)
Theorem cart_reconciliation_price_verdict
    (toLowerCase : jsstring -> jsstring)
    (scraped expectedProducts : list product) :
  (forall e item,
     findMatchingItem toLowerCase scraped e = Some item ->
     (status (entryFor toLowerCase scraped e) = MATCH <->
      lt (abs (sub (price item) (price e))) (ofZ 100) = true
      \/ strictEquals (price e) (ofZ 0) = true)
     /\ (status (entryFor toLowerCase scraped e) <> MATCH ->
         status (entryFor toLowerCase scraped e) = PRICE_MISMATCH)
     /\ actual (entryFor toLowerCase scraped e) = Some item)
  /\ (forall (n1 n2 : jsstring) (a b : N),
        (a <= 2 ^ 53)%N -> (b <= 2 ^ 53)%N ->
        priceMatch (mkProduct n1 (ofN a)) (mkProduct n2 (ofN b)) = true
        <-> (Z.abs (Z.of_N a - Z.of_N b) < 100)%Z \/ b = 0%N)
  /\ priceMatch (mkProduct [] (ofZ 100))
       (mkProduct [] (literal (1 # 10 ^ 20))) = false
  /\ matches (validateCartContents toLowerCase scraped expectedProducts)
     = List.filter isMatch
         (map (entryFor toLowerCase scraped) expectedProducts)
  /\ mismatches (validateCartContents toLowerCase scraped expectedProducts)
     = List.filter (fun x => negb (isMatch x))
         (map (entryFor toLowerCase scraped) expectedProducts)
  /\ (passed (validateCartContents toLowerCase scraped expectedProducts)
      = true
      <-> forall e, e ∈ expectedProducts ->
                    status (entryFor toLowerCase scraped e) = MATCH).
Proof.
  destruct (validateCartContents_entries toLowerCase scraped expectedProducts)
    as (Hp & Hm & Hmm).
  split; [|split; [exact priceMatch_whole|split; [vm_compute; reflexivity|
           split; [exact Hm|split; [exact Hmm|]]]]].
  - intros e item Hfind. unfold entryFor. rewrite Hfind.
    change (lt (abs (sub (price item) (price e))) (ofZ 100)
            || strictEquals (price e) (ofZ 0)) with (priceMatch item e).
    fold (priceMatch item e).
    assert (lt (abs (sub (price item) (price e))) (ofZ 100) = true
            \/ strictEquals (price e) (ofZ 0) = true
            <-> priceMatch item e = true) as ->
      by (unfold priceMatch; rewrite orb_true_iff; reflexivity).
    destruct (priceMatch item e); cbn; repeat split; try done.
  - rewrite Hp, forallb_forall. split.
    + intros Hall e He.
      specialize (Hall (entryFor toLowerCase scraped e)
                    (in_map _ _ _ (proj1 (list_elem_of_In _ _) He))).
      unfold isMatch in Hall.
      destruct (status (entryFor toLowerCase scraped e)); done.
    + intros Hall entry Hin. apply in_map_iff in Hin as (e & <- & He).
      unfold isMatch. rewrite (Hall e); [reflexivity|].
      apply list_elem_of_In, He.
Qed.

Lemma cart_reconciliation_price_verdict_witness :
  status (entryFor asciiLower
            [mkProduct (lit "Nike Air Shoes Running") (ofZ 1550)]
            (mkProduct (lit "Nike Air Shoes") (ofZ 1500))) = MATCH
  /\ status (entryFor asciiLower
               [mkProduct (lit "Nike Air Shoes Running") (ofZ 99999)]
               (mkProduct (lit "Nike Air Shoes") (ofZ 0))) = MATCH.
Proof.
  split.
  - apply (proj1 (cart_reconciliation_price_verdict asciiLower
             [mkProduct (lit "Nike Air Shoes Running") (ofZ 1550)]
             [mkProduct (lit "Nike Air Shoes") (ofZ 1500)])
             (mkProduct (lit "Nike Air Shoes") (ofZ 1500))
             (mkProduct (lit "Nike Air Shoes Running") (ofZ 1550))
             eq_refl).
    left. vm_compute. reflexivity.
  - apply (proj1 (cart_reconciliation_price_verdict asciiLower
             [mkProduct (lit "Nike Air Shoes Running") (ofZ 99999)]
             [mkProduct (lit "Nike Air Shoes") (ofZ 0)])
             (mkProduct (lit "Nike Air Shoes") (ofZ 0))
             (mkProduct (lit "Nike Air Shoes Running") (ofZ 99999))
             eq_refl).
    right. vm_compute. reflexivity.
Defined.

(* ===================================================================== *)
(** ** Total comparison *)
(* ===================================================================== *)

(** The literal [0.1], and the comparison of the two sides of
    [validateTotal] on whole totals: a product with [0.1] is rounded, but
    never across a whole number of tenths. *)
Lemma literal_tenth :
  literal (1 # 10) = Fin (3602879701896397 # 36028797018963968).
Proof. vm_compute. reflexivity. Qed.

Lemma withinTolerance_whole (d e : N) :
  (d <= 2 ^ 32)%N -> (e <= 2 ^ 32)%N ->
  withinTolerance (ofN d) (ofN e) (literal (1 # 10)) = true
  <-> (10 * Z.abs (Z.of_N d - Z.of_N e) <= Z.of_N e)%Z.
Proof.
  intros Hd He. unfold withinTolerance.
  change (ofN d) with (ofZ (Z.of_N d)). change (ofN e) with (ofZ (Z.of_N e)).
  rewrite sub_whole by lia. rewrite abs_whole, literal_tenth.
  set (k := Z.abs (Z.of_N d - Z.of_N e)).
  assert (0 <= k <= 2 ^ 32)%Z as Hk by (unfold k; lia).
  unfold ofZ at 2. cbn [mul].
  set (x := (inject_Z (Z.of_N e)
             * (3602879701896397 # 36028797018963968))%Q).
  assert (0 <= inject_Z (Z.of_N e) <= 4294967296)%Q as HeQ.
  { split; [change 0%Q with (inject_Z 0)
           |change 4294967296%Q with (inject_Z (2 ^ 32))];
      rewrite <- Zle_Qle; lia. }
  split.
  - (* accepted: the exact product is above [k - 1/32], a binary64
       value below [k] *)
    intros Hle.
    destruct (Z.le_gt_cases (10 * k) (Z.of_N e)) as [|Hgt]; [assumption|].
    exfalso.
    assert (inject_Z (Z.of_N e) <= 10 * inject_Z k - 1)%Q as Hke.
    { unfold Qle, Qminus, Qplus, Qmult, Qopp. cbn [Qnum Qden inject_Z].
      lia. }
    set (y := ((32 * k - 1) # 32)%Q).
    assert (y == inject_Z k - (1 # 32))%Q as Hy.
    { unfold y, Qeq, Qminus, Qplus, Qopp. cbn [Qnum Qden inject_Z]. lia. }
    assert (x <= y)%Q as Hxy by (rewrite Hy; unfold x; lra).
    pose proof (round64_mono x y Hxy) as Hmono.
    rewrite (round64_dyadic (32 * k - 1) (-5) y) in Hmono.
    + pose proof (le_trans_number _ _ _ Hle Hmono) as H.
      cbn [le ofZ] in H. apply Qle_bool_iff in H.
      rewrite Qred_correct, Hy in H. lra.
    + lia.
    + lia.
    + assert (Z.log2 (32 * k - 1) <= Z.log2 (2 ^ 53))%Z
        by (apply Z.log2_le_mono; lia).
      change (Z.log2 (2 ^ 53)) with 53%Z in *. lia.
    + change (pow2 (-5)) with (1 # 32)%Q.
      unfold y, Qeq, Qmult. cbn [Qnum Qden inject_Z]. lia.
  - (* rejected only if the exact product is below [k] *)
    intros H10.
    assert (10 * inject_Z k <= inject_Z (Z.of_N e))%Q as Hke.
    { change 10%Q with (inject_Z 10).
      rewrite <- inject_Z_mult, <- Zle_Qle. lia. }
    assert (inject_Z k <= x)%Q as Hkx by (unfold x; lra).
    pose proof (round64_mono _ _ Hkx) as Hmono.
    rewrite round64_whole in Hmono by lia. exact Hmono.
Qed.

(** C3, refuted as stated: with the ratio 0.15 asked for by a caller,
    totals of 1120 against an expected 1000 are within tolerance
    (120 <= 150), while [validateTotal], which has no such parameter,
    answers false on both sides (120 > 100). *)
Lemma validateTotal_ignores_caller_ratio :
  compareTotal_spec (ofZ 1120) (ofZ 1120) (ofZ 1000) (literal (15 # 100))
  = (true, true)
  /\ isDisplayedCorrect
       (validateTotal (ofZ 1120) [priced 1120] (ofZ 1000)) = false
  /\ isCalculatedCorrect
       (validateTotal (ofZ 1120) [priced 1120] (ofZ 1000)) = false.
Proof. vm_compute. repeat split; reflexivity. Qed.

(** C3, amended: [validateTotal] takes the expected total only and fixes
    the tolerance ratio at 0.1; each within-tolerance boolean is
    [|total - expected| <= expected * 0.1], for the displayed total and
    for the total calculated from the cart items, the difference and the
    product being those of binary64; on whole totals up to 2^32 this is
    [10 * |total - expected| <= expected]; totals of 1080 against 1000
    are within tolerance, totals of 1200 are not. *)
Theorem validateTotal_fixed_tolerance
    (displayed : number) (scraped : list product) (expected : number) :
  isDisplayedCorrect (validateTotal displayed scraped expected)
  = withinTolerance displayed expected (literal (1 # 10))
  /\ isCalculatedCorrect (validateTotal displayed scraped expected)
     = withinTolerance (calculateTotal (map price scraped)) expected
         (literal (1 # 10))
  /\ (forall d e : N,
        (d <= 2 ^ 32)%N -> (e <= 2 ^ 32)%N ->
        withinTolerance (ofN d) (ofN e) (literal (1 # 10)) = true
        <-> (10 * Z.abs (Z.of_N d - Z.of_N e) <= Z.of_N e)%Z)
  /\ isDisplayedCorrect (validateTotal (ofZ 1080) [priced 1080] (ofZ 1000))
     = true
  /\ isCalculatedCorrect (validateTotal (ofZ 1080) [priced 1080] (ofZ 1000))
     = true
  /\ isDisplayedCorrect (validateTotal (ofZ 1200) [priced 1200] (ofZ 1000))
     = false
  /\ isCalculatedCorrect (validateTotal (ofZ 1200) [priced 1200] (ofZ 1000))
     = false.
Proof.
  split; [reflexivity|]. split; [reflexivity|].
  split; [exact withinTolerance_whole|].
  vm_compute. repeat split; reflexivity.
Qed.

(* ===================================================================== *)
(** ** validateAscendingOrder *)
(* ===================================================================== *)

Import Scrape.

Lemma lookup_map {A B} (f : A -> B) (l : list A) (i : nat) :
  map f l !! i = option_map f (l !! i).
Proof.
  revert i. induction l as [|a l IH]; intros [|i]; cbn; auto.
Qed.

Lemma orderLoopBody_app prices (st : bool * list AscendingOrder.priceViolation) i :
  AscendingOrder.orderLoopBody prices st i
  = (fst st && isNil (orderViolationAt prices i),
     snd st ++ orderViolationAt prices i).
Proof.
  unfold AscendingOrder.orderLoopBody, orderViolationAt. destruct st as [b acc].
  cbn [fst snd].
  destruct (prices !! i) as [cur|];
    [|by rewrite andb_true_r, app_nil_r].
  destruct (prices !! (i - 1)) as [prev|];
    [|by rewrite andb_true_r, app_nil_r].
  destruct (lt cur prev); cbn [isNil].
  - by rewrite andb_false_r.
  - by rewrite andb_true_r, app_nil_r.
Qed.

Lemma orderLoop_flat_map prices (l : list nat) : forall st,
  fold_left (AscendingOrder.orderLoopBody prices) l st
  = (fst st && isNil (flat_map (orderViolationAt prices) l),
     snd st ++ flat_map (orderViolationAt prices) l).
Proof.
  induction l as [|i l IH]; intros [b acc]; cbn [fold_left flat_map fst snd].
  - by rewrite andb_true_r, app_nil_r.
  - rewrite IH, orderLoopBody_app. cbn [fst snd].
    rewrite <- app_assoc, <- andb_assoc. f_equal. f_equal.
    destruct (orderViolationAt prices i); reflexivity.
Qed.

Lemma validateAscendingOrder_flat_map prices :
  AscendingOrder.validateAscendingOrder prices
  = let vs := flat_map (orderViolationAt prices) (seq 1 (length prices - 1)) in
    AscendingOrder.mkOrderResult (isNil vs) vs (length prices) (length vs).
Proof.
  unfold AscendingOrder.validateAscendingOrder.
  rewrite orderLoop_flat_map. reflexivity.
Qed.

Lemma elem_of_orderViolationAt prices i v :
  v ∈ orderViolationAt prices i <->
  exists cur prev,
    prices !! i = Some cur /\ prices !! (i - 1) = Some prev
    /\ lt cur prev = true
    /\ v = AscendingOrder.mkPriceViolation i prev cur
             (AscendingOrder.violationMessage i cur prev).
Proof.
  unfold orderViolationAt. split.
  - destruct (prices !! i) as [cur|]; [|by intros ?%elem_of_nil].
    destruct (prices !! (i - 1)) as [prev|]; [|by intros ?%elem_of_nil].
    destruct (lt cur prev) eqn:E; [|by intros ?%elem_of_nil].
    intros ->%list_elem_of_singleton. eauto 10.
  - intros (cur & prev & -> & -> & -> & ->). apply list_elem_of_singleton.
    reflexivity.
Qed.

Lemma orderIndices_sorted prices (n : nat) : forall a,
  StronglySorted Nat.lt
    (map AscendingOrder.index (flat_map (orderViolationAt prices) (seq a n)))
  /\ Forall (fun p => a <= p)
       (map AscendingOrder.index
          (flat_map (orderViolationAt prices) (seq a n))).
Proof.
  induction n as [|n IH]; intros a; cbn [seq flat_map].
  - split; constructor.
  - destruct (IH (S a)) as [IHs IHf]. rewrite map_app.
    assert (Forall (fun p => p = a)
              (map AscendingOrder.index (orderViolationAt prices a))) as Hhere.
    { unfold orderViolationAt.
      destruct (prices !! a); [|constructor].
      destruct (prices !! (a - 1)); [|constructor].
      destruct (lt _ _); repeat constructor. }
    split.
    + apply StronglySorted_app_2; [| |exact IHs].
      * intros x1 x2 H1 H2. rewrite Forall_forall in Hhere, IHf.
        specialize (Hhere _ H1). specialize (IHf _ H2). unfold Nat.lt. lia.
      * unfold orderViolationAt.
        destruct (prices !! a); [|constructor].
        destruct (prices !! (a - 1)); [|constructor].
        destruct (lt _ _); repeat constructor.
    + apply Forall_app. split.
      * eapply Forall_impl; [exact Hhere|]. intros p ->. lia.
      * eapply Forall_impl; [exact IHf|]. intros p Hp. cbv beta in *. lia.
Qed.

(** X1: the result of [validateAscendingOrder] is valid exactly when it
    lists no violation, counts its violations and the prices, and lists
    exactly the adjacent pairs with a strict descent, each at the index of
    its second price, in increasing order of index. *)
Theorem validateAscendingOrder_characterised (prices : list number) :
  (AscendingOrder.isValid (AscendingOrder.validateAscendingOrder prices) = true
   <-> AscendingOrder.violations
         (AscendingOrder.validateAscendingOrder prices) = [])
  /\ AscendingOrder.totalProducts (AscendingOrder.validateAscendingOrder prices)
     = length prices
  /\ AscendingOrder.violationCount
       (AscendingOrder.validateAscendingOrder prices)
     = length (AscendingOrder.violations
                 (AscendingOrder.validateAscendingOrder prices))
  /\ (forall v,
        v ∈ AscendingOrder.violations
              (AscendingOrder.validateAscendingOrder prices)
        <-> exists i prev cur,
              prices !! i = Some prev /\ prices !! (S i) = Some cur
              /\ lt cur prev = true
              /\ v = AscendingOrder.mkPriceViolation (S i) prev cur
                       (AscendingOrder.violationMessage (S i) cur prev))
  /\ StronglySorted Nat.lt
       (map AscendingOrder.index
          (AscendingOrder.violations
             (AscendingOrder.validateAscendingOrder prices))).
Proof.
  rewrite validateAscendingOrder_flat_map. cbn zeta.
  cbn [AscendingOrder.isValid AscendingOrder.violations
       AscendingOrder.totalProducts AscendingOrder.violationCount].
  split; [|split; [reflexivity|split; [reflexivity|split]]].
  - destruct (flat_map _ _); cbn; split; congruence.
  - intros v. rewrite list_elem_of_In, in_flat_map. split.
    + intros (j & Hj & Hv). apply in_seq in Hj.
      apply list_elem_of_In, elem_of_orderViolationAt in Hv
        as (cur & prev & Hc & Hp & Hlt & ->).
      destruct j as [|i]; [lia|].
      replace (S i - 1) with i in Hp by lia. eauto 10.
    + intros (i & prev & cur & Hp & Hc & Hlt & ->). exists (S i). split.
      * apply in_seq. apply lookup_lt_Some in Hc. lia.
      * apply list_elem_of_In, elem_of_orderViolationAt. exists cur, prev.
        replace (S i - 1) with i by lia. auto.
  - apply orderIndices_sorted.
Qed.

Lemma violationAt_prices products i :
  map (fun v => (AscendingOrder.index v + 1,
                 AscendingOrder.currentPrice v,
                 AscendingOrder.previousPrice v))
      (orderViolationAt (map price products) i)
  = map (fun v => (position v, productPrice v, previousProductPrice v))
        (violationAt products i).
Proof.
  unfold orderViolationAt, violationAt. rewrite !lookup_map.
  destruct (products !! i) as [cur|]; [|reflexivity].
  destruct (products !! (i - 1)) as [prev|]; [|reflexivity].
  cbn [option_map]. destruct (lt (price cur) (price prev)); reflexivity.
Qed.

Lemma map_flat_map {A B C} (g : B -> C) (f : A -> list B) (l : list A) :
  map g (flat_map f l) = flat_map (fun a => map g (f a)) l.
Proof.
  induction l as [|a l IH]; [reflexivity|].
  cbn [flat_map]. rewrite map_app, IH. reflexivity.
Qed.

Lemma flat_map_ext' {A B} (f g : A -> list B) (l : list A) :
  (forall a, f a = g a) -> flat_map f l = flat_map g l.
Proof.
  intros H. induction l as [|a l IH]; [reflexivity|].
  cbn [flat_map]. rewrite H, IH. reflexivity.
Qed.

(** X2: the two sort validators agree.  On the prices of a list of
    products, [validateAscendingOrder] is valid exactly when
    [generateSortViolationReport] says correctly sorted, and it lists the
    same violations: the same pairs of prices, with [index + 1] equal to
    the reported position. *)
Theorem sort_validators_agree (products : list product) :
  AscendingOrder.isValid
    (AscendingOrder.validateAscendingOrder (map price products))
  = isCorrectlySorted (generateSortViolationReport products)
  /\ map (fun v => (AscendingOrder.index v + 1,
                    AscendingOrder.currentPrice v,
                    AscendingOrder.previousPrice v))
         (AscendingOrder.violations
            (AscendingOrder.validateAscendingOrder (map price products)))
     = map (fun v => (position v, productPrice v, previousProductPrice v))
           (violations (generateSortViolationReport products)).
Proof.
  assert (map (fun v => (AscendingOrder.index v + 1,
                    AscendingOrder.currentPrice v,
                    AscendingOrder.previousPrice v))
         (AscendingOrder.violations
            (AscendingOrder.validateAscendingOrder (map price products)))
     = map (fun v => (position v, productPrice v, previousProductPrice v))
           (violations (generateSortViolationReport products))) as Hsame.
  { rewrite validateAscendingOrder_flat_map, violations_flat_map. cbn zeta.
    cbn [AscendingOrder.violations]. rewrite !map_flat_map, length_map.
    apply flat_map_ext'. intros i. apply violationAt_prices. }
  split; [|exact Hsame].
  apply (f_equal (@length _)) in Hsame. rewrite !length_map in Hsame.
  rewrite validateAscendingOrder_flat_map in *. cbn zeta in *.
  cbn [AscendingOrder.isValid AscendingOrder.violations] in *.
  unfold generateSortViolationReport in *.
  cbn [isCorrectlySorted violations] in *.
  rewrite <- Hsame. destruct (flat_map _ _); reflexivity.
Qed.

(* ===================================================================== *)
(** ** Sortedness of the whole sequence *)
(* ===================================================================== *)

Lemma le_refl_number (x : number) : isNaN x = false -> le x x = true.
Proof.
  destruct x as [|n|a]; cbn; [discriminate| |].
  - intros _. destruct n; reflexivity.
  - intros _. apply Qle_bool_iff, Qle_refl.
Qed.

Lemma lt_false_le (x y : number) :
  isNaN x = false -> isNaN y = false -> lt y x = false -> le x y = true.
Proof.
  destruct x as [|[]|a], y as [|[]|b]; cbn; try done.
  intros _ _ H. apply Qle_bool_iff. apply Qnot_lt_le. intros Hlt.
  apply Qltb_lt in Hlt. congruence.
Qed.

Lemma nonDecreasing_intro (products : list product) :
  (forall i prev cur,
     products !! i = Some prev -> products !! (S i) = Some cur ->
     le (price prev) (price cur) = true) ->
  nonDecreasing products = true.
Proof.
  induction products as [|p rest IH]; intros H; [reflexivity|].
  destruct rest as [|c rest']; [reflexivity|].
  cbn [nonDecreasing]. apply andb_true_iff. split.
  - apply (H 0 p c); reflexivity.
  - apply IH. intros i prev cur Hp Hc. apply (H (S i) prev cur); assumption.
Qed.

Lemma nonDecreasing_global (products : list product) :
  nonDecreasing products = true ->
  noNaN (map price products) ->
  forall d i a b,
    products !! i = Some a -> products !! (i + d) = Some b ->
    le (price a) (price b) = true.
Proof.
  intros Hs Hn. induction d as [|d IH]; intros i a b Ha Hb.
  - rewrite Nat.add_0_r in Hb. assert (a = b) as -> by congruence.
    apply le_refl_number. unfold noNaN in Hn. rewrite Forall_forall in Hn.
    apply Hn. apply list_elem_of_In, in_map.
    apply list_elem_of_In, list_elem_of_lookup. eauto.
  - assert (is_Some (products !! (i + d))) as [m Hm].
    { apply lookup_lt_is_Some. apply lookup_lt_Some in Hb. lia. }
    apply (le_trans_number _ (price m)); [apply (IH i a m Ha Hm)|].
    apply (nonDecreasing_lookup products Hs (i + d) m b Hm).
    replace (S (i + d)) with (i + S d) by lia. exact Hb.
Qed.

Lemma isCorrectlySorted_nonDecreasing (products : list product) :
  noNaN (map price products) ->
  isCorrectlySorted (generateSortViolationReport products)
  = nonDecreasing products.
Proof.
  intros Hn.
  assert (isCorrectlySorted (generateSortViolationReport products) = true ->
          nonDecreasing products = true) as Hconv.
  { intros Hs. apply isCorrectlySorted_iff in Hs.
    apply nonDecreasing_intro. intros i prev cur Hp Hc.
    unfold noNaN in Hn. rewrite Forall_forall in Hn.
    assert (isNaN (price prev) = false) as Hprev.
    { apply Hn, list_elem_of_In, in_map, list_elem_of_In.
      apply list_elem_of_lookup. eauto. }
    assert (isNaN (price cur) = false) as Hcur.
    { apply Hn, list_elem_of_In, in_map, list_elem_of_In.
      apply list_elem_of_lookup. eauto. }
    apply lt_false_le; [exact Hprev|exact Hcur|].
    destruct (lt (price cur) (price prev)) eqn:E; [|reflexivity].
    exfalso.
    assert (mkViolation (S i + 1) (name cur) (price cur) (name prev)
              (price prev)
            ∈ violations (generateSortViolationReport products)) as Hin
      by (apply elem_of_violations; eauto 10).
    rewrite Hs in Hin. by apply elem_of_nil in Hin. }
  destruct (nonDecreasing products) eqn:E.
  - apply isCorrectlySorted_iff, nonDecreasing_no_violation, E.
  - destruct (isCorrectlySorted _) eqn:E'; [|reflexivity].
    specialize (Hconv eq_refl). congruence.
Qed.

(** X3: when no price is NaN, the report says correctly sorted exactly
    when the sequence is non-decreasing, and then the whole sequence is in
    order: every item is priced at most as every later item. *)
Theorem sorted_report_is_sorted (products : list product) :
  noNaN (map price products) ->
  isCorrectlySorted (generateSortViolationReport products)
  = nonDecreasing products
  /\ (isCorrectlySorted (generateSortViolationReport products) = true ->
      forall i j a b,
        i <= j -> products !! i = Some a -> products !! j = Some b ->
        le (price a) (price b) = true).
Proof.
  intros Hn.
  pose proof (isCorrectlySorted_nonDecreasing products Hn) as Heq.
  split; [exact Heq|].
  intros Hs i j a b Hij Ha Hb. rewrite Heq in Hs.
  apply (nonDecreasing_global products Hs Hn (j - i) i a b Ha).
  replace (i + (j - i)) with j by lia. exact Hb.
Qed.

Lemma sorted_report_is_sorted_witness :
  isCorrectlySorted
    (generateSortViolationReport [priced 50; priced 50; priced 70])
  = nonDecreasing [priced 50; priced 50; priced 70].
Proof.
  apply (proj1 (sorted_report_is_sorted [priced 50; priced 50; priced 70]
                  ltac:(repeat constructor))).
Defined.

(* ===================================================================== *)
(** ** Totals *)
(* ===================================================================== *)

Lemma add_whole (a b : N) :
  (a + b <= 2 ^ 53)%N -> add (ofN a) (ofN b) = ofN (a + b).
Proof.
  intros H. change (ofN a) with (ofZ (Z.of_N a)).
  change (ofN b) with (ofZ (Z.of_N b)).
  rewrite add_whole_Z by lia. unfold ofN, ofZ. rewrite N2Z.inj_add.
  reflexivity.
Qed.

Lemma calculateTotal_from (ns : list N) : forall a,
  (a + sumN ns <= 2 ^ 53)%N ->
  fold_left (fun sum price => add sum price) (map ofN ns) (ofN a)
  = ofN (a + sumN ns).
Proof.
  induction ns as [|n ns IH]; intros a; cbn [map fold_left sumN fold_right].
  - by rewrite N.add_0_r.
  - intros H. fold (sumN ns) in H. rewrite add_whole by lia.
    rewrite IH by lia. f_equal. unfold sumN. lia.
Qed.

Lemma calculateTotal_sumN (ns : list N) :
  (sumN ns <= 2 ^ 53)%N -> calculateTotal (map ofN ns) = ofN (sumN ns).
Proof.
  intros H. unfold calculateTotal. change zero with (ofN 0).
  rewrite calculateTotal_from by exact H. reflexivity.
Qed.

(** A sum of numbers that are not negative is not negative (and no
    NaN). *)
Lemma add_nonneg (x y : number) :
  le zero x = true -> le zero y = true -> le zero (add x y) = true.
Proof.
  destruct x as [|[]|a], y as [|[]|b]; try done.
  intros Ha Hb. cbn [le zero ofZ] in Ha, Hb. apply Qle_bool_iff in Ha, Hb.
  cbn [add]. change zero with (round64 0).
  apply round64_mono. change (inject_Z 0) with 0%Q in *. lra.
Qed.

Lemma calculateTotal_nonneg (xs : list number) :
  Forall (fun x => le zero x = true) xs ->
  le zero (calculateTotal xs) = true.
Proof.
  unfold calculateTotal. intros H.
  assert (forall acc, le zero acc = true ->
            le zero (fold_left (fun sum price => add sum price) xs acc)
            = true) as Hfold.
  { induction H as [|x xs Hx _ IH]; intros acc Hacc; cbn [fold_left];
      [exact Hacc|].
    apply IH, add_nonneg; assumption. }
  apply Hfold. reflexivity.
Qed.

Lemma calculateTotal_binary64 (xs : list number) :
  binary64 (calculateTotal xs).
Proof.
  unfold calculateTotal.
  assert (forall acc, binary64 acc ->
            binary64 (fold_left (fun sum price => add sum price) xs acc))
    as Hfold.
  { induction xs as [|x xs IH]; intros acc Hacc; cbn [fold_left];
      [exact Hacc|].
    apply IH, add_binary64. }
  apply Hfold. reflexivity.
Qed.

(** X4: as long as their sum is at most 2^53, the total of whole-number
    prices is the whole number that is their sum (0 for no price), and
    it is not negative. *)
Theorem calculateTotal_whole (ns : list N) :
  (sumN ns <= 2 ^ 53)%N ->
  calculateTotal (map ofN ns) = ofN (sumN ns)
  /\ le zero (calculateTotal (map ofN ns)) = true.
Proof.
  intros Hs. pose proof (calculateTotal_sumN ns Hs) as H.
  split; [exact H|]. rewrite H. apply le_zero_whole.
Qed.

Lemma calculateTotal_whole_witness :
  (sumN [1299%N; 45000%N; 701%N] <= 2 ^ 53)%N
  /\ calculateTotal (map ofN [1299%N; 45000%N; 701%N]) = ofN 47000.
Proof.
  split; [vm_compute; discriminate|].
  apply (proj1 (calculateTotal_whole [1299%N; 45000%N; 701%N]
                  ltac:(vm_compute; discriminate))).
Defined.

(* ===================================================================== *)
(** ** The scrapers *)
(* ===================================================================== *)

Lemma fold_left_app_flat_map {A B} (f : A -> list B) (l : list A) :
  forall acc,
    fold_left (fun acc x => acc ++ f x) l acc = acc ++ flat_map f l.
Proof.
  induction l as [|a l IH]; intros acc; cbn [fold_left flat_map].
  - by rewrite app_nil_r.
  - rewrite IH, app_assoc. reflexivity.
Qed.

Lemma flat_map_length_le {A B} (f : A -> list B) (l : list A) :
  (forall a, length (f a) <= 1) -> length (flat_map f l) <= length l.
Proof.
  intros H. induction l as [|a l IH]; [reflexivity|].
  cbn [flat_map]. rewrite length_app. specialize (H a). simpl. lia.
Qed.

Lemma Forall_flat_map {A B} (P : B -> Prop) (f : A -> list B) (l : list A) :
  (forall a, Forall P (f a)) -> Forall P (flat_map f l).
Proof.
  intros H. induction l as [|a l IH]; [constructor|].
  cbn [flat_map]. apply Forall_app. auto.
Qed.

Lemma dropWhileWs_split (s : jsstring) :
  exists pre,
    s = pre ++ dropWhileWs s /\ Forall (fun c => isWhiteSpace c = true) pre.
Proof.
  induction s as [|c s (pre & Hs & Hpre)]; [exists []; split; [done|constructor]|].
  cbn [dropWhileWs]. destruct (isWhiteSpace c) eqn:E.
  - exists (c :: pre). split; [by rewrite Hs at 1|by constructor].
  - exists []. split; [reflexivity|constructor].
Qed.

Lemma dropWhileWs_noLeadingSpace (s : jsstring) :
  noLeadingSpace (dropWhileWs s).
Proof.
  induction s as [|c s IH]; [exact I|].
  cbn [dropWhileWs]. destruct (isWhiteSpace c) eqn:E; [exact IH|exact E].
Qed.

(** [trim] cuts a run of white space off each end. *)
Lemma trim_split (s : jsstring) :
  exists pre suf,
    s = pre ++ trim s ++ suf
    /\ Forall (fun c => isWhiteSpace c = true) pre
    /\ Forall (fun c => isWhiteSpace c = true) suf.
Proof.
  unfold trim.
  destruct (dropWhileWs_split s) as (pre & Hs & Hpre).
  destruct (dropWhileWs_split (reverse (dropWhileWs s))) as (rsuf & Hr & Hsuf).
  exists pre, (reverse rsuf). split; [|split; [exact Hpre|]].
  - rewrite <- reverse_app, <- Hr, reverse_involutive. exact Hs.
  - apply Forall_reverse, Hsuf.
Qed.

Lemma trim_noLeadingSpace (s : jsstring) : noLeadingSpace (trim s).
Proof.
  pose proof (dropWhileWs_noLeadingSpace s) as Hd.
  unfold trim.
  destruct (dropWhileWs_split (reverse (dropWhileWs s))) as (rsuf & Hr & _).
  apply (f_equal reverse) in Hr.
  rewrite reverse_involutive, reverse_app in Hr.
  destruct (reverse (dropWhileWs (reverse (dropWhileWs s)))) as [|c t];
    [exact I|].
  rewrite Hr in Hd. exact Hd.
Qed.

Lemma take_noLeadingSpace (n : nat) (s : jsstring) :
  noLeadingSpace s -> noLeadingSpace (take n s).
Proof. destruct s, n; cbn; auto. Qed.

Lemma replaceClass_app cls (a b : jsstring) :
  replaceClass cls (a ++ b) = replaceClass cls a ++ replaceClass cls b.
Proof. apply filter_app. Qed.

Lemma replaceClass_all cls (s : jsstring) :
  Forall (fun c => cls c = true) s -> replaceClass cls s = [].
Proof.
  induction 1 as [|c s Hc _ IH]; [reflexivity|].
  rewrite replaceClass_cons, Hc. exact IH.
Qed.

Lemma whitespace_currency (s : jsstring) :
  Forall (fun c => isWhiteSpace c = true) s ->
  Forall (fun c => currencyClass c = true) s.
Proof.
  intros H. eapply Forall_impl; [exact H|].
  intros c Hc. unfold currencyClass. cbv beta in Hc.
  rewrite Hc. apply orb_true_r.
Qed.

(** White space around a price text does not change the price read. *)
Lemma extractPrice_trim (s : jsstring) :
  extractPrice (trim s) = extractPrice s.
Proof.
  rewrite !extractPrice_value. f_equal. f_equal.
  destruct (trim_split s) as (pre & suf & Hs & Hpre & Hsuf).
  rewrite Hs at 2. unfold cleanPrice.
  rewrite !replaceClass_app.
  rewrite (replaceClass_all currencyClass pre (whitespace_currency _ Hpre)).
  rewrite (replaceClass_all currencyClass suf (whitespace_currency _ Hsuf)).
  rewrite app_nil_r. reflexivity.
Qed.

Lemma extractPrice_wholeOrInfinity (s : jsstring) :
  wholeOrInfinity (extractPrice s).
Proof.
  rewrite extractPrice_value. unfold wholeOrInfinity.
  destruct (nearest_cases (digitsValue (cleanPrice s)))
    as [->|(v & -> & _)]; eauto.
Qed.

Lemma lt_zero_noNaN (prices : list number) :
  Forall (fun x => lt zero x = true) prices -> noNaN prices.
Proof.
  intros H. eapply Forall_impl; [exact H|].
  intros [|n|q]; [discriminate|reflexivity|reflexivity].
Qed.

Lemma getProductsWithPrices_flat_map (cards : list card) :
  getProductsWithPrices cards = flat_map productOfCard cards.
Proof. apply (fold_left_app_flat_map productOfCard cards []). Qed.

Lemma getProductsWithPrices_positive (cards : list card) :
  Forall (fun l => lt zero (price (item l)) = true)
         (getProductsWithPrices cards).
Proof.
  rewrite getProductsWithPrices_flat_map.
  apply Forall_flat_map. intros [|titles prices]; [constructor|].
  unfold productOfCard.
  destruct (nonEmpty (firstText titles) && nonEmpty (firstText prices));
    [|constructor].
  destruct (lt zero (extractPrice (firstText prices))) eqn:E; [|constructor].
  constructor; [exact E|constructor].
Qed.

Lemma nonEmpty_false (s : jsstring) : nonEmpty s = false <-> s = [].
Proof. destruct s; cbn; split; congruence. Qed.

(** X5: [getProductsWithPrices] goes through the cards in order, each
    card on its own; a card is skipped when the driver throws on it, when
    its title or its price text is empty, and when the price read is not
    above 0, and only then; every listing returned has a price above 0,
    which is a whole number or Infinity and is the price read from its
    stored price text, and a name of at most 50 code units without
    leading white space; there are no more listings than cards. *)
Theorem getProductsWithPrices_listings (cards : list card) :
  Forall (fun l =>
            lt zero (price (item l)) = true
            /\ wholeOrInfinity (price (item l))
            /\ price (item l) = extractPrice (priceText l)
            /\ length (name (item l)) <= 50
            /\ noLeadingSpace (name (item l)))
         (getProductsWithPrices cards)
  /\ length (getProductsWithPrices cards) <= length cards
  /\ (forall before after : list card,
        getProductsWithPrices (before ++ after)
        = getProductsWithPrices before ++ getProductsWithPrices after)
  /\ getProductsWithPrices [CardThrows] = []
  /\ (forall titles prices : list (option jsstring),
        getProductsWithPrices [Card titles prices] = []
        <-> firstText titles = [] \/ firstText prices = []
            \/ lt zero (extractPrice (firstText prices)) = false).
Proof.
  split; [|split; [|split; [|split; [reflexivity|]]]].
  - rewrite getProductsWithPrices_flat_map.
    apply Forall_flat_map. intros [|titles prices]; [constructor|].
    unfold productOfCard.
    destruct (nonEmpty (firstText titles) && nonEmpty (firstText prices));
      [|constructor].
    destruct (lt zero (extractPrice (firstText prices))) eqn:E; [|constructor].
    constructor; [|constructor]. cbn [item priceText price name].
    split; [exact E|].
    split; [apply extractPrice_wholeOrInfinity|].
    split; [symmetry; apply extractPrice_trim|].
    split.
    + unfold substring0. rewrite length_take. lia.
    + apply take_noLeadingSpace, trim_noLeadingSpace.
  - rewrite getProductsWithPrices_flat_map.
    apply flat_map_length_le. intros [|titles prices]; [simpl; lia|].
    unfold productOfCard.
    destruct (_ && _); [|simpl; lia]. destruct (lt _ _); simpl; lia.
  - intros before after. rewrite !getProductsWithPrices_flat_map.
    apply flat_map_app.
  - intros titles prices. rewrite getProductsWithPrices_flat_map.
    cbn [flat_map productOfCard]. rewrite app_nil_r.
    rewrite <- !nonEmpty_false.
    destruct (nonEmpty (firstText titles)), (nonEmpty (firstText prices));
      cbn [andb]; try tauto;
      destruct (lt zero (extractPrice (firstText prices)));
      split; intros H; try tauto; try discriminate;
      destruct H as [H|[H|H]]; discriminate.
Qed.

(** X6: on the products scraped from a result page the sort report says
    correctly sorted exactly when their prices are non-decreasing: an
    unparsed price (0 or NaN) never reaches the validator. *)
Theorem scraped_products_sort_report (cards : list card) :
  isCorrectlySorted
    (generateSortViolationReport (map item (getProductsWithPrices cards)))
  = nonDecreasing (map item (getProductsWithPrices cards))
  /\ Forall (fun p => lt zero (price p) = true)
       (map item (getProductsWithPrices cards)).
Proof.
  assert (Forall (fun x => lt zero x = true)
            (map price (map item (getProductsWithPrices cards)))) as Hpos.
  { rewrite !Forall_map. apply getProductsWithPrices_positive. }
  split.
  - apply isCorrectlySorted_nonDecreasing, lt_zero_noNaN, Hpos.
  - rewrite Forall_map in Hpos. exact Hpos.
Qed.

Lemma getCartItems_flat_map (nameElements priceElements : list textRead) :
  getCartItems nameElements priceElements
  = flat_map (cartItemAt nameElements priceElements)
      (seq 0 (length nameElements)).
Proof.
  apply (fold_left_app_flat_map (cartItemAt nameElements priceElements)
           (seq 0 (length nameElements)) []).
Qed.

Lemma le_zero_extractPrice (s : jsstring) : le zero (extractPrice s) = true.
Proof. rewrite extractPrice_value. apply le_zero_nearest. Qed.

(** X7: every item returned by [getCartItems] has a price that is not
    negative and is a whole number or Infinity, the price read from its
    stored price text, and a name of at most 50 code units without
    leading white space; there are no more items than name elements; and
    when the page has no price element every item has the price 0 and an
    empty price text. *)
Theorem getCartItems_items (nameElements priceElements : list textRead) :
  Forall (fun l =>
            le zero (price (item l)) = true
            /\ wholeOrInfinity (price (item l))
            /\ price (item l) = extractPrice (priceText l)
            /\ length (name (item l)) <= 50
            /\ noLeadingSpace (name (item l)))
         (getCartItems nameElements priceElements)
  /\ length (getCartItems nameElements priceElements) <= length nameElements
  /\ Forall (fun l => price (item l) = ofZ 0 /\ priceText l = [])
       (getCartItems nameElements []).
Proof.
  rewrite !getCartItems_flat_map. split; [|split].
  - apply Forall_flat_map. intros i. unfold cartItemAt.
    destruct (nameElements !! i) as [[|t]|]; try constructor.
    destruct (priceElements !! i) as [[|pt]|]; try constructor.
    + destruct (nonEmpty (orEmpty t)); constructor; [|constructor].
      cbn [item priceText price name].
      split; [apply le_zero_extractPrice|].
      split; [apply extractPrice_wholeOrInfinity|].
      split; [symmetry; apply extractPrice_trim|].
      split; [unfold substring0; rewrite length_take; lia|].
      apply take_noLeadingSpace, trim_noLeadingSpace.
    + destruct (nonEmpty (orEmpty t)); constructor; [|constructor].
      cbn [item priceText price name].
      split; [reflexivity|].
      split; [right; exists 0%N; reflexivity|]. split; [reflexivity|].
      split; [unfold substring0; rewrite length_take; lia|].
      apply take_noLeadingSpace, trim_noLeadingSpace.
  - etrans; [apply flat_map_length_le|by rewrite length_seq].
    intros i. unfold cartItemAt.
    destruct (nameElements !! i) as [[|t]|]; try (simpl; lia).
    destruct (priceElements !! i) as [[|pt]|]; try (simpl; lia);
      destruct (nonEmpty (orEmpty t)); simpl; lia.
  - apply Forall_flat_map. intros i. unfold cartItemAt.
    destruct (nameElements !! i) as [[|t]|]; try constructor.
    rewrite lookup_nil.
    destruct (nonEmpty (orEmpty t)); constructor; [|constructor].
    split; reflexivity.
Qed.

Lemma calculateTotal_zeros (xs : list number) :
  Forall (fun x => x = ofZ 0) xs -> calculateTotal xs = ofZ 0.
Proof.
  unfold calculateTotal. induction 1 as [|x xs -> _ IH]; [reflexivity|].
  cbn [fold_left]. exact IH.
Qed.

Lemma getCartItems_prices (nameElements priceElements : list textRead) :
  Forall (fun l => le zero (price (item l)) = true
                   /\ wholeOrInfinity (price (item l)))
         (getCartItems nameElements priceElements).
Proof.
  rewrite getCartItems_flat_map.
  apply Forall_flat_map. intros i. unfold cartItemAt.
  destruct (nameElements !! i) as [[|t]|]; try constructor.
  destruct (priceElements !! i) as [[|pt]|]; try constructor;
    destruct (nonEmpty (orEmpty t)); constructor; try constructor;
    cbn [item price];
    [apply le_zero_extractPrice|apply extractPrice_wholeOrInfinity
    |reflexivity|right; exists 0%N; reflexivity].
Qed.

Lemma getCartItems_no_price_elements (nameElements : list textRead) :
  Forall (fun l => price (item l) = ofZ 0) (getCartItems nameElements []).
Proof.
  rewrite getCartItems_flat_map.
  apply Forall_flat_map. intros i. unfold cartItemAt.
  destruct (nameElements !! i) as [[|t]|]; try constructor.
  rewrite lookup_nil.
  destruct (nonEmpty (orEmpty t)); constructor; [reflexivity|constructor].
Qed.

(** A sum of whole numbers is a whole number, or Infinity. *)
Lemma add_wholeOrInfinity (x y : number) :
  wholeOrInfinity x -> wholeOrInfinity y -> wholeOrInfinity (add x y).
Proof.
  intros [->|[a ->]] [->|[b ->]]; cbn [add ofN];
    try (left; reflexivity).
  rewrite <- inject_Z_plus, <- N2Z.inj_add.
  change (round64 (inject_Z (Z.of_N (a + b)))) with (nearest (a + b)).
  unfold wholeOrInfinity.
  destruct (nearest_cases (a + b)) as [->|(v & -> & _)]; eauto.
Qed.

Lemma calculateTotal_wholeOrInfinity (xs : list number) :
  Forall wholeOrInfinity xs -> wholeOrInfinity (calculateTotal xs).
Proof.
  unfold calculateTotal. intros H.
  assert (forall acc, wholeOrInfinity acc ->
            wholeOrInfinity
              (fold_left (fun sum price => add sum price) xs acc)) as Hfold.
  { induction H as [|x xs Hx _ IH]; intros acc Hacc; cbn [fold_left];
      [exact Hacc|].
    apply IH, add_wholeOrInfinity; assumption. }
  apply Hfold. right. exists 0%N. reflexivity.
Qed.

(** X8: the total that [calculateExpectedTotal] computes from the cart
    page is not negative (and no NaN), it is a whole number or Infinity,
    and it is 0 when the page has no price element. *)
Theorem calculateExpectedTotal_whole
    (nameElements priceElements : list textRead) :
  wholeOrInfinity (calculateExpectedTotal nameElements priceElements)
  /\ le zero (calculateExpectedTotal nameElements priceElements) = true
  /\ calculateExpectedTotal nameElements [] = ofZ 0.
Proof.
  pose proof (getCartItems_prices nameElements priceElements) as Hp.
  unfold calculateExpectedTotal. split; [|split].
  - apply calculateTotal_wholeOrInfinity. rewrite Forall_map.
    eapply Forall_impl; [exact Hp|]. intros l [_ H]. exact H.
  - apply calculateTotal_nonneg. rewrite Forall_map.
    eapply Forall_impl; [exact Hp|]. intros l [H _]. exact H.
  - apply calculateTotal_zeros.
    rewrite Forall_map. apply getCartItems_no_price_elements.
Qed.

Lemma getPricesOnly_flat_map (priceElements : list textRead) :
  getPricesOnly priceElements = flat_map priceOfElement priceElements.
Proof. apply (fold_left_app_flat_map priceOfElement priceElements []). Qed.

(** X9: [getPricesOnly] goes through the price elements in order, each
    on its own; an element is dropped when the driver throws on it and
    when the price read from its text is not above 0 (as for a null
    text), and only then; so it returns prices above 0 only, each a whole
    number or Infinity; and [areResultsDisplayed] is true exactly when
    some price element has a text from which a price above 0 is read. *)
Theorem getPricesOnly_positive (priceElements : list textRead) :
  Forall (fun x => lt zero x = true /\ wholeOrInfinity x)
         (getPricesOnly priceElements)
  /\ (areResultsDisplayed priceElements = true
      <-> exists t, ReadText t ∈ priceElements
                    /\ lt zero (extractPrice (orEmpty t)) = true)
  /\ (forall before after : list textRead,
        getPricesOnly (before ++ after)
        = getPricesOnly before ++ getPricesOnly after)
  /\ getPricesOnly [ReadThrows] = []
  /\ getPricesOnly [ReadText None] = []
  /\ (forall t : option jsstring,
        getPricesOnly [ReadText t]
        = if lt zero (extractPrice (orEmpty t))
          then [extractPrice (orEmpty t)] else []).
Proof.
  split; [|split; [|split; [|split; [reflexivity|split; [reflexivity|]]]]].
  3:{ intros before after. rewrite !getPricesOnly_flat_map.
      apply flat_map_app. }
  3:{ intros t. rewrite getPricesOnly_flat_map.
      cbn [flat_map priceOfElement]. apply app_nil_r. }
  all: unfold areResultsDisplayed; rewrite getPricesOnly_flat_map.
  - apply Forall_flat_map. intros [|t]; [constructor|].
    unfold priceOfElement.
    destruct (lt zero (extractPrice (orEmpty t))) eqn:E; [|constructor].
    constructor; [|constructor].
    split; [exact E|apply extractPrice_wholeOrInfinity].
  - rewrite Nat.ltb_lt. split.
    + intros Hlen.
      destruct (flat_map priceOfElement priceElements) as [|x xs] eqn:E;
        [simpl in Hlen; lia|].
      assert (In x (flat_map priceOfElement priceElements)) as Hin
        by (rewrite E; left; reflexivity).
      apply in_flat_map in Hin as ([|t] & He & Hx); [destruct Hx|].
      exists t. split; [apply list_elem_of_In, He|].
      unfold priceOfElement in Hx.
      destruct (lt zero (extractPrice (orEmpty t))); [reflexivity|destruct Hx].
    + intros (t & Ht & Hpos).
      assert (In (extractPrice (orEmpty t))
                 (flat_map priceOfElement priceElements)) as Hin.
      { apply in_flat_map. exists (ReadText t).
        split; [apply list_elem_of_In, Ht|].
        unfold priceOfElement. rewrite Hpos. left. reflexivity. }
      destruct (flat_map priceOfElement priceElements); [destruct Hin|].
      simpl. lia.
Qed.

Lemma collectLoop_site (n : nat) : forall (site : sitePages) acc,
  collectLoop sitePages siteProducts siteNext n site acc
  = (acc ++ flat_map getProductsWithPrices (take n site),
     drop (Nat.min (n - 1) (length site - 1)) site).
Proof.
  induction n as [|n IH]; intros site acc.
  - cbn. rewrite app_nil_r. reflexivity.
  - cbn [collectLoop]. destruct n as [|n'].
    + destruct site as [|cards rest]; cbn.
      * rewrite app_nil_r. reflexivity.
      * rewrite app_nil_r. reflexivity.
    + destruct site as [|cards [|cards' rest]].
      * cbn. rewrite app_nil_r. reflexivity.
      * cbn. rewrite app_nil_r. reflexivity.
      * cbn [siteNext]. rewrite IH. cbn [siteProducts take flat_map].
        rewrite <- app_assoc. f_equal.
        replace (S (S n') - 1) with (S n') by lia.
        replace (S n' - 1) with n' by lia.
        cbn [length].
        replace (S (S (length rest)) - 1) with (S (length rest)) by lia.
        replace (S (length rest) - 1) with (length rest) by lia.
        rewrite <- Nat.succ_min_distr. reflexivity.
Qed.

(** X10: on a paginated result list, [collectProductsFromPages] returns
    the products of the first [pageLimit] pages (of all pages when there
    are fewer), in page order, and leaves the browser on the last page it
    read: it never navigates beyond page [pageLimit]. *)
Theorem collectProductsFromPages_site (pageLimit : nat) (site : sitePages) :
  collectProductsFromPages sitePages siteProducts siteNext pageLimit site
  = (flat_map getProductsWithPrices (take pageLimit site),
     drop (Nat.min (pageLimit - 1) (length site - 1)) site).
Proof.
  unfold collectProductsFromPages. rewrite collectLoop_site. reflexivity.
Qed.

(* ===================================================================== *)
(** ** Edge cases of the cart reconciliation *)
(* ===================================================================== *)

Lemma startsWith_take (n : nat) (s : jsstring) : startsWith (take n s) s = true.
Proof.
  apply startsWith_spec. exists (drop n s). symmetry. apply take_drop.
Qed.

Lemma includes_take (n : nat) (s : jsstring) : includes s (take n s) = true.
Proof.
  destruct s as [|c s]; cbn [includes]; rewrite startsWith_take; reflexivity.
Qed.

Lemma includes_nil (s : jsstring) : includes s [] = true.
Proof. destruct s; reflexivity. Qed.

Lemma find_some_elem {A} (f : A -> bool) (l : list A) (x : A) :
  x ∈ l -> f x = true -> exists y, List.find f l = Some y.
Proof.
  intros Hin Hx. destruct (List.find f l) as [y|] eqn:E; [eauto|].
  apply find_none_Forall in E. rewrite Forall_forall in E.
  specialize (E x Hin). congruence.
Qed.

Lemma expected_entryFor toLowerCase (scraped : list product) (e : product) :
  expected (entryFor toLowerCase scraped e) = e.
Proof.
  unfold entryFor. destruct (findMatchingItem _ _ _) as [m|]; [|reflexivity].
  destruct (priceMatch m e); reflexivity.
Qed.

Lemma status_entryFor_found toLowerCase (scraped : list product)
    (e m : product) :
  findMatchingItem toLowerCase scraped e = Some m ->
  status (entryFor toLowerCase scraped e) <> NOT_FOUND.
Proof.
  intros H. unfold entryFor. rewrite H. destruct (priceMatch m e); discriminate.
Qed.

(** X11: an expected product is never reported NOT_FOUND when the cart
    holds an item whose lower-cased name is the same: whatever the length
    of the names, the entry recorded for it is MATCH or PRICE_MISMATCH. *)
Theorem same_name_is_found (toLowerCase : jsstring -> jsstring)
    (scraped expectedProducts : list product) (e : product) :
  (exists item, item ∈ scraped
                /\ toLowerCase (name item) = toLowerCase (name e)) ->
  status (entryFor toLowerCase scraped e) <> NOT_FOUND
  /\ forall entry,
       entry ∈ mismatches (validateCartContents toLowerCase scraped
                             expectedProducts) ->
       expected entry = e -> status entry = PRICE_MISMATCH.
Proof.
  intros (item & Hin & Hname).
  assert (exists m, findMatchingItem toLowerCase scraped e = Some m) as [m Hm].
  { apply (find_some_elem _ scraped item Hin).
    unfold nameMatches, substring0. rewrite Hname, includes_take.
    reflexivity. }
  split; [apply (status_entryFor_found _ _ _ m Hm)|].
  intros entry Hentry Hexp.
  destruct (validateCartContents_entries toLowerCase scraped expectedProducts)
    as (_ & _ & Hmm).
  rewrite Hmm in Hentry. apply list_elem_of_In, filter_In in Hentry as [He Hs].
  apply in_map_iff in He as (e' & <- & _).
  rewrite expected_entryFor in Hexp. subst e'.
  unfold isMatch, entryFor in *. rewrite Hm in *.
  destruct (priceMatch m e); [discriminate|reflexivity].
Qed.

Lemma same_name_is_found_witness :
  status (entryFor asciiLower
            [mkProduct (lit "NIKE AIR SHOES") (ofZ 1700)]
            (mkProduct (lit "Nike Air Shoes") (ofZ 1500))) <> NOT_FOUND.
Proof.
  apply (proj1 (same_name_is_found asciiLower
                  [mkProduct (lit "NIKE AIR SHOES") (ofZ 1700)] []
                  (mkProduct (lit "Nike Air Shoes") (ofZ 1500))
                  (ex_intro _ (mkProduct (lit "NIKE AIR SHOES") (ofZ 1700))
                     (conj (list_elem_of_here _ _) eq_refl)))).
Defined.

(** X12: an empty name matches everything.  With a lower-casing that
    keeps the empty string empty, a cart item with an empty name is a
    candidate for every expected product, so that nothing is reported
    NOT_FOUND; and an expected product with an empty name takes the first
    item of the cart, whatever it is. *)
Theorem empty_name_matches_all (toLowerCase : jsstring -> jsstring)
    (scraped : list product) :
  toLowerCase [] = [] ->
  ((exists item, item ∈ scraped /\ name item = []) ->
   forall e, status (entryFor toLowerCase scraped e) <> NOT_FOUND)
  /\ (forall e, name e = [] ->
                findMatchingItem toLowerCase scraped e = head scraped).
Proof.
  intros Hnil. split.
  - intros (item & Hin & Hname) e.
    assert (exists m, findMatchingItem toLowerCase scraped e = Some m) as [m Hm].
    { apply (find_some_elem _ scraped item Hin).
      unfold nameMatches, substring0. rewrite Hname, Hnil.
      cbn [take]. rewrite (includes_nil (toLowerCase (name e))).
      apply orb_true_r. }
    apply (status_entryFor_found _ _ _ m Hm).
  - intros e Hname. unfold findMatchingItem.
    destruct scraped as [|item rest]; [reflexivity|].
    cbn [List.find head]. unfold nameMatches, substring0.
    rewrite Hname, Hnil. cbn [take].
    rewrite (includes_nil (toLowerCase (name item))). reflexivity.
Qed.

Lemma empty_name_matches_all_witness :
  status (entryFor asciiLower
            [mkProduct (lit "Puma Sneakers") (ofZ 2000); mkProduct [] (ofZ 0)]
            (mkProduct (lit "Nike Air Shoes") (ofZ 0))) <> NOT_FOUND.
Proof.
  apply (proj1 (empty_name_matches_all asciiLower
                  [mkProduct (lit "Puma Sneakers") (ofZ 2000);
                   mkProduct [] (ofZ 0)] eq_refl)).
  exists (mkProduct [] (ofZ 0)). split; [|reflexivity].
  apply list_elem_of_further, list_elem_of_here.
Defined.

Lemma trim_whitespace (t : jsstring) :
  Forall (fun c => isWhiteSpace c = true) t -> trim t = [].
Proof.
  intros H. unfold trim.
  assert (dropWhileWs t = []) as ->.
  { induction H as [|c t Hc _ IH]; [reflexivity|].
    cbn [dropWhileWs]. rewrite Hc. exact IH. }
  reflexivity.
Qed.

(** X13: a name element whose text is not empty but consists of white
    space only gives a cart item with the empty name (the text is tested
    before it is trimmed), unless the driver throws on the price element
    of the same index. *)
Theorem getCartItems_blank_name
    (nameElements priceElements : list textRead) (i : nat) (t : jsstring) :
  nameElements !! i = Some (ReadText (Some t)) ->
  t <> [] ->
  Forall (fun c => isWhiteSpace c = true) t ->
  priceElements !! i <> Some ReadThrows ->
  exists l, l ∈ getCartItems nameElements priceElements
            /\ name (item l) = [].
Proof.
  intros Hn Ht Hws Hp. rewrite getCartItems_flat_map.
  assert (exists l, cartItemAt nameElements priceElements i = [l]
                    /\ name (item l) = []) as (l & Hl & Hname).
  { unfold cartItemAt. rewrite Hn. cbn [orEmpty].
    destruct t as [|c t']; [done|]. cbn [nonEmpty].
    destruct (priceElements !! i) as [[|pt]|]; [done| |];
      eexists; (split; [reflexivity|]); cbn [item name];
      unfold substring0; rewrite (trim_whitespace _ Hws); reflexivity. }
  exists l. split; [|exact Hname].
  apply list_elem_of_In, in_flat_map. exists i. split.
  - apply in_seq. apply lookup_lt_Some in Hn. lia.
  - rewrite Hl. left. reflexivity.
Qed.

Lemma getCartItems_blank_name_witness :
  exists l, l ∈ getCartItems [ReadText (Some (lit "   "))] []
            /\ name (item l) = [].
Proof.
  apply (getCartItems_blank_name [ReadText (Some (lit "   "))] [] 0
           (lit "   ") eq_refl).
  - discriminate.
  - repeat constructor.
  - discriminate.
Defined.

(** X14: against an empty cart every expected product is reported
    NOT_FOUND, in the order of the expected list, nothing matches, and the
    result has passed only when nothing was expected. *)
Theorem validateCartContents_empty_cart (toLowerCase : jsstring -> jsstring)
    (expectedProducts : list product) :
  validateCartContents toLowerCase [] expectedProducts
  = {| passed := isNil expectedProducts;
       cartItems := [];
       expectedProducts := expectedProducts;
       matches := [];
       mismatches :=
         map (fun e => mkEntry e None NOT_FOUND (Some (notFoundMessage e)))
             expectedProducts |}.
Proof.
  unfold validateCartContents.
  assert (forall es r,
            cartItems r = [] ->
            fold_left (validateExpected toLowerCase) es r
            = {| passed := passed r && isNil es;
                 cartItems := [];
                 expectedProducts := CartPage.expectedProducts r;
                 matches := matches r;
                 mismatches := mismatches r ++
                   map (fun e => mkEntry e None NOT_FOUND
                                   (Some (notFoundMessage e))) es |}) as H.
  { induction es as [|e es IH]; intros [p c x m mm] Hc; cbn in Hc; subst c.
    - cbn. rewrite andb_true_r, app_nil_r. reflexivity.
    - cbn [fold_left]. rewrite IH by reflexivity.
      cbn. rewrite andb_false_r, <- app_assoc. reflexivity. }
  rewrite H by reflexivity. reflexivity.
Qed.

Lemma isMatch_entryFor toLowerCase (scraped : list product) (e : product) :
  let x := entryFor toLowerCase scraped e in
  if isMatch x
  then status x = MATCH /\ message x = None /\ actual x <> None
  else status x <> MATCH /\ message x <> None.
Proof.
  cbn zeta. unfold entryFor, isMatch.
  destruct (findMatchingItem toLowerCase scraped e) as [m|]; [|by cbn].
  destruct (priceMatch m e); by cbn.
Qed.

(** X15: every expected product gets exactly one entry, in [matches]
    with the status MATCH, a cart item and no message, or in [mismatches]
    with another status and a message; and the result has passed exactly
    when [mismatches] is empty. *)
Theorem validateCartContents_entries_partition
    (toLowerCase : jsstring -> jsstring)
    (scraped expectedProducts : list product) :
  length (matches (validateCartContents toLowerCase scraped expectedProducts))
  + length (mismatches
              (validateCartContents toLowerCase scraped expectedProducts))
  = length expectedProducts
  /\ Forall (fun x => status x = MATCH /\ message x = None
                      /\ actual x <> None)
       (matches (validateCartContents toLowerCase scraped expectedProducts))
  /\ Forall (fun x => status x <> MATCH /\ message x <> None)
       (mismatches
          (validateCartContents toLowerCase scraped expectedProducts))
  /\ (passed (validateCartContents toLowerCase scraped expectedProducts)
      = true
      <-> mismatches
            (validateCartContents toLowerCase scraped expectedProducts) = []).
Proof.
  destruct (validateCartContents_entries toLowerCase scraped expectedProducts)
    as (Hp & Hm & Hmm).
  rewrite Hp, Hm, Hmm. clear Hp Hm Hmm.
  induction expectedProducts as [|e es (IHlen & IHm & IHmm & IHp)];
    [cbn; repeat split; constructor|].
  cbn [map List.filter forallb].
  pose proof (isMatch_entryFor toLowerCase scraped e) as He. cbn zeta in He.
  destruct (isMatch (entryFor toLowerCase scraped e)); cbn [negb andb length].
  - split; [lia|]. split; [constructor; [exact He|exact IHm]|].
    split; [exact IHmm|exact IHp].
  - split; [lia|]. split; [exact IHm|].
    split; [constructor; [exact He|exact IHmm]|].
    split; discriminate.
Qed.

(* ===================================================================== *)
(** ** The two total checks *)
(* ===================================================================== *)

Lemma abs_cases (y : number) :
  abs y = NaN \/ abs y = Infinity false
  \/ exists q, abs y = Fin q /\ (0 <= q)%Q.
Proof.
  destruct y as [|n|a]; cbn; auto.
  right. right. eexists. split; [reflexivity|].
  rewrite Qred_correct. apply Qabs_nonneg.
Qed.

Lemma literal_15 :
  literal (15 # 100) = Fin (5404319552844595 # 36028797018963968).
Proof. vm_compute. reflexivity. Qed.

(** For an expected total that is not negative, 10% of it is at most 15%
    of it, rounding included. *)
Lemma tolerance_widens (y e : number) :
  lt e zero = false ->
  le (abs y) (mul e (literal (1 # 10))) = true ->
  le (abs y) (mul e (literal (15 # 100))) = true.
Proof.
  rewrite literal_tenth, literal_15. destruct e as [|n|b].
  - destruct (abs y); discriminate.
  - intros _ H. exact H.
  - intros Hb H. cbn [lt zero ofZ] in Hb.
    assert (0 <= b)%Q as Hb'.
    { destruct (Qlt_le_dec b 0) as [Hlt|]; [|assumption].
      apply Qltb_lt in Hlt. change (inject_Z 0) with 0%Q in Hb. congruence. }
    eapply le_trans_number; [exact H|]. cbn [mul].
    apply round64_mono. lra.
Qed.

(** For a negative expected total, from [-5 * MIN_VALUE] down, the
    tolerance of [validateTotal] is negative, and nothing is within it. *)
Lemma tolerance_negative (y e : number) :
  le e (mul (ofZ (-5)) MIN_VALUE) = true ->
  le (abs y) (mul e (literal (1 # 10))) = false.
Proof.
  rewrite literal_tenth.
  pose proof (pow2_pos (-1074)) as Hu.
  set (u := pow2 (-1074)) in Hu.
  assert (mul (ofZ (-5)) MIN_VALUE = Fin (Qred (-5 * u))) as ->
    by (vm_compute; reflexivity).
  assert (round64 (-5 * u * (3602879701896397 # 36028797018963968))
          = Fin (Qred (- u))) as Hr by (vm_compute; reflexivity).
  clearbody u. intros He.
  assert (le (mul e (Fin (3602879701896397 # 36028797018963968)))
             (Fin (Qred (- u))) = true) as Hle.
  { destruct e as [|[]|b]; [discriminate|reflexivity|discriminate|].
    cbn [le] in He. apply Qle_bool_iff in He. rewrite Qred_correct in He.
    cbn [mul]. rewrite <- Hr. apply round64_mono. lra. }
  apply not_true_is_false. intros H.
  pose proof (le_trans_number _ _ _ H Hle) as Hc.
  destruct (abs_cases y) as [E|[E|(q & E & Hq)]]; rewrite E in Hc;
    try discriminate.
  cbn [le] in Hc. apply Qle_bool_iff in Hc.
  rewrite Qred_correct in Hc. clear - Hc Hq Hu. lra.
Qed.

(** The one place where the two checks part: an expected total of
    [-4 * MIN_VALUE], whose tenth is rounded to zero and whose 15% is
    rounded to [- MIN_VALUE]. *)
Example validateTotal_underflow :
  let e := mul (ofZ (-4)) MIN_VALUE in
  lt e zero = true
  /\ isDisplayedCorrect (validateTotal e [] e) = true
  /\ isTotalValid e (calculateTotal []) e = false.
Proof. vm_compute. repeat split; reflexivity. Qed.

(** X16: the check of the add-to-cart test (15%, either side) accepts
    whatever [validateTotal] (10%) accepts on its displayed side or on its
    calculated side, for every expected total that is not negative or is
    at most [-5 * MIN_VALUE]: every one but the four negative numbers
    nearest to zero, whose tenth is rounded to zero. *)
Theorem validateTotal_implies_isTotalValid
    (displayed : number) (scraped : list product) (expected : number) :
  lt expected zero = false
  \/ le expected (mul (ofZ (-5)) MIN_VALUE) = true ->
  isDisplayedCorrect (validateTotal displayed scraped expected) = true
  \/ isCalculatedCorrect (validateTotal displayed scraped expected) = true ->
  isTotalValid displayed (calculateTotal (map price scraped)) expected = true.
Proof.
  unfold validateTotal, isTotalValid.
  cbn [isDisplayedCorrect isCalculatedCorrect].
  intros [He|He] [H|H].
  - apply (tolerance_widens _ _ He) in H. rewrite H. reflexivity.
  - apply (tolerance_widens _ _ He) in H. rewrite H. apply orb_true_r.
  - rewrite (tolerance_negative _ _ He) in H. discriminate.
  - rewrite (tolerance_negative _ _ He) in H. discriminate.
Qed.

Lemma validateTotal_implies_isTotalValid_witness :
  isTotalValid (ofZ 1080) (calculateTotal (map price [priced 2000]))
    (ofZ 1000) = true.
Proof.
  apply (validateTotal_implies_isTotalValid (ofZ 1080) [priced 2000]
           (ofZ 1000)).
  - left. vm_compute. reflexivity.
  - left. vm_compute. reflexivity.
Defined.

(** X17: with an expected total of 0 [validateTotal] accepts a total only
    if it is exactly 0, and with a negative expected total, from
    [-5 * MIN_VALUE] down, it accepts nothing: the tolerance is a share of
    the expected total.  (The tenth of the four negative numbers nearest
    to zero is rounded to zero.) *)
Theorem validateTotal_degenerate_expected
    (displayed : number) (scraped : list product) :
  binary64 displayed ->
  isDisplayedCorrect (validateTotal displayed scraped (ofZ 0))
  = strictEquals displayed (ofZ 0)
  /\ isCalculatedCorrect (validateTotal displayed scraped (ofZ 0))
     = strictEquals (calculateTotal (map price scraped)) (ofZ 0)
  /\ forall expected,
       le expected (mul (ofZ (-5)) MIN_VALUE) = true ->
       isDisplayedCorrect (validateTotal displayed scraped expected) = false
       /\ isCalculatedCorrect (validateTotal displayed scraped expected)
          = false.
Proof.
  intros Hdisp.
  assert (forall d, binary64 d ->
            le (abs (sub d (ofZ 0))) (mul (ofZ 0) (literal (1 # 10)))
            = strictEquals d (ofZ 0)) as Hzero.
  { intros d Hd. rewrite (sub_zero d Hd).
    change (mul (ofZ 0) (literal (1 # 10))) with (ofZ 0).
    destruct d as [|[]|a]; try reflexivity.
    cbn [abs le strictEquals ofZ].
    apply eq_true_iff_eq. rewrite Qle_bool_iff, Qeq_bool_iff, Qred_correct.
    change (inject_Z 0) with 0%Q. split.
    - intros H. apply Qabs_Qle_condition in H as [H1 H2]. clear - H1 H2. lra.
    - intros ->. clear. discriminate. }
  unfold validateTotal. cbn [isDisplayedCorrect isCalculatedCorrect].
  split; [apply Hzero, Hdisp|]. split; [apply Hzero, calculateTotal_binary64|].
  intros expected He. split; apply tolerance_negative, He.
Qed.

Lemma validateTotal_degenerate_expected_witness :
  binary64 (ofZ 5)
  /\ isDisplayedCorrect (validateTotal (ofZ 5) [priced 5] (ofZ (-10))) = false
  /\ isCalculatedCorrect (validateTotal (ofZ 5) [priced 5] (ofZ (-10)))
     = false.
Proof.
  split; [vm_compute; reflexivity|].
  apply (proj2 (proj2 (validateTotal_degenerate_expected (ofZ 5) [priced 5]
                         ltac:(vm_compute; reflexivity)))
           (ofZ (-10))).
  vm_compute. reflexivity.
Defined.

(* ===================================================================== *)
(** ** Composition *)
(* ===================================================================== *)

Lemma cleanPrice_filter (s : jsstring) : cleanPrice s = List.filter isDigit s.
Proof.
  unfold cleanPrice. induction s as [|c s IH]; [reflexivity|].
  cbn [List.filter]. rewrite replaceClass_cons.
  destruct (isDigit c) eqn:Hd.
  - rewrite (digit_not_currency c Hd), replaceClass_cons,
      (digit_not_nonNumeric c Hd), IH. reflexivity.
  - destruct (currencyClass c) eqn:Hc; [exact IH|].
    rewrite replaceClass_cons.
    replace (nonNumericClass c) with true; [exact IH|].
    unfold nonNumericClass, currencyClass in *. rewrite Hd.
    bool_to_prop Hc. destruct (N.eqb_spec c 46); [tauto|reflexivity].
Qed.

(** X18: [extractPrice] reads every digit of its argument, wherever it
    stands, as one whole number: what survives the cleaning is exactly the
    digits of the text, and the price of a text in two parts is read from
    the number of the first part, shifted by the number of digits of the
    second, plus the number of the second: it is the binary64 value
    nearest to that sum, and the sum itself up to 2^53. *)
Theorem extractPrice_reads_all_digits (a b : jsstring) :
  cleanPrice (a ++ b) = List.filter isDigit a ++ List.filter isDigit b
  /\ extractPrice (a ++ b)
     = nearest (digitsValue (List.filter isDigit a)
                * 10 ^ N.of_nat (length (List.filter isDigit b))
                + digitsValue (List.filter isDigit b))
  /\ ((digitsValue (List.filter isDigit a)
       * 10 ^ N.of_nat (length (List.filter isDigit b))
       + digitsValue (List.filter isDigit b) <= 2 ^ 53)%N ->
      extractPrice (a ++ b)
      = ofN (digitsValue (List.filter isDigit a)
             * 10 ^ N.of_nat (length (List.filter isDigit b))
             + digitsValue (List.filter isDigit b))).
Proof.
  assert (cleanPrice (a ++ b)
          = List.filter isDigit a ++ List.filter isDigit b) as H
    by (rewrite cleanPrice_filter; apply List.filter_app).
  assert (extractPrice (a ++ b)
          = nearest (digitsValue (List.filter isDigit a)
                     * 10 ^ N.of_nat (length (List.filter isDigit b))
                     + digitsValue (List.filter isDigit b))) as Hv
    by (rewrite extractPrice_value, H, digitsValue_app; reflexivity).
  split; [exact H|]. split; [exact Hv|].
  intros Hle. rewrite Hv. apply nearest_exact, Hle.
Qed.

Lemma isCorrectlySorted_lookup (products : list product) :
  isCorrectlySorted (generateSortViolationReport products) = true <->
  forall i prev cur,
    products !! i = Some prev -> products !! (S i) = Some cur ->
    lt (price cur) (price prev) = false.
Proof.
  rewrite isCorrectlySorted_iff. split.
  - intros Hnil i prev cur Hp Hc.
    destruct (lt (price cur) (price prev)) eqn:E; [|reflexivity].
    assert (mkViolation (S i + 1) (name cur) (price cur) (name prev)
              (price prev)
            ∈ violations (generateSortViolationReport products)) as Hin
      by (apply elem_of_violations; eauto 10).
    rewrite Hnil in Hin. by apply elem_of_nil in Hin.
  - intros H.
    destruct (violations (generateSortViolationReport products))
      as [|v vs] eqn:E; [reflexivity|].
    assert (v ∈ violations (generateSortViolationReport products)) as Hv
      by (rewrite E; left).
    apply elem_of_violations in Hv as (i & cur & prev & Hp & Hc & Hlt & _).
    rewrite (H i prev cur Hp Hc) in Hlt. discriminate.
Qed.

(** X19: products collected from two pages are correctly sorted exactly
    when each page is and the first product of the second page is not
    cheaper than the last product of the first: a descent across the page
    boundary is a violation like any other. *)
Theorem sort_report_across_pages (page1 page2 : list product) :
  isCorrectlySorted (generateSortViolationReport (page1 ++ page2)) = true
  <-> isCorrectlySorted (generateSortViolationReport page1) = true
      /\ isCorrectlySorted (generateSortViolationReport page2) = true
      /\ (forall a b, last page1 = Some a -> head page2 = Some b ->
                      lt (price b) (price a) = false).
Proof.
  rewrite !isCorrectlySorted_lookup. split.
  - intros H. split; [|split].
    + intros i prev cur Hp Hc.
      apply (H i prev cur); apply lookup_app_l_Some; assumption.
    + intros i prev cur Hp Hc.
      apply (H (length page1 + i) prev cur).
      * rewrite lookup_app_r by lia.
        replace (length page1 + i - length page1) with i by lia. exact Hp.
      * rewrite lookup_app_r by lia.
        replace (S (length page1 + i) - length page1) with (S i) by lia.
        exact Hc.
    + intros a b Ha Hb. rewrite last_lookup in Ha. rewrite head_lookup in Hb.
      pose proof (lookup_lt_Some _ _ _ Ha) as Hlen.
      apply (H (pred (length page1)) a b).
      * apply lookup_app_l_Some, Ha.
      * rewrite lookup_app_r by lia.
        replace (S (pred (length page1)) - length page1) with 0 by lia.
        exact Hb.
  - intros (H1 & H2 & Hb) i prev cur Hp Hc.
    apply lookup_app_Some in Hp as [Hp|[Hlen Hp]];
      apply lookup_app_Some in Hc as [Hc|[Hlen' Hc]].
    + apply (H1 i prev cur Hp Hc).
    + apply Hb.
      * rewrite last_lookup. apply lookup_lt_Some in Hp as Hlt.
        replace (pred (length page1)) with i by lia. exact Hp.
      * rewrite head_lookup.
        apply lookup_lt_Some in Hp as Hlt.
        replace (S i - length page1) with 0 in Hc by lia. exact Hc.
    + apply lookup_lt_Some in Hc. lia.
    + apply (H2 (i - length page1) prev cur Hp).
      replace (S (i - length page1)) with (S i - length page1) by lia.
      exact Hc.
Qed.

(* ===================================================================== *)
(** ** Further evaluation on concrete inputs *)
(* ===================================================================== *)

Example validateAscendingOrder_ex :
  AscendingOrder.validateAscendingOrder [ofZ 100; ofZ 50; ofZ 200]
  = AscendingOrder.mkOrderResult false
      [ AscendingOrder.mkPriceViolation 1 (ofZ 100) (ofZ 50)
          (lit "Product at index 1 has price " ++ [rupee]
           ++ lit "50 which is less than previous product price "
           ++ [rupee] ++ lit "100") ]
      3 1.
Proof. vm_compute. reflexivity. Qed.

Example validateAscendingOrder_nan :
  AscendingOrder.isValid
    (AscendingOrder.validateAscendingOrder [ofZ 5; NaN; ofZ 3]) = true.
Proof. vm_compute. reflexivity. Qed.

Example getProductsWithPrices_ex :
  getProductsWithPrices
    [ Card [Some (lit "  Nike Air  ")] [Some (rupee :: lit "1,299")];
      Card [Some (lit "No price")] [];
      CardThrows;
      Card [Some (lit "Free")] [Some (rupee :: lit "0")];
      Card [None] [Some (rupee :: lit "5")];
      Card [Some (lit "Puma")] [Some (lit " Rs. 45.50 "); Some (lit "9")] ]
  = [ mkListing (mkProduct (lit "Nike Air") (ofZ 1299)) (rupee :: lit "1,299");
      mkListing (mkProduct (lit "Puma") (ofZ 4550)) (lit "Rs. 45.50") ].
Proof. vm_compute. reflexivity. Qed.

Example getCartItems_ex :
  getCartItems
    [ ReadText (Some (lit " Nike Air Shoes "));
      ReadThrows;
      ReadText None;
      ReadText (Some (lit "Puma")) ]
    [ ReadText (Some (rupee :: lit "1,299 ")); ReadText None; ReadText None ]
  = [ mkListing (mkProduct (lit "Nike Air Shoes") (ofZ 1299))
        (rupee :: lit "1,299");
      mkListing (mkProduct (lit "Puma") (ofZ 0)) [] ].
Proof. vm_compute. reflexivity. Qed.

Example collectProductsFromPages_ex :
  let p1 := [Card [Some (lit "A")] [Some (lit "10")]] in
  let p2 := [Card [Some (lit "B")] [Some (lit "20")]] in
  let p3 := [Card [Some (lit "C")] [Some (lit "30")]] in
  map (fun l => price (item l))
      (fst (collectProductsFromPages sitePages siteProducts siteNext 2
              [p1; p2; p3]))
  = [ofZ 10; ofZ 20]
  /\ snd (collectProductsFromPages sitePages siteProducts siteNext 2
            [p1; p2; p3]) = [p2; p3]
  /\ map (fun l => price (item l))
       (fst (collectProductsFromPages sitePages siteProducts siteNext 5
               [p1; p2]))
     = [ofZ 10; ofZ 20].
Proof. vm_compute. repeat split; reflexivity. Qed.

Example isTotalValid_ex :
  isTotalValid (ofZ 1120) (ofZ 5000) (ofZ 1000) = true
  /\ isTotalValid (ofZ 1200) (ofZ 1200) (ofZ 1000) = false.
Proof. vm_compute. split; reflexivity. Qed.

Example extractPrice_glues_digits :
  extractPrice (rupee :: lit "1,299 (10% off)") = ofZ 129910.
Proof. vm_compute. reflexivity. Qed.

(* ===================================================================== *)
(** ** The expected products of the add-to-cart test *)
(* ===================================================================== *)





Example recordAdded_ex :
  let listing := getProductsWithPrices
                   [ Card [Some (lit "Nike Air")] [Some (rupee :: lit "1,299")] ] in
  recordAdded listing 1 (Some ([], [ReadThrows]))
  = Added (mkProduct (lit "Nike Air") (ofZ 1299)) 1
  /\ recordAdded listing 2 None = Skipped
  /\ recordAdded listing 0 None = TestThrows.
Proof. vm_compute. repeat split; reflexivity. Qed.
